(** * Voice session manager of the Quran bot

    A shallow embedding of the two audio managers of the repository,

    - [src/src/core/AudioManager.js], the unified manager ([Module Core]), and
    - [src/audioManager.js], the older manager still required by the
      interaction handler ([Module Legacy]),

    together with the properties the specification states about them.

    The managers are JavaScript classes holding [Map]s from guild ids to
    objects of [@discordjs/voice] and [child_process].  Objects live in
    heaps (lists indexed by allocation order) so that two references to one
    object stay aliased; the maps hold heap indices.  Numbers are IEEE 754
    binary64 values ([PrimFloat]). *)

From Stdlib Require Import Floats ZArith Bool Lia.
From stdpp Require Import gmap strings list fin_maps pretty.

Set Warnings "-inexact-float".

(** ** JavaScript numbers *)

Section JsNumber.
Local Open Scope float_scope.

(** [Math.min] and [Math.max] on two arguments: NaN is contagious, and
    [-0] counts as smaller than [+0]. *)
Definition Math_min (a b : float) : float :=
  if is_nan a || is_nan b then nan
  else if a <? b then a
  else if b <? a then b
  else match classify a with PZero => b | _ => a end.

Definition Math_max (a b : float) : float :=
  if is_nan a || is_nan b then nan
  else if b <? a then a
  else if a <? b then b
  else match classify a with NZero => b | _ => a end.
End JsNumber.

(** ** Constants ([AUDIO_CONFIG] of [utils/Constants], [this.config] of the
       older manager: the same values) *)

Module AUDIO_CONFIG.
Definition CONNECTION_TIMEOUT : Z := 10000.
Definition RETRY_DELAY : Z := 5000.
Definition DEFAULT_VOLUME : float := 1.0%float.
Definition MAX_VOLUME : float := 2.0%float.
Definition MIN_VOLUME : float := 0.0%float.
Definition VOLUME_STEP : float := 0.1%float.
End AUDIO_CONFIG.

(** ** Identifiers and results *)

Abbreviation guildId := string.
Abbreviation channelId := string.

(** The errors the managers throw or let through. *)
Inductive JsError :=
| InvalidVoiceChannel          (* the channel is missing or not of type 2 *)
| PermissionDenied             (* MESSAGES.ERRORS.PERMISSION_DENIED *)
| TypeError                    (* property read on null or undefined *)
| AbortError                   (* entersState: the status was not reached in time *)
| NoPlayerFound (g : guildId). (* No player found for guild g *)

(** The completion of a call: a returned value or a thrown error. *)
Inductive Completion (A : Type) :=
| Return (a : A)
| Throw (e : JsError).
Arguments Return {A} a.
Arguments Throw {A} e.

(** ** Objects of [@discordjs/voice], [child_process] and the timer queue *)

Inductive VoiceConnectionStatus :=
| Signalling | Connecting | Ready | Disconnected | Destroyed.

Inductive AudioPlayerStatus :=
| Idle | Buffering | Playing | Paused | AutoPaused.

(** A voice connection: its join configuration, its state, the player it
    forwards, and the guild ids captured by the listener pairs
    ([Disconnected], [Destroyed]) a manager attached to it. *)
Record VoiceConnection := {
  joinConfig_guildId : guildId;
  joinConfig_channelId : channelId;
  cstatus : VoiceConnectionStatus;
  subscription : option nat;
  clisteners : list guildId
}.

(** An audio resource made by [createAudioResource(ffmpeg.stdout, ...)]:
    the process it reads, its inline volume transformer, and the silence
    frames that remain once [stop()] was asked ([-1]: not asked). *)
Record AudioResource := {
  playStream : nat;
  rvolume : option float;
  silenceRemaining : Z
}.

(** The state of a player is a tagged union: every state but Idle holds
    the resource being played. *)
Inductive AudioPlayerState :=
| IdleState
| BufferingState (r : AudioResource)
| PlayingState (r : AudioResource)
| PausedState (r : AudioResource)
| AutoPausedState (r : AudioResource).

Definition status (st : AudioPlayerState) : AudioPlayerStatus :=
  match st with
  | IdleState => Idle
  | BufferingState _ => Buffering
  | PlayingState _ => Playing
  | PausedState _ => Paused
  | AutoPausedState _ => AutoPaused
  end.

Definition resource (st : AudioPlayerState) : option AudioResource :=
  match st with
  | IdleState => None
  | BufferingState r | PlayingState r | PausedState r | AutoPausedState r => Some r
  end.

(** A player: its state and the guild ids captured by the listener sets
    ([Idle], [Playing], [Paused], ['error']) a manager attached to it. *)
Record AudioPlayer := {
  pstate : AudioPlayerState;
  plisteners : list guildId
}.

(** A child process: [killed] is set once a signal was delivered by
    [kill()]; [exited] once the process is gone. *)
Record ChildProcess := {
  spawnUrl : string;
  killed : bool;
  exited : bool
}.

Definition live (p : ChildProcess) : bool := negb (killed p) && negb (exited p).

(** The callbacks the managers hand to [setTimeout]. *)
Inductive TimerCallback :=
| RestartRadio (g : guildId)      (* () => this.restartRadio(guildId) *)
| ForceKill (pid : nat)           (* if (!ffmpeg.killed) ffmpeg.kill('SIGKILL') *)
| SetSuppressed (g : guildId).    (* me.voice.setSuppressed(false) *)

Record Timer := { delay : Z; callback : TimerCallback }.

(** ** Stream descriptors: the values of [currentStreams] *)

Inductive StreamInfo :=
| RadioStream (url : string) (stationInfo : option (gmap string string)) (startTime : Z)
| QuranStream (url surahName reciterName : string)
              (metadata : option (gmap string string)) (startTime : Z).

Inductive StreamType := RADIO | QURAN.

Definition stream_type (s : StreamInfo) : StreamType :=
  match s with RadioStream _ _ _ => RADIO | QuranStream _ _ _ _ _ => QURAN end.

Definition stream_url (s : StreamInfo) : string :=
  match s with RadioStream u _ _ => u | QuranStream u _ _ _ _ => u end.

(** ** The state: the fields of the manager, and the runtime around it *)

Record World := {
  (* fields of AudioManager *)
  connections : gmap guildId nat;         (* guildId -> VoiceConnection *)
  players : gmap guildId nat;             (* guildId -> AudioPlayer *)
  currentStreams : gmap guildId StreamInfo;
  volumes : gmap guildId float;
  ffmpegProcesses : gmap guildId nat;     (* guildId -> child_process *)
  connectionListeners : gmap guildId nat; (* guildId -> unsubscribe closures, over that connection *)
  playerListeners : gmap guildId nat;     (* guildId -> unsubscribe closures, over that player *)
  (* runtime *)
  voiceConnections : gmap guildId nat;    (* the library's registry, read by getVoiceConnection *)
  connHeap : list VoiceConnection;
  playerHeap : list AudioPlayer;
  procHeap : list ChildProcess;
  timers : list Timer                     (* pending setTimeout callbacks, oldest first *)
}.

Definition emptyWorld : World :=
  {| connections := ∅; players := ∅; currentStreams := ∅; volumes := ∅;
     ffmpegProcesses := ∅; connectionListeners := ∅; playerListeners := ∅;
     voiceConnections := ∅; connHeap := []; playerHeap := []; procHeap := [];
     timers := [] |}.

Definition set_connections (f : gmap guildId nat → gmap guildId nat) (w : World) : World :=
  {| connections := f (connections w); players := players w;
     currentStreams := currentStreams w; volumes := volumes w;
     ffmpegProcesses := ffmpegProcesses w;
     connectionListeners := connectionListeners w;
     playerListeners := playerListeners w;
     voiceConnections := voiceConnections w; connHeap := connHeap w;
     playerHeap := playerHeap w; procHeap := procHeap w; timers := timers w |}.

Definition set_players (f : gmap guildId nat → gmap guildId nat) (w : World) : World :=
  {| connections := connections w; players := f (players w);
     currentStreams := currentStreams w; volumes := volumes w;
     ffmpegProcesses := ffmpegProcesses w;
     connectionListeners := connectionListeners w;
     playerListeners := playerListeners w;
     voiceConnections := voiceConnections w; connHeap := connHeap w;
     playerHeap := playerHeap w; procHeap := procHeap w; timers := timers w |}.

Definition set_currentStreams
    (f : gmap guildId StreamInfo → gmap guildId StreamInfo) (w : World) : World :=
  {| connections := connections w; players := players w;
     currentStreams := f (currentStreams w); volumes := volumes w;
     ffmpegProcesses := ffmpegProcesses w;
     connectionListeners := connectionListeners w;
     playerListeners := playerListeners w;
     voiceConnections := voiceConnections w; connHeap := connHeap w;
     playerHeap := playerHeap w; procHeap := procHeap w; timers := timers w |}.

Definition set_volumes (f : gmap guildId float → gmap guildId float) (w : World) : World :=
  {| connections := connections w; players := players w;
     currentStreams := currentStreams w; volumes := f (volumes w);
     ffmpegProcesses := ffmpegProcesses w;
     connectionListeners := connectionListeners w;
     playerListeners := playerListeners w;
     voiceConnections := voiceConnections w; connHeap := connHeap w;
     playerHeap := playerHeap w; procHeap := procHeap w; timers := timers w |}.

Definition set_ffmpegProcesses (f : gmap guildId nat → gmap guildId nat) (w : World) : World :=
  {| connections := connections w; players := players w;
     currentStreams := currentStreams w; volumes := volumes w;
     ffmpegProcesses := f (ffmpegProcesses w);
     connectionListeners := connectionListeners w;
     playerListeners := playerListeners w;
     voiceConnections := voiceConnections w; connHeap := connHeap w;
     playerHeap := playerHeap w; procHeap := procHeap w; timers := timers w |}.

Definition set_connectionListeners (f : gmap guildId nat → gmap guildId nat) (w : World) : World :=
  {| connections := connections w; players := players w;
     currentStreams := currentStreams w; volumes := volumes w;
     ffmpegProcesses := ffmpegProcesses w;
     connectionListeners := f (connectionListeners w);
     playerListeners := playerListeners w;
     voiceConnections := voiceConnections w; connHeap := connHeap w;
     playerHeap := playerHeap w; procHeap := procHeap w; timers := timers w |}.

Definition set_playerListeners (f : gmap guildId nat → gmap guildId nat) (w : World) : World :=
  {| connections := connections w; players := players w;
     currentStreams := currentStreams w; volumes := volumes w;
     ffmpegProcesses := ffmpegProcesses w;
     connectionListeners := connectionListeners w;
     playerListeners := f (playerListeners w);
     voiceConnections := voiceConnections w; connHeap := connHeap w;
     playerHeap := playerHeap w; procHeap := procHeap w; timers := timers w |}.

Definition set_voiceConnections (f : gmap guildId nat → gmap guildId nat) (w : World) : World :=
  {| connections := connections w; players := players w;
     currentStreams := currentStreams w; volumes := volumes w;
     ffmpegProcesses := ffmpegProcesses w;
     connectionListeners := connectionListeners w;
     playerListeners := playerListeners w;
     voiceConnections := f (voiceConnections w); connHeap := connHeap w;
     playerHeap := playerHeap w; procHeap := procHeap w; timers := timers w |}.

Definition set_connHeap (f : list VoiceConnection → list VoiceConnection) (w : World) : World :=
  {| connections := connections w; players := players w;
     currentStreams := currentStreams w; volumes := volumes w;
     ffmpegProcesses := ffmpegProcesses w;
     connectionListeners := connectionListeners w;
     playerListeners := playerListeners w;
     voiceConnections := voiceConnections w; connHeap := f (connHeap w);
     playerHeap := playerHeap w; procHeap := procHeap w; timers := timers w |}.

Definition set_playerHeap (f : list AudioPlayer → list AudioPlayer) (w : World) : World :=
  {| connections := connections w; players := players w;
     currentStreams := currentStreams w; volumes := volumes w;
     ffmpegProcesses := ffmpegProcesses w;
     connectionListeners := connectionListeners w;
     playerListeners := playerListeners w;
     voiceConnections := voiceConnections w; connHeap := connHeap w;
     playerHeap := f (playerHeap w); procHeap := procHeap w; timers := timers w |}.

Definition set_procHeap (f : list ChildProcess → list ChildProcess) (w : World) : World :=
  {| connections := connections w; players := players w;
     currentStreams := currentStreams w; volumes := volumes w;
     ffmpegProcesses := ffmpegProcesses w;
     connectionListeners := connectionListeners w;
     playerListeners := playerListeners w;
     voiceConnections := voiceConnections w; connHeap := connHeap w;
     playerHeap := playerHeap w; procHeap := f (procHeap w); timers := timers w |}.

Definition set_timers (f : list Timer → list Timer) (w : World) : World :=
  {| connections := connections w; players := players w;
     currentStreams := currentStreams w; volumes := volumes w;
     ffmpegProcesses := ffmpegProcesses w;
     connectionListeners := connectionListeners w;
     playerListeners := playerListeners w;
     voiceConnections := voiceConnections w; connHeap := connHeap w;
     playerHeap := playerHeap w; procHeap := procHeap w; timers := f (timers w) |}.

(** ** The runtime: [@discordjs/voice], [child_process], [setTimeout]

    These are not code of the repository; the definitions below record the
    behaviour of the library calls the managers make. *)

Definition setTimeout (cb : TimerCallback) (ms : Z) (w : World) : World :=
  set_timers (λ ts, ts ++ [{| delay := ms; callback := cb |}]) w.

(** [spawn('ffmpeg', args, ...)]: a new running process. *)
Definition spawn (url : string) (w : World) : nat * World :=
  (length (procHeap w),
   set_procHeap (λ h, h ++ [{| spawnUrl := url; killed := false; exited := false |}]) w).

(** [subprocess.kill(signal)]: the signal is delivered, and [killed] set,
    unless the process is already gone. *)
Definition kill_process (p : ChildProcess) : ChildProcess :=
  if exited p then p
  else {| spawnUrl := spawnUrl p; killed := true; exited := exited p |}.

Definition kill (pid : nat) (w : World) : World :=
  match procHeap w !! pid with
  | Some p => set_procHeap (λ h, <[pid := kill_process p]> h) w
  | None => w
  end.

(** [createAudioPlayer()]: a new player, Idle, without listeners. *)
Definition createAudioPlayer (w : World) : nat * World :=
  (length (playerHeap w),
   set_playerHeap (λ h, h ++ [{| pstate := IdleState; plisteners := [] |}]) w).

(** [createAudioResource(stdout, { inlineVolume: true, ... })]: the volume
    transformer exists and starts at 1; no stop was asked. *)
Definition createAudioResource (pid : nat) : AudioResource :=
  {| playStream := pid; rvolume := Some 1%float; silenceRemaining := (-1)%Z |}.

(** [resource.volume?.setVolume(v)] *)
Definition resource_setVolume (v : float) (r : AudioResource) : AudioResource :=
  match rvolume r with
  | Some _ => {| playStream := playStream r; rvolume := Some v;
                 silenceRemaining := silenceRemaining r |}
  | None => r
  end.

Definition map_resource (f : AudioResource → AudioResource)
    (st : AudioPlayerState) : AudioPlayerState :=
  match st with
  | IdleState => IdleState
  | BufferingState r => BufferingState (f r)
  | PlayingState r => PlayingState (f r)
  | PausedState r => PausedState (f r)
  | AutoPausedState r => AutoPausedState (f r)
  end.

(** [player.pause()]: only a Playing player pauses. *)
Definition player_pause (st : AudioPlayerState) : bool * AudioPlayerState :=
  match st with
  | PlayingState r => (true, PausedState r)
  | _ => (false, st)
  end.

(** [player.unpause()]: only a Paused player resumes. *)
Definition player_unpause (st : AudioPlayerState) : bool * AudioPlayerState :=
  match st with
  | PausedState r => (true, PlayingState r)
  | _ => (false, st)
  end.

(** [player.stop()] without [force]: a player that is not Idle keeps its
    status and is left five frames of silence to play, after which the
    engine takes it to Idle. *)
Definition resource_stop (r : AudioResource) : AudioResource :=
  if (silenceRemaining r =? -1)%Z
  then {| playStream := playStream r; rvolume := rvolume r; silenceRemaining := 5 |}
  else r.

Definition player_stop (st : AudioPlayerState) : bool * AudioPlayerState :=
  match st with
  | IdleState => (false, st)
  | _ => (true, map_resource resource_stop st)
  end.

(** [player.play(resource)] with a resource not yet started: the player
    buffers it, dropping what it played before. *)
Definition player_play (r : AudioResource) (st : AudioPlayerState) : AudioPlayerState :=
  BufferingState r.

Definition update_player (pid : nat) (f : AudioPlayerState → AudioPlayerState)
    (w : World) : World :=
  match playerHeap w !! pid with
  | Some p =>
    set_playerHeap
      (λ h, <[pid := {| pstate := f (pstate p); plisteners := plisteners p |}]> h) w
  | None => w
  end.

Definition update_connection (cid : nat) (f : VoiceConnection → VoiceConnection)
    (w : World) : World :=
  match connHeap w !! cid with
  | Some c => set_connHeap (λ h, <[cid := f c]> h) w
  | None => w
  end.

Definition conn_set_status (s : VoiceConnectionStatus) (c : VoiceConnection) :=
  {| joinConfig_guildId := joinConfig_guildId c;
     joinConfig_channelId := joinConfig_channelId c;
     cstatus := s; subscription := subscription c; clisteners := clisteners c |}.

Definition conn_set_channel (ch : channelId) (c : VoiceConnection) :=
  {| joinConfig_guildId := joinConfig_guildId c;
     joinConfig_channelId := ch;
     cstatus := cstatus c; subscription := subscription c;
     clisteners := clisteners c |}.

Definition conn_set_subscription (pid : nat) (c : VoiceConnection) :=
  {| joinConfig_guildId := joinConfig_guildId c;
     joinConfig_channelId := joinConfig_channelId c;
     cstatus := cstatus c; subscription := Some pid;
     clisteners := clisteners c |}.

Definition conn_set_listeners (ls : list guildId) (c : VoiceConnection) :=
  {| joinConfig_guildId := joinConfig_guildId c;
     joinConfig_channelId := joinConfig_channelId c;
     cstatus := cstatus c; subscription := subscription c;
     clisteners := ls |}.

Definition player_set_listeners (ls : list guildId) (p : AudioPlayer) :=
  {| pstate := pstate p; plisteners := ls |}.

(** [getVoiceConnection(guildId)] *)
Definition getVoiceConnection (g : guildId) (w : World) : option nat :=
  voiceConnections w !! g.

Definition is_destroyed (s : VoiceConnectionStatus) : bool :=
  match s with Destroyed => true | _ => false end.

Definition is_disconnected (s : VoiceConnectionStatus) : bool :=
  match s with Disconnected => true | _ => false end.

(** The library's [joinVoiceChannel({ channelId, guildId, ... })]: a
    connection of the guild that the registry still holds and that is not
    destroyed is sent to the channel and returned (rejoining when it was
    disconnected); otherwise a new connection is made and registered. *)
Definition voice_joinVoiceChannel (ch : channelId) (g : guildId) (w : World) : nat * World :=
  let fresh :=
    (length (connHeap w),
     set_voiceConnections (<[g := length (connHeap w)]>)
       (set_connHeap
          (λ h, h ++ [{| joinConfig_guildId := g; joinConfig_channelId := ch;
                         cstatus := Signalling; subscription := None;
                         clisteners := [] |}]) w)) in
  match getVoiceConnection g w with
  | Some cid =>
    match connHeap w !! cid with
    | Some c =>
      if is_destroyed (cstatus c) then fresh
      else
        (cid,
         update_connection cid
           (λ c, conn_set_channel ch
                   (if is_disconnected (cstatus c) then conn_set_status Signalling c else c))
           w)
    | None => fresh
    end
  | None => fresh
  end.

(** [connection.subscribe(player)] *)
Definition subscribe (cid pid : nat) (w : World) : World :=
  update_connection cid (conn_set_subscription pid) w.

(** The state change of [connection.destroy()] on a connection that is not
    yet destroyed: the registry forgets it and its state becomes
    [{ status: Destroyed }], which holds no subscription any more. The
    [Destroyed] event that follows is delivered by the managers' own
    [cleanupGuildResources] below. *)
Definition untrackVoiceConnection (cid : nat) (g : guildId) (w : World) : World :=
  match voiceConnections w !! g with
  | Some cid' => if decide (cid' = cid) then set_voiceConnections (delete g) w else w
  | None => w
  end.

Definition conn_destroy (c : VoiceConnection) : VoiceConnection :=
  {| joinConfig_guildId := joinConfig_guildId c;
     joinConfig_channelId := joinConfig_channelId c;
     cstatus := Destroyed; subscription := None; clisteners := clisteners c |}.

Definition mark_destroyed (cid : nat) (w : World) : World :=
  match connHeap w !! cid with
  | Some c =>
    update_connection cid conn_destroy
      (untrackVoiceConnection cid (joinConfig_guildId c) w)
  | None => w
  end.

(** ** Guild data read by [joinVoiceChannel] *)

(** [channel.permissionsFor(guild.members.me)]: [null] when the member
    cannot be resolved, else what [has(Connect)] and [has(Speak)] answer. *)
Record Permissions := { hasConnect : bool; hasSpeak : bool }.

Record Channel := { channelType : Z; permissionsFor_me : option Permissions }.

(** [guild.channels.cache] *)
Record Guild := { channels_cache : gmap channelId Channel }.

(** ** Methods with the same text in both managers *)

(** [getVolume]: [this.volumes.get(guildId) ?? DEFAULT_VOLUME] *)
Definition getVolume (g : guildId) (w : World) : float :=
  match volumes w !! g with
  | Some v => v
  | None => AUDIO_CONFIG.DEFAULT_VOLUME
  end.

Definition getPlayer (g : guildId) (w : World) : option (nat * AudioPlayer) :=
  match players w !! g with
  | Some pid =>
    match playerHeap w !! pid with
    | Some p => Some (pid, p)
    | None => None
    end
  | None => None
  end.

(** [isPlayerReady(player)]:
    [player && player.state.status !== Idle && player.state.resource] *)
Definition isPlayerReady (p : option (nat * AudioPlayer)) : bool :=
  match p with
  | Some (_, p) =>
    match status (pstate p) with
    | Idle => false
    | _ => match resource (pstate p) with Some _ => true | None => false end
    end
  | None => false
  end.

Definition clampVolume (volume : float) : float :=
  Math_max AUDIO_CONFIG.MIN_VOLUME (Math_min AUDIO_CONFIG.MAX_VOLUME volume).

(** [setVolume]: nothing in the [try] block throws, so the [catch] that
    returns false is never entered. *)
Definition setVolume (g : guildId) (volume : float) (w : World) : bool * World :=
  let clampedVolume := clampVolume volume in
  let w1 := set_volumes (<[g := clampedVolume]>) w in
  let player := getPlayer g w1 in
  let w2 :=
    if isPlayerReady player then
      match player with
      | Some (pid, _) => update_player pid (map_resource (resource_setVolume clampedVolume)) w1
      | None => w1
      end
    else w1 in
  (true, w2).

Definition increaseVolume (g : guildId) (w : World) : bool * World :=
  let currentVolume := getVolume g w in
  setVolume g (currentVolume + AUDIO_CONFIG.VOLUME_STEP)%float w.

Definition decreaseVolume (g : guildId) (w : World) : bool * World :=
  let currentVolume := getVolume g w in
  setVolume g (currentVolume - AUDIO_CONFIG.VOLUME_STEP)%float w.

(** [cleanupFFmpeg]: SIGTERM now, SIGKILL in two seconds if the first
    signal was not delivered; the entry is dropped in any case. *)
Definition cleanupFFmpeg (g : guildId) (w : World) : World :=
  let w1 :=
    match ffmpegProcesses w !! g with
    | Some pid =>
      match procHeap w !! pid with
      | Some ffmpeg =>
        if negb (killed ffmpeg)
        then setTimeout (ForceKill pid) 2000 (kill pid w)
        else w
      | None => w
      end
    | None => w
    end in
  set_ffmpegProcesses (delete g) w1.

(** [stopCurrentPlayback] *)
Definition stopCurrentPlayback (g : guildId) (w : World) : World :=
  let w1 :=
    match getPlayer g w with
    | Some (pid, _) => update_player pid (λ st, snd (player_stop st)) w
    | None => w
    end in
  cleanupFFmpeg g (set_currentStreams (delete g) w1).

(** [pauseAudio] *)
Definition pauseAudio (g : guildId) (w : World) : bool * World :=
  let player := getPlayer g w in
  if negb (isPlayerReady player) then (false, w)
  else
    match player with
    | Some (pid, p) =>
      match status (pstate p) with
      | Playing => (true, update_player pid (λ st, snd (player_pause st)) w)
      | _ => (false, w)
      end
    | None => (false, w)
    end.

(** [resumeAudio] *)
Definition resumeAudio (g : guildId) (w : World) : bool * World :=
  let player := getPlayer g w in
  if negb (isPlayerReady player) then (false, w)
  else
    match player with
    | Some (pid, p) =>
      match status (pstate p) with
      | Paused => (true, update_player pid (λ st, snd (player_unpause st)) w)
      | _ => (false, w)
      end
    | None => (false, w)
    end.

(** [stopAudio] *)
Definition stopAudio (g : guildId) (w : World) : bool * World :=
  match getPlayer g w with
  | None => (false, w)
  | Some (_, p) =>
    let wasPlaying :=
      match status (pstate p) with
      | Playing | Paused => true
      | _ => false
      end in
    if wasPlaying then (true, stopCurrentPlayback g w) else (false, w)
  end.

(** [hasConnection], [getCurrentStream], [getPlayerStatus] *)
Definition hasConnection (g : guildId) (w : World) : bool :=
  bool_decide (is_Some (connections w !! g)).

Definition getCurrentStream (g : guildId) (w : World) : option StreamInfo :=
  currentStreams w !! g.

Definition getPlayerStatus (g : guildId) (w : World) : option AudioPlayerStatus :=
  match getPlayer g w with
  | Some (_, p) => Some (status (pstate p))
  | None => None
  end.

(** The listener of the player's [Idle] event, [idleListener]. *)
Definition idleListener (g : guildId) (w : World) : World :=
  match currentStreams w !! g with
  | Some (RadioStream _ _ _) => setTimeout (RestartRadio g) 1000 w
  | Some (QuranStream _ _ _ _ _) =>
    cleanupFFmpeg g (set_currentStreams (delete g) w)
  | None => w
  end.

(** The listener of the player's ['error'] event, [errorListener]. *)
Definition errorListener (g : guildId) (w : World) : World :=
  match currentStreams w !! g with
  | Some (RadioStream _ _ _) => setTimeout (RestartRadio g) AUDIO_CONFIG.RETRY_DELAY w
  | _ => cleanupFFmpeg g (set_currentStreams (delete g) w)
  end.

(** The timer armed by [cleanupFFmpeg]. *)
Definition forceKill (pid : nat) (w : World) : World :=
  match procHeap w !! pid with
  | Some ffmpeg => if negb (killed ffmpeg) then kill pid w else w
  | None => w
  end.

(** ** Connection teardown, shared by both managers

    [cleanupGuildResources] destroys the connection of the guild, and
    [destroy()] emits [Destroyed] to the listeners still attached, each of
    which calls [cleanupGuildResources] again for the guild it captured.
    The unified manager detaches its listeners first
    ([cleanupEventListeners]); the older one has no such step.  [detach]
    is that difference.  Every nested call follows the destruction of one
    more connection, so the number of connections bounds the depth. *)

Definition getExistingConnection (g : guildId) (w : World) : option nat :=
  match connections w !! g with
  | Some cid => Some cid
  | None => getVoiceConnection g w
  end.

Definition clearGuildData (g : guildId) (w : World) : World :=
  set_currentStreams (delete g) (set_players (delete g) (set_connections (delete g) w)).

Fixpoint cleanupGuildResources_rec (detach : guildId → World → World)
    (depth : nat) (g : guildId) (w : World) : World :=
  match depth with
  | O => w
  | S depth' =>
    let w1 := detach g (cleanupFFmpeg g w) in
    let w2 :=
      match getExistingConnection g w1 with
      | Some cid =>
        match connHeap w1 !! cid with
        | Some c =>
          if is_destroyed (cstatus c)
          then w1 (* destroy() throws; the catch logs a warning *)
          else
            foldl (λ w' g', cleanupGuildResources_rec detach depth' g' w')
                  (mark_destroyed cid w1) (clisteners c)
        | None => w1
        end
      | None => w1
      end in
    clearGuildData g w2
  end.

Definition cleanupGuildResources_with (detach : guildId → World → World)
    (g : guildId) (w : World) : World :=
  cleanupGuildResources_rec detach (S (length (connHeap w))) g w.

Fixpoint remove_first (g : guildId) (ls : list guildId) : list guildId :=
  match ls with
  | [] => []
  | g' :: ls' => if decide (g' = g) then ls' else g' :: remove_first g ls'
  end.

(** What the engine and the transport do on their own and report through
    events: a player starts or finishes, a connection drops or is
    destroyed, a process exits. *)
Definition engine_playing (pid : nat) (w : World) : World :=
  update_player pid
    (λ st, match st with BufferingState r => PlayingState r | _ => st end) w.

Definition process_exit (pid : nat) (w : World) : World :=
  match procHeap w !! pid with
  | Some p =>
    set_procHeap
      (λ h, <[pid := {| spawnUrl := spawnUrl p; killed := killed p; exited := true |}]> h) w
  | None => w
  end.

(** ** The unified manager, [src/src/core/AudioManager.js] *)

Module Core.

(** [setupConnectionListeners] *)
Definition setupConnectionListeners (g : guildId) (cid : nat) (w : World) : World :=
  set_connectionListeners (<[g := cid]>)
    (update_connection cid (λ c, conn_set_listeners (clisteners c ++ [g]) c) w).

(** [setupPlayerListeners] *)
Definition setupPlayerListeners (g : guildId) (pid : nat) (w : World) : World :=
  set_playerListeners (<[g := pid]>)
    (match playerHeap w !! pid with
     | Some p =>
       set_playerHeap (λ h, <[pid := player_set_listeners (plisteners p ++ [g]) p]> h) w
     | None => w
     end).

(** [cleanupEventListeners] *)
Definition cleanupEventListeners (g : guildId) (w : World) : World :=
  let w1 :=
    match connectionListeners w !! g with
    | Some cid =>
      set_connectionListeners (delete g)
        (update_connection cid
           (λ c, conn_set_listeners (remove_first g (clisteners c)) c) w)
    | None => w
    end in
  match playerListeners w1 !! g with
  | Some pid =>
    set_playerListeners (delete g)
      (match playerHeap w1 !! pid with
       | Some p =>
         set_playerHeap
           (λ h, <[pid := player_set_listeners (remove_first g (plisteners p)) p]> h) w1
       | None => w1
       end)
  | None => w1
  end.

(** [cleanupGuildResources] *)
Definition cleanupGuildResources (g : guildId) (w : World) : World :=
  cleanupGuildResources_with cleanupEventListeners g w.

(** The validation at the head of [joinVoiceChannel]. *)
Definition validateChannel (ch : channelId) (guild : Guild) : Completion unit :=
  match channels_cache guild !! ch with
  | None => Throw InvalidVoiceChannel
  | Some channel =>
    if negb (channelType channel =? 2)%Z then Throw InvalidVoiceChannel
    else
      match permissionsFor_me channel with
      | None => Throw TypeError
      | Some permissions =>
        if negb (hasConnect permissions) || negb (hasSpeak permissions)
        then Throw PermissionDenied
        else Return ()
      end
  end.

(** The connection [joinVoiceChannel] reuses: that of the guild, on the
    same channel, neither Destroyed nor Disconnected. *)
Definition reusableConnection (g : guildId) (ch : channelId) (w : World) : option nat :=
  match getExistingConnection g w with
  | Some cid =>
    match connHeap w !! cid with
    | Some c =>
      if bool_decide (joinConfig_channelId c = ch)
         && negb (is_destroyed (cstatus c))
         && negb (is_disconnected (cstatus c))
      then Some cid else None
    | None => None
    end
  | None => None
  end.

(** [joinVoiceChannel].  [ready] tells whether the new connection
    reaches Ready within [CONNECTION_TIMEOUT]; the call is taken as one
    step (nothing else runs while it waits).  It returns the connection
    and the player. *)
Definition joinVoiceChannel (g : guildId) (ch : channelId) (guild : Guild)
    (ready : bool) (w : World) : Completion (nat * nat) * World :=
  match validateChannel ch guild with
  | Throw e => (Throw e, cleanupGuildResources g w)
  | Return _ =>
    match reusableConnection g ch w with
    | Some cid =>
      let w1 :=
        match connections w !! g with
        | Some _ => w
        | None => set_connections (<[g := cid]>) w
        end in
      match getPlayer g w1 with
      | Some (pid, _) => (Return (cid, pid), w1)
      | None =>
        let '(pid, w2) := createAudioPlayer w1 in
        let w3 := subscribe cid pid w2 in
        let w4 := set_players (<[g := pid]>) w3 in
        (Return (cid, pid), setupPlayerListeners g pid w4)
      end
    | None =>
      let w1 := cleanupGuildResources g w in
      let '(cid, w2) := voice_joinVoiceChannel ch g w1 in
      let w3 :=
        match channels_cache guild !! ch with
        | Some channel =>
          if (channelType channel =? 13)%Z then setTimeout (SetSuppressed g) 1500 w2 else w2
        | None => w2
        end in
      let '(pid, w4) := createAudioPlayer w3 in
      let w5 := subscribe cid pid w4 in
      let w6 := set_players (<[g := pid]>) (set_connections (<[g := cid]>) w5) in
      if ready then
        let w7 := update_connection cid (conn_set_status Ready) w6 in
        (Return (cid, pid), setupPlayerListeners g pid (setupConnectionListeners g cid w7))
      else
        (Throw AbortError, cleanupGuildResources g w6)
    end
  end.

(** [leaveVoiceChannel]: [cleanupGuildResources] catches what
    [destroy()] may throw, so the [catch] that returns false is never
    entered. *)
Definition leaveVoiceChannel (g : guildId) (w : World) : bool * World :=
  (true, cleanupGuildResources g w).

(** [playRadio] *)
Definition playRadio (g : guildId) (streamUrl : string)
    (stationInfo : gmap string string) (now : Z) (w : World) : Completion bool * World :=
  match getPlayer g w with
  | None => (Throw (NoPlayerFound g), cleanupFFmpeg g w)
  | Some (pid, _) =>
    let w1 := stopCurrentPlayback g w in
    let '(ffmpeg, w2) := spawn streamUrl w1 in
    let w3 := set_ffmpegProcesses (<[g := ffmpeg]>) w2 in
    let resource := resource_setVolume (getVolume g w3) (createAudioResource ffmpeg) in
    let w4 := update_player pid (player_play resource) w3 in
    (Return true,
     set_currentStreams (<[g := RadioStream streamUrl (Some stationInfo) now]>) w4)
  end.

(** [playQuran] *)
Definition playQuran (g : guildId) (audioUrl surahName reciterName : string)
    (metadata : gmap string string) (now : Z) (w : World) : Completion bool * World :=
  match getPlayer g w with
  | None => (Throw (NoPlayerFound g), cleanupFFmpeg g w)
  | Some (pid, _) =>
    let w1 := stopCurrentPlayback g w in
    let '(ffmpeg, w2) := spawn audioUrl w1 in
    let w3 := set_ffmpegProcesses (<[g := ffmpeg]>) w2 in
    let resource := resource_setVolume (getVolume g w3) (createAudioResource ffmpeg) in
    let w4 := update_player pid (player_play resource) w3 in
    (Return true,
     set_currentStreams
       (<[g := QuranStream audioUrl surahName reciterName (Some metadata) now]>) w4)
  end.

(** [restartRadio]: a failure of [playRadio] is logged, not thrown. *)
Definition restartRadio (g : guildId) (now : Z) (w : World) : World :=
  match currentStreams w !! g with
  | Some (RadioStream url stationInfo _) =>
    snd (playRadio g url (default ∅ stationInfo) now w)
  | _ => w
  end.

(** The listeners of the connection. [recovered] tells whether the
    connection re-entered Signalling or Connecting within 5 seconds. *)
Definition disconnectedListener (recovered : bool) (g : guildId) (w : World) : World :=
  if recovered then w else cleanupGuildResources g w.

Definition destroyedListener (g : guildId) (w : World) : World :=
  cleanupGuildResources g w.

(** [shutdown].  The guilds are visited in the order of the map's
    listing. *)
Definition shutdown (w : World) : World :=
  let w1 := foldl (λ w' g, cleanupGuildResources g w') w
                  (map fst (map_to_list (connections w))) in
  set_playerListeners (λ _, ∅)
    (set_connectionListeners (λ _, ∅)
       (set_volumes (λ _, ∅)
          (set_ffmpegProcesses (λ _, ∅)
             (set_currentStreams (λ _, ∅)
                (set_players (λ _, ∅)
                   (set_connections (λ _, ∅) w1)))))).

(** *** Events and timers reaching the manager *)

(** The player [pid] reaches Idle and tells its listeners. *)
Definition player_idle (pid : nat) (w : World) : World :=
  match playerHeap w !! pid with
  | Some p =>
    match pstate p with
    | IdleState => w
    | _ => foldl (λ w' g, idleListener g w')
                 (update_player pid (λ _, IdleState) w) (plisteners p)
    end
  | None => w
  end.

(** The player [pid] emits ['error']. *)
Definition player_error (pid : nat) (w : World) : World :=
  match playerHeap w !! pid with
  | Some p => foldl (λ w' g, errorListener g w') w (plisteners p)
  | None => w
  end.

(** The connection [cid] is reported Disconnected. *)
Definition connection_disconnected (cid : nat) (recovered : bool) (w : World) : World :=
  match connHeap w !! cid with
  | Some c =>
    if is_destroyed (cstatus c) then w
    else
      let w1 := update_connection cid (conn_set_status Disconnected) w in
      let w2 := foldl (λ w' g, disconnectedListener recovered g w') w1 (clisteners c) in
      if recovered then
        update_connection cid
          (λ c, if is_disconnected (cstatus c) then conn_set_status Signalling c else c) w2
      else w2
  | None => w
  end.

(** The connection [cid] is destroyed by the transport. *)
Definition connection_destroyed (cid : nat) (w : World) : World :=
  match connHeap w !! cid with
  | Some c =>
    if is_destroyed (cstatus c) then w
    else foldl (λ w' g, destroyedListener g w') (mark_destroyed cid w) (clisteners c)
  | None => w
  end.

(** The [n]-th pending timer fires. *)
Definition fireTimer (n : nat) (now : Z) (w : World) : World :=
  match timers w !! n with
  | Some t =>
    let w1 := set_timers (delete n) w in
    match callback t with
    | RestartRadio g => restartRadio g now w1
    | ForceKill pid => forceKill pid w1
    | SetSuppressed _ => w1
    end
  | None => w
  end.

End Core.

(** ** The older manager, [src/audioManager.js]

    It keeps no record of the listeners it attaches and never detaches
    them; [joinVoiceChannel] validates nothing and always rebuilds. *)

Module Legacy.

(** [setupConnectionListeners] *)
Definition setupConnectionListeners (g : guildId) (cid : nat) (w : World) : World :=
  update_connection cid (λ c, conn_set_listeners (clisteners c ++ [g]) c) w.

(** [setupPlayerListeners] *)
Definition setupPlayerListeners (g : guildId) (pid : nat) (w : World) : World :=
  match playerHeap w !! pid with
  | Some p =>
    set_playerHeap (λ h, <[pid := player_set_listeners (plisteners p ++ [g]) p]> h) w
  | None => w
  end.

(** [cleanupGuildResources] *)
Definition cleanupGuildResources (g : guildId) (w : World) : World :=
  cleanupGuildResources_with (λ _ w, w) g w.

(** [joinVoiceChannel] *)
Definition joinVoiceChannel (g : guildId) (ch : channelId) (ready : bool)
    (w : World) : Completion (nat * nat) * World :=
  let w1 := cleanupGuildResources g w in
  let '(cid, w2) := voice_joinVoiceChannel ch g w1 in
  let '(pid, w3) := createAudioPlayer w2 in
  let w4 := subscribe cid pid w3 in
  let w5 := set_players (<[g := pid]>) (set_connections (<[g := cid]>) w4) in
  if ready then
    let w6 := update_connection cid (conn_set_status Ready) w5 in
    (Return (cid, pid), setupPlayerListeners g pid (setupConnectionListeners g cid w6))
  else
    (Throw AbortError, cleanupGuildResources g w5).

(** [leaveVoiceChannel] *)
Definition leaveVoiceChannel (g : guildId) (w : World) : bool * World :=
  (true, cleanupGuildResources g w).

(** [playRadio] *)
Definition playRadio (g : guildId) (streamUrl : string) (now : Z)
    (w : World) : Completion bool * World :=
  match getPlayer g w with
  | None => (Throw (NoPlayerFound g), cleanupFFmpeg g w)
  | Some (pid, _) =>
    let w1 := stopCurrentPlayback g w in
    let '(ffmpeg, w2) := spawn streamUrl w1 in
    let w3 := set_ffmpegProcesses (<[g := ffmpeg]>) w2 in
    let resource := resource_setVolume (getVolume g w3) (createAudioResource ffmpeg) in
    let w4 := update_player pid (player_play resource) w3 in
    (Return true, set_currentStreams (<[g := RadioStream streamUrl None now]>) w4)
  end.

(** [playQuran] *)
Definition playQuran (g : guildId) (audioUrl surahName reciterName : string)
    (now : Z) (w : World) : Completion bool * World :=
  match getPlayer g w with
  | None => (Throw (NoPlayerFound g), cleanupFFmpeg g w)
  | Some (pid, _) =>
    let w1 := stopCurrentPlayback g w in
    let '(ffmpeg, w2) := spawn audioUrl w1 in
    let w3 := set_ffmpegProcesses (<[g := ffmpeg]>) w2 in
    let resource := resource_setVolume (getVolume g w3) (createAudioResource ffmpeg) in
    let w4 := update_player pid (player_play resource) w3 in
    (Return true,
     set_currentStreams (<[g := QuranStream audioUrl surahName reciterName None now]>) w4)
  end.

(** [restartRadio] *)
Definition restartRadio (g : guildId) (now : Z) (w : World) : World :=
  match currentStreams w !! g with
  | Some (RadioStream url _ _) => snd (playRadio g url now w)
  | _ => w
  end.

(** [shutdown]: the volumes are not among the maps it clears. *)
Definition shutdown (w : World) : World :=
  let w1 := foldl (λ w' g, cleanupGuildResources g w') w
                  (map fst (map_to_list (connections w))) in
  set_ffmpegProcesses (λ _, ∅)
    (set_currentStreams (λ _, ∅)
       (set_players (λ _, ∅)
          (set_connections (λ _, ∅) w1))).

(** *** Events and timers reaching the manager

    The listeners have the text of the unified manager's; they call this
    manager's [cleanupGuildResources] and [restartRadio]. *)

Definition disconnectedListener (recovered : bool) (g : guildId) (w : World) : World :=
  if recovered then w else cleanupGuildResources g w.

Definition destroyedListener (g : guildId) (w : World) : World :=
  cleanupGuildResources g w.

Definition player_idle (pid : nat) (w : World) : World :=
  match playerHeap w !! pid with
  | Some p =>
    match pstate p with
    | IdleState => w
    | _ => foldl (λ w' g, idleListener g w')
                 (update_player pid (λ _, IdleState) w) (plisteners p)
    end
  | None => w
  end.

Definition player_error (pid : nat) (w : World) : World :=
  match playerHeap w !! pid with
  | Some p => foldl (λ w' g, errorListener g w') w (plisteners p)
  | None => w
  end.

Definition connection_disconnected (cid : nat) (recovered : bool) (w : World) : World :=
  match connHeap w !! cid with
  | Some c =>
    if is_destroyed (cstatus c) then w
    else
      let w1 := update_connection cid (conn_set_status Disconnected) w in
      let w2 := foldl (λ w' g, disconnectedListener recovered g w') w1 (clisteners c) in
      if recovered then
        update_connection cid
          (λ c, if is_disconnected (cstatus c) then conn_set_status Signalling c else c) w2
      else w2
  | None => w
  end.

Definition connection_destroyed (cid : nat) (w : World) : World :=
  match connHeap w !! cid with
  | Some c =>
    if is_destroyed (cstatus c) then w
    else foldl (λ w' g, destroyedListener g w') (mark_destroyed cid w) (clisteners c)
  | None => w
  end.

Definition fireTimer (n : nat) (now : Z) (w : World) : World :=
  match timers w !! n with
  | Some t =>
    let w1 := set_timers (delete n) w in
    match callback t with
    | RestartRadio g => restartRadio g now w1
    | ForceKill pid => forceKill pid w1
    | SetSuppressed _ => w1
    end
  | None => w
  end.

End Legacy.

(** ** Runs of the unified manager

    The calls of the control surface and the events of the runtime, as one
    type of actions, and the state each leaves behind. *)

Inductive Action :=
| CallJoin (g : guildId) (ch : channelId) (guild : Guild) (ready : bool)
| CallLeave (g : guildId)
| CallPlayRadio (g : guildId) (url : string) (stationInfo : gmap string string) (now : Z)
| CallPlayQuran (g : guildId) (url surahName reciterName : string)
                (metadata : gmap string string) (now : Z)
| CallPause (g : guildId)
| CallResume (g : guildId)
| CallStop (g : guildId)
| CallSetVolume (g : guildId) (v : float)
| CallIncreaseVolume (g : guildId)
| CallDecreaseVolume (g : guildId)
| CallShutdown
| PlayerPlaying (pid : nat)
| PlayerIdle (pid : nat)
| PlayerError (pid : nat)
| ConnectionDisconnected (cid : nat) (recovered : bool)
| ConnectionDestroyed (cid : nat)
| ProcessExit (pid : nat)
| TimerFired (n : nat) (now : Z).

Definition run (a : Action) (w : World) : World :=
  match a with
  | CallJoin g ch guild ready => snd (Core.joinVoiceChannel g ch guild ready w)
  | CallLeave g => snd (Core.leaveVoiceChannel g w)
  | CallPlayRadio g url si now => snd (Core.playRadio g url si now w)
  | CallPlayQuran g url s r m now => snd (Core.playQuran g url s r m now w)
  | CallPause g => snd (pauseAudio g w)
  | CallResume g => snd (resumeAudio g w)
  | CallStop g => snd (stopAudio g w)
  | CallSetVolume g v => snd (setVolume g v w)
  | CallIncreaseVolume g => snd (increaseVolume g w)
  | CallDecreaseVolume g => snd (decreaseVolume g w)
  | CallShutdown => Core.shutdown w
  | PlayerPlaying pid => engine_playing pid w
  | PlayerIdle pid => Core.player_idle pid w
  | PlayerError pid => Core.player_error pid w
  | ConnectionDisconnected cid recovered => Core.connection_disconnected cid recovered w
  | ConnectionDestroyed cid => Core.connection_destroyed cid w
  | ProcessExit pid => process_exit pid w
  | TimerFired n now => Core.fireTimer n now w
  end.

Definition runs (l : list Action) (w : World) : World := foldl (λ w' a, run a w') w l.

(** The states the unified manager can be in: those a run from the
    initial state ends in. *)
Definition reachable (w : World) : Prop := ∃ l, w = runs l emptyWorld.

(** ** Runs of the older manager *)

Inductive LegacyAction :=
| OldJoin (g : guildId) (ch : channelId) (ready : bool)
| OldLeave (g : guildId)
| OldPlayRadio (g : guildId) (url : string) (now : Z)
| OldPlayQuran (g : guildId) (url surahName reciterName : string) (now : Z)
| OldPause (g : guildId)
| OldResume (g : guildId)
| OldStop (g : guildId)
| OldSetVolume (g : guildId) (v : float)
| OldIncreaseVolume (g : guildId)
| OldDecreaseVolume (g : guildId)
| OldShutdown
| OldPlayerPlaying (pid : nat)
| OldPlayerIdle (pid : nat)
| OldPlayerError (pid : nat)
| OldConnectionDisconnected (cid : nat) (recovered : bool)
| OldConnectionDestroyed (cid : nat)
| OldProcessExit (pid : nat)
| OldTimerFired (n : nat) (now : Z).

Definition legacy_run (a : LegacyAction) (w : World) : World :=
  match a with
  | OldJoin g ch ready => snd (Legacy.joinVoiceChannel g ch ready w)
  | OldLeave g => snd (Legacy.leaveVoiceChannel g w)
  | OldPlayRadio g url now => snd (Legacy.playRadio g url now w)
  | OldPlayQuran g url s r now => snd (Legacy.playQuran g url s r now w)
  | OldPause g => snd (pauseAudio g w)
  | OldResume g => snd (resumeAudio g w)
  | OldStop g => snd (stopAudio g w)
  | OldSetVolume g v => snd (setVolume g v w)
  | OldIncreaseVolume g => snd (increaseVolume g w)
  | OldDecreaseVolume g => snd (decreaseVolume g w)
  | OldShutdown => Legacy.shutdown w
  | OldPlayerPlaying pid => engine_playing pid w
  | OldPlayerIdle pid => Legacy.player_idle pid w
  | OldPlayerError pid => Legacy.player_error pid w
  | OldConnectionDisconnected cid recovered => Legacy.connection_disconnected cid recovered w
  | OldConnectionDestroyed cid => Legacy.connection_destroyed cid w
  | OldProcessExit pid => process_exit pid w
  | OldTimerFired n now => Legacy.fireTimer n now w
  end.

Definition legacy_runs (l : list LegacyAction) (w : World) : World :=
  foldl (λ w' a, legacy_run a w') w l.

(** The states the older manager can be in. *)
Definition legacy_reachable (w : World) : Prop := ∃ l, w = legacy_runs l emptyWorld.

(** ** Concrete data for examples *)

Definition voiceChannel : Channel :=
  {| channelType := 2; permissionsFor_me := Some {| hasConnect := true; hasSpeak := true |} |}.

Definition mutedChannel : Channel :=
  {| channelType := 2; permissionsFor_me := Some {| hasConnect := true; hasSpeak := false |} |}.

Definition guildA : Guild := {| channels_cache := {[ "c1" := voiceChannel ]} |}.
Definition guildA_muted : Guild := {| channels_cache := {[ "c1" := mutedChannel ]} |}.

(** A guild that joined channel c1 through the unified manager. *)
Definition joinedWorld : World := snd (Core.joinVoiceChannel "g" "c1" guildA true emptyWorld).

(** The same through the older manager. *)
Definition legacyJoinedWorld : World := snd (Legacy.joinVoiceChannel "g" "c1" true emptyWorld).

(** The guild then plays the Egyptian station. *)
Definition radioWorld : World :=
  snd (Core.playRadio "g" "https://stream.radiojar.com/8s5u5tpdtwzuv" ∅ 0 joinedWorld).

(** ... and the engine starts playing. *)
Definition playingWorld : World := engine_playing 0 radioWorld.


(** ** Vocabulary of the statements *)

(** The number two, as the specification of binary64 writes it. *)
Definition sf_two : spec_float := S754_finite false 4503599627370496 (-51).

(** The order of two numbers that are not NaN. *)
Inductive float_order (a b : float) : Prop :=
| FloatLt : (a <? b)%float = true → (b <? a)%float = false →
        (a <=? b)%float = true → (b <=? a)%float = false → float_order a b
| FloatGt : (a <? b)%float = false → (b <? a)%float = true →
        (a <=? b)%float = false → (b <=? a)%float = true → float_order a b
| FloatEq : (a <? b)%float = false → (b <? a)%float = false →
        (a <=? b)%float = true → (b <=? a)%float = true →
        (a = b ∨ ∃ s s', Prim2SF a = S754_zero s ∧ Prim2SF b = S754_zero s') →
        float_order a b.

(** A value [setVolume] can have stored: a clamped number, or NaN when it
    was handed NaN. *)
Definition volume_ok (v : float) : Prop :=
  is_nan v = true ∨ ((0 <=? v)%float = true ∧ (v <=? 2)%float = true).

Definition volumes_ok (w : World) : Prop :=
  ∀ g v, volumes w !! g = Some v → volume_ok v.

(** Two heaps of the same size whose objects are related slot by slot. *)
Definition heap_rel {A} (R : A → A → Prop) (l l' : list A) : Prop :=
  length l' = length l ∧ ∀ i x x', l !! i = Some x → l' !! i = Some x' → R x x'.

(** A process only ever gets signalled. *)
Definition proc_le (p p' : ChildProcess) : Prop :=
  spawnUrl p' = spawnUrl p ∧ exited p' = exited p ∧ (killed p = true → killed p' = true).

(** A connection only ever gets destroyed (losing its subscription) or
    loses listeners. *)
Definition conn_le (c c' : VoiceConnection) : Prop :=
  joinConfig_guildId c' = joinConfig_guildId c ∧
  joinConfig_channelId c' = joinConfig_channelId c ∧
  (cstatus c' = cstatus c ∨ cstatus c' = Destroyed).

Definition player_le (p p' : AudioPlayer) : Prop := pstate p' = pstate p.

Definition is_force_kill (t : Timer) : Prop :=
  ∃ pid, t = {| delay := 2000; callback := ForceKill pid |}.

(** What a teardown may do to a state: drop entries of the maps, signal
    processes, destroy connections, detach listeners, arm force-kill
    timers; and nothing else. *)
Record cleans (w w' : World) : Prop := {
  cl_connections : connections w' ⊆ connections w;
  cl_players : players w' ⊆ players w;
  cl_streams : currentStreams w' ⊆ currentStreams w;
  cl_ffmpeg : ffmpegProcesses w' ⊆ ffmpegProcesses w;
  cl_clisteners : connectionListeners w' ⊆ connectionListeners w;
  cl_plisteners : playerListeners w' ⊆ playerListeners w;
  cl_registry : voiceConnections w' ⊆ voiceConnections w;
  cl_volumes : volumes w' = volumes w;
  cl_procs : heap_rel proc_le (procHeap w) (procHeap w');
  cl_conns : heap_rel conn_le (connHeap w) (connHeap w');
  cl_playerHeap : heap_rel player_le (playerHeap w) (playerHeap w');
  cl_timers : ∃ extra, timers w' = timers w ++ extra ∧ Forall is_force_kill extra
}.

(** A teardown step [detach] that leaves the connection maps alone. *)
Definition keeps_connections (detach : guildId → World → World) : Prop :=
  ∀ g w, cleans w (detach g w) ∧
         connections (detach g w) = connections w ∧
         voiceConnections (detach g w) = voiceConnections w.

(** The body the four play methods share; they differ in the descriptor
    they record. *)
Definition play_with (g : guildId) (url : string) (descr : StreamInfo)
    (w : World) : Completion bool * World :=
  match getPlayer g w with
  | None => (Throw (NoPlayerFound g), cleanupFFmpeg g w)
  | Some (pid, _) =>
    let w1 := stopCurrentPlayback g w in
    let '(ffmpeg, w2) := spawn url w1 in
    let w3 := set_ffmpegProcesses (<[g := ffmpeg]>) w2 in
    let resource := resource_setVolume (getVolume g w3) (createAudioResource ffmpeg) in
    let w4 := update_player pid (player_play resource) w3 in
    (Return true, set_currentStreams (<[g := descr]>) w4)
  end.

(** The specification's [playStream]: either play method of the unified
    manager. *)
Inductive StreamRequest :=
| RadioRequest (url : string) (stationInfo : gmap string string)
| QuranRequest (url surahName reciterName : string) (metadata : gmap string string).

Definition play_stream (g : guildId) (req : StreamRequest) (now : Z) (w : World) :
    Completion bool * World :=
  match req with
  | RadioRequest url si => Core.playRadio g url si now w
  | QuranRequest url s r m => Core.playQuran g url s r m now w
  end.

Definition request_descriptor (req : StreamRequest) (now : Z) : StreamInfo :=
  match req with
  | RadioRequest url si => RadioStream url (Some si) now
  | QuranRequest url s r m => QuranStream url s r (Some m) now
  end.

Definition request_url (req : StreamRequest) : string :=
  match req with RadioRequest url _ => url | QuranRequest url _ _ _ => url end.

(** ** One live transcoder per guild *)

(** Every registered process exists; no process is registered twice;
    a live process is registered; a guild with a process has a player;
    a guild with a player has a connection. *)
Record proc_inv (w : World) : Prop := {
  pi_bound : ∀ g pid, ffmpegProcesses w !! g = Some pid → pid < length (procHeap w);
  pi_inj : ∀ g g' pid,
      ffmpegProcesses w !! g = Some pid → ffmpegProcesses w !! g' = Some pid → g = g';
  pi_live : ∀ pid p, procHeap w !! pid = Some p → live p = true →
                     ∃ g, ffmpegProcesses w !! g = Some pid;
  pi_players : ∀ g, is_Some (ffmpegProcesses w !! g) → is_Some (players w !! g);
  pi_connections : ∀ g, is_Some (players w !! g) → is_Some (connections w !! g)
}.

(** A teardown of the guilds [Gf] (their transcoders) and [Gp] (their
    players, connections and streams). *)
Record torn (Gf Gp : list guildId) (w w' : World) : Prop := {
  t_ffmpeg : ∀ k, ffmpegProcesses w' !! k =
                  if decide (k ∈ Gf) then None else ffmpegProcesses w !! k;
  t_players : ∀ k, players w' !! k = if decide (k ∈ Gp) then None else players w !! k;
  t_connections : ∀ k, connections w' !! k =
                       if decide (k ∈ Gp) then None else connections w !! k;
  t_streams : ∀ k, currentStreams w' !! k =
                   if decide (k ∈ Gp) then None else currentStreams w !! k;
  t_length : length (procHeap w') = length (procHeap w);
  t_live : ∀ pid p', procHeap w' !! pid = Some p' → live p' = true →
                     procHeap w !! pid = Some p' ∧
                     ∀ k, k ∈ Gf → ffmpegProcesses w !! k ≠ Some pid
}.

(** A step that leaves the session maps, the processes, the volumes and
    the streams as they were. *)
Definition same_session (w w' : World) : Prop :=
  ffmpegProcesses w' = ffmpegProcesses w ∧ players w' = players w ∧
  connections w' = connections w ∧ procHeap w' = procHeap w ∧
  volumes w' = volumes w ∧ currentStreams w' = currentStreams w.

(** What a teardown of the guild [g] from [w] to [w'] owes: no entry of
    the guild is left, the process that was registered for it is not live
    and the connection that stood for it is destroyed. *)
Definition released (g : guildId) (w w' : World) : Prop :=
  connections w' !! g = None ∧ players w' !! g = None ∧
  currentStreams w' !! g = None ∧ ffmpegProcesses w' !! g = None ∧
  (∀ pid p, ffmpegProcesses w !! g = Some pid → procHeap w !! pid = Some p →
            ∃ p', procHeap w' !! pid = Some p' ∧ live p' = false) ∧
  (∀ cid c, getExistingConnection g w = Some cid → connHeap w !! cid = Some c →
            ∃ c', connHeap w' !! cid = Some c' ∧ cstatus c' = Destroyed).


(** ** Status report of the unified manager, [getConnectionStatus] *)

Definition stream_startTime (s : StreamInfo) : Z :=
  match s with RadioStream _ _ t => t | QuranStream _ _ _ _ t => t end.

Record ConnectionStatus := {
  cs_hasConnection : bool;
  cs_hasPlayer : bool;
  cs_currentStream : option StreamInfo;
  cs_volume : float;
  cs_playerStatus : option AudioPlayerStatus;
  cs_connectionStatus : option VoiceConnectionStatus;
  cs_uptime : Z
}.

(** [now] is what [Date.now()] answers. *)
Definition getConnectionStatus (g : guildId) (now : Z) (w : World) : ConnectionStatus :=
  let connection := connections w !! g in
  let player := players w !! g in
  let currentStream := currentStreams w !! g in
  {| cs_hasConnection := bool_decide (is_Some connection);
     cs_hasPlayer := bool_decide (is_Some player);
     cs_currentStream := currentStream;
     cs_volume := getVolume g w;
     cs_playerStatus := getPlayerStatus g w;
     cs_connectionStatus :=
       match connection with
       | Some cid => cstatus <$> connHeap w !! cid
       | None => None
       end;
     cs_uptime :=
       match currentStream with
       | Some s => now - stream_startTime s
       | None => 0
       end |}.

(** ** 24/7 mode of the unified manager *)

(** [RADIO_STATIONS.egypt] of the constants. *)
Definition RADIO_STATIONS_egypt_url : string := "https://stream.radiojar.com/8s5u5tpdtwzuv".

Definition RADIO_STATIONS_egypt : gmap string string :=
  {[ "name" := "إذاعة القرآن الكريم - مصر"; "flag" := "🇪🇬";
     "url" := RADIO_STATIONS_egypt_url; "country" := "مصر" ]}.

(** [restoreStream]: what [playRadio] throws is caught and logged. *)
Definition restoreStream (g : guildId) (now : Z) (w : World) : World :=
  snd (Core.playRadio g RADIO_STATIONS_egypt_url RADIO_STATIONS_egypt now w).

(** The settings of a guild the database answers with. *)
Record GuildSettings := { voice24_7 : bool; voiceChannelId : channelId }.

(** [handleUserVoiceUpdate].  [humanMembers] is the number of members of
    the configured channel that are not bots; [ready] and [now] are as in
    [joinVoiceChannel] and [playRadio]. *)
Definition handleUserVoiceUpdate (g : guildId) (guildSettings : option GuildSettings)
    (guild : Guild) (humanMembers : nat) (ready : bool) (now : Z) (w : World) :
    Completion unit * World :=
  match guildSettings with
  | None => (Return (), w)
  | Some s =>
    match channels_cache guild !! voiceChannelId s with
    | None => (Return (), w)
    | Some _ =>
      let connection := getVoiceConnection g w in
      let joined :=
        if (0 <? humanMembers)%nat && negb (bool_decide (is_Some connection)) then
          match Core.joinVoiceChannel g (voiceChannelId s) guild ready w with
          | (Return _, w1) => (Return (), restoreStream g now w1)
          | (Throw e, w1) => (Throw e, w1)
          end
        else (Return (), w) in
      match joined with
      | (Throw e, w1) => (Throw e, w1)
      | (Return _, w1) =>
        if negb (voice24_7 s) then
          if (humanMembers =? 0)%nat && bool_decide (is_Some connection)
          then (Return (), snd (Core.leaveVoiceChannel g w1))
          else (Return (), w1)
        else (Return (), w1)
      end
    end
  end.

(** [handleBotKicked]: whether it arms the timer that rejoins after 3000
    ms.  The state is not changed by the call itself. *)
Definition handleBotKicked (g : guildId) (guildSettings : option GuildSettings)
    (guild : Guild) (humanMembers : nat) (w : World) : bool :=
  match guildSettings with
  | None => false
  | Some s =>
    if negb (voice24_7 s) then false
    else
      match channels_cache guild !! voiceChannelId s with
      | None => false
      | Some _ =>
        if voice24_7 s || (0 <? humanMembers)%nat then
          if hasConnection g w then false else true
        else false
      end
  end.

(** The callback of that timer; what it throws is caught and logged. *)
Definition rejoinAfterKick (g : guildId) (s : GuildSettings) (guild : Guild)
    (ready : bool) (now : Z) (w : World) : World :=
  let attempt :=
    match Core.joinVoiceChannel g (voiceChannelId s) guild ready w with
    | (Return _, w1) => restoreStream g now w1
    | (Throw _, w1) => w1
    end in
  match getVoiceConnection g w with
  | Some cid =>
    match connHeap w !! cid with
    | Some c => if negb (is_destroyed (cstatus c)) then w else attempt
    | None => attempt
    end
  | None => attempt
  end.

(** A voice state of the gateway: whose it is, and where. *)
Record VoiceState := { member_user_bot : bool; vs_channelId : option channelId }.

(** [handleVoiceStateUpdate]: whether a rejoin was scheduled, and the
    state; what the handlers throw is caught and logged. *)
Definition handleVoiceStateUpdate (g : guildId) (oldState newState : VoiceState)
    (guildSettings : option GuildSettings) (guild : Guild) (humanMembers : nat)
    (ready : bool) (now : Z) (w : World) : bool * World :=
  if member_user_bot oldState && bool_decide (is_Some (vs_channelId oldState))
     && negb (bool_decide (is_Some (vs_channelId newState)))
  then (handleBotKicked g guildSettings guild humanMembers w, w)
  else if negb (bool_decide (is_Some (vs_channelId newState)))
          && negb (bool_decide (is_Some (vs_channelId oldState)))
  then (false, w)
  else if member_user_bot newState then (false, w)
  else (false, snd (handleUserVoiceUpdate g guildSettings guild humanMembers ready now w)).

(** ** The interaction handler's audio actions, [src/unnamed/part_002]

    It drives the older manager.  The texts of the messages are Arabic
    sentences; a message is recorded by what it says. *)

Inductive ActionMessage :=
| MsgNoSuchAudio        (* nothing is playing for this surah or reciter *)
| MsgUnknownAction
| MsgNotPlaying         (* not playing, so it cannot be paused *)
| MsgPaused
| MsgPauseFailed
| MsgNotStoppable       (* neither playing nor paused *)
| MsgStopped
| MsgStopFailed
| MsgNotPaused          (* not paused, so it cannot be resumed *)
| MsgResumed
| MsgResumeFailed
| MsgVolumeUp (newVolume : float)
| MsgVolumeDown (newVolume : float)
| MsgVolumeFailed
| MsgShowInfo.

Inductive Color := SUCCESS | WARNING | DANGER | INFO | PAUSE.

Record ActionResult := {
  shouldUpdate : bool;
  message : ActionMessage;
  color : option Color
}.

Definition getCurrentVolume (g : guildId) (w : World) : float := getVolume g w.

Definition handlePauseAction (playerStatus : option AudioPlayerStatus) (g : guildId)
    (w : World) : ActionResult * World :=
  match playerStatus with
  | Some Playing =>
    let '(success, w') := pauseAudio g w in
    ({| shouldUpdate := success;
        message := if success then MsgPaused else MsgPauseFailed;
        color := Some (if success then PAUSE else WARNING) |}, w')
  | _ => ({| shouldUpdate := false; message := MsgNotPlaying; color := None |}, w)
  end.

Definition handleStopAction (playerStatus : option AudioPlayerStatus) (g : guildId)
    (w : World) : ActionResult * World :=
  match playerStatus with
  | Some Playing | Some Paused =>
    let '(success, w') := stopAudio g w in
    ({| shouldUpdate := success;
        message := if success then MsgStopped else MsgStopFailed;
        color := Some (if success then DANGER else WARNING) |}, w')
  | _ => ({| shouldUpdate := false; message := MsgNotStoppable; color := None |}, w)
  end.

Definition handleResumeAction (playerStatus : option AudioPlayerStatus) (g : guildId)
    (w : World) : ActionResult * World :=
  match playerStatus with
  | Some Paused =>
    let '(success, w') := resumeAudio g w in
    ({| shouldUpdate := success;
        message := if success then MsgResumed else MsgResumeFailed;
        color := Some (if success then SUCCESS else WARNING) |}, w')
  | _ => ({| shouldUpdate := false; message := MsgNotPaused; color := None |}, w)
  end.

Definition handleVolumeUpAction (g : guildId) (w : World) : ActionResult * World :=
  let currentVolume := getCurrentVolume g w in
  let newVolume := Math_min 2.0%float (currentVolume + 0.1)%float in
  let '(success, w') := setVolume g newVolume w in
  ({| shouldUpdate := success;
      message := if success then MsgVolumeUp newVolume else MsgVolumeFailed;
      color := Some (if success then INFO else WARNING) |}, w').

Definition handleVolumeDownAction (g : guildId) (w : World) : ActionResult * World :=
  let currentVolume := getCurrentVolume g w in
  let newVolume := Math_max 0%float (currentVolume - 0.1)%float in
  let '(success, w') := setVolume g newVolume w in
  ({| shouldUpdate := success;
      message := if success then MsgVolumeDown newVolume else MsgVolumeFailed;
      color := Some WARNING |}, w').

(** The action named by the button.  [ActOther] stands for a name that is
    no entry of the table of actions. *)
Inductive AudioAction := ActPause | ActStop | ActResume | ActUp | ActDown | ActAudio | ActOther.

(** [executeAudioAction(action, guildId, surah, reciter)] *)
Definition executeAudioAction (action : AudioAction) (g : guildId)
    (surah_name reciter_name : string) (w : World) : ActionResult * World :=
  let playerStatus := getPlayerStatus g w in
  let currentStream := getCurrentStream g w in
  let valid :=
    match playerStatus, currentStream with
    | Some _, Some (QuranStream _ surahName reciterName _ _) =>
      bool_decide (surahName = surah_name) && bool_decide (reciterName = reciter_name)
    | _, _ => false
    end in
  if negb valid
  then ({| shouldUpdate := false; message := MsgNoSuchAudio; color := None |}, w)
  else
    match action with
    | ActPause => handlePauseAction playerStatus g w
    | ActStop => handleStopAction playerStatus g w
    | ActResume => handleResumeAction playerStatus g w
    | ActUp => handleVolumeUpAction g w
    | ActDown => handleVolumeDownAction g w
    | ActAudio => ({| shouldUpdate := true; message := MsgShowInfo; color := Some INFO |}, w)
    | ActOther => ({| shouldUpdate := false; message := MsgUnknownAction; color := None |}, w)
    end.

(** ** [formatUptime], of the older manager and of the button handler

    The argument is a whole number of milliseconds, a difference of two
    [Date.now()], so below 2^53.  On that range the code's arithmetic on
    doubles is exact: [Math.floor] of a quotient is [Z.div], [%] is
    [Z.rem], [String(n)] is the decimal numeral.  Beyond it the code
    rounds and prints exponents, and this definition does not follow. *)

(** [s.padStart(targetLength, padString)] for a [padString] of one
    character, which is all the code uses. *)
Definition padStart (targetLength : nat) (padString : string) (s : string) : string :=
  Nat.iter (targetLength - String.length s) (λ r, padString +:+ r) s.

Definition formatUptime (milliseconds : Z) : string :=
  let seconds := (milliseconds / 1000)%Z in
  let minutes := (seconds / 60)%Z in
  let hours := (minutes / 60)%Z in
  if (0 <? hours)%Z then
    pretty hours +:+ ":" +:+ padStart 2 "0" (pretty (Z.rem minutes 60))
      +:+ ":" +:+ padStart 2 "0" (pretty (Z.rem seconds 60))
  else if (0 <? minutes)%Z then
    pretty minutes +:+ ":" +:+ padStart 2 "0" (pretty (Z.rem seconds 60))
  else "0:" +:+ padStart 2 "0" (pretty seconds).

(** ** Vocabulary of the statements about force-kill timers *)

(** Every pending force-kill is for a process that is no longer live. *)
Definition force_kill_ok (w : World) : Prop :=
  ∀ t pid, t ∈ timers w → callback t = ForceKill pid →
           ∃ p, procHeap w !! pid = Some p ∧ live p = false.

(** From [w] to [w'] no process came back to life, and every timer that
    is new is either no force-kill or one for a process that is not
    live. *)
Definition ages (w w' : World) : Prop :=
  (∀ pid p, procHeap w !! pid = Some p →
     ∃ p', procHeap w' !! pid = Some p' ∧ (live p = false → live p' = false)) ∧
  (∀ t, t ∈ timers w' →
     t ∈ timers w ∨
     ∀ pid, callback t = ForceKill pid → ∃ p, procHeap w' !! pid = Some p ∧ live p = false).

(** From [w] to [w'] the pending timers are kept and nothing is armed
    but force-kills. *)
Definition only_force_kills (w w' : World) : Prop :=
  ∃ extra, timers w' = timers w ++ extra ∧ Forall is_force_kill extra.

(** The connection [cid] exists and either still stands for the guild
    [g] or is destroyed. *)
Definition stands_or_destroyed (g : guildId) (cid : nat) (w : World) : Prop :=
  ∃ c, connHeap w !! cid = Some c ∧
       (connections w !! g = Some cid ∨ cstatus c = Destroyed).

(** A transcoder is registered only with a descriptor, and a descriptor
    only with a player. *)
Definition stream_inv (w : World) : Prop :=
  (∀ g, is_Some (ffmpegProcesses w !! g) → is_Some (currentStreams w !! g)) ∧
  (∀ g, is_Some (currentStreams w !! g) → is_Some (players w !! g)).

(** A number below 100 written with two decimal digits. *)
Definition two_digits (n : Z) : string := pretty (n / 10)%Z +:+ pretty (n mod 10)%Z.

(** ** The interaction handler's playback commands, [src/unnamed/part_002] *)

(** What the handler answers the user. *)
Inductive Reply :=
| ReplyNeedVoiceChannel
| ReplyPlaybackStarted
| ReplyPlaybackError
| ReplyRadioStarted
| ReplyRadioError
| ReplyRadioStopped
| ReplyStopError.

(** [startAudioPlayback(interaction, link, surah, reciter)].
    [member_voice_channel] is [member.voice.channel], when there is one. *)
Definition startAudioPlayback (g : guildId) (member_voice_channel : option channelId)
    (audio_url surah_name reciter_name : string) (ready : bool) (now : Z) (w : World) :
    Reply * World :=
  match member_voice_channel with
  | None => (ReplyNeedVoiceChannel, w)
  | Some ch =>
    let joined :=
      if negb (hasConnection g w) then
        match Legacy.joinVoiceChannel g ch ready w with
        | (Return _, w1) => (Return (), w1)
        | (Throw e, w1) => (Throw e, w1)
        end
      else (Return (), w) in
    match joined with
    | (Throw _, w1) => (ReplyPlaybackError, w1)
    | (Return _, w1) =>
      match Legacy.playQuran g audio_url surah_name reciter_name now w1 with
      | (Return _, w2) => (ReplyPlaybackStarted, w2)
      | (Throw _, w2) => (ReplyPlaybackError, w2)
      end
    end
  end.

(** [playQuranRadio(interaction, station)].  [stationInfo_url] is the URL
    of [RADIO_STATIONS[station]]; for a name that is no station the table
    answers [undefined], and reading its [url] throws, after the join. *)
Definition playQuranRadio (g : guildId) (member_voice_channel : option channelId)
    (stationInfo_url : option string) (ready : bool) (now : Z) (w : World) :
    Reply * World :=
  match member_voice_channel with
  | None => (ReplyNeedVoiceChannel, w)
  | Some ch =>
    let joined :=
      if negb (hasConnection g w) then
        match Legacy.joinVoiceChannel g ch ready w with
        | (Return _, w1) => (Return (), w1)
        | (Throw e, w1) => (Throw e, w1)
        end
      else (Return (), w) in
    match joined with
    | (Throw _, w1) => (ReplyRadioError, w1)
    | (Return _, w1) =>
      match stationInfo_url with
      | None => (ReplyRadioError, w1)
      | Some url =>
        match Legacy.playRadio g url now w1 with
        | (Return _, w2) => (ReplyRadioStarted, w2)
        | (Throw _, w2) => (ReplyRadioError, w2)
        end
      end
    end
  end.

(** A value handed to [Map.get] as the key: a string, or an object.  The
    managers write their maps at strings only, so an object finds
    nothing. *)
Inductive MapKey := KeyString (s : string) | KeyObject.

Definition players_get (k : MapKey) (w : World) : option (nat * AudioPlayer) :=
  match k with
  | KeyString g => getPlayer g w
  | KeyObject => None
  end.

(** [stopAudio] of the older manager, at whatever it is handed as the
    guild id. *)
Definition stopAudio_at (k : MapKey) (w : World) : bool * World :=
  match players_get k w with
  | None => (false, w)
  | Some (_, p) =>
    match k with
    | KeyString g =>
      let wasPlaying :=
        match status (pstate p) with
        | Playing | Paused => true
        | _ => false
        end in
      if wasPlaying then (true, stopCurrentPlayback g w) else (false, w)
    | KeyObject => (false, w)
    end
  end.

(** [stopRadio(interaction)]: it hands [stopAudio] the guild, not the
    guild's id, and does not look at what it returns. *)
Definition stopRadio (w : World) : Reply * World :=
  let '(_, w') := stopAudio_at KeyObject w in
  (ReplyRadioStopped, w').

(** ** [getDetailedStreamInfo] of the older manager *)

(** The entries of its [statusMap], and the fallback. *)
Inductive StatusText := TextPlaying | TextPaused | TextStopped | TextLoading | TextUnknown.

Definition statusMap (playerStatus : option AudioPlayerStatus) : StatusText :=
  match playerStatus with
  | Some Playing => TextPlaying
  | Some Paused => TextPaused
  | Some Idle => TextStopped
  | Some Buffering => TextLoading
  | _ => TextUnknown
  end.

Inductive DetailedStreamInfo :=
| NothingPlaying (d_hasConnection : bool)
| StreamPlaying (d_type : StreamType) (d_status : StatusText) (d_volume : float)
                (d_hasConnection : bool)
                (d_connectionStatus : option VoiceConnectionStatus)
                (d_streamInfo : StreamInfo) (d_uptime : Z) (d_uptimeFormatted : string).

Definition getDetailedStreamInfo (g : guildId) (now : Z) (w : World) : DetailedStreamInfo :=
  let connection := connections w !! g in
  match currentStreams w !! g with
  | None => NothingPlaying (bool_decide (is_Some connection))
  | Some currentStream =>
    let playerStatus := getPlayerStatus g w in
    let uptime :=
      if (stream_startTime currentStream =? 0)%Z then 0%Z
      else (now - stream_startTime currentStream)%Z in
    StreamPlaying (stream_type currentStream) (statusMap playerStatus) (getVolume g w)
      (bool_decide (is_Some connection))
      (match connection with
       | Some cid => cstatus <$> connHeap w !! cid
       | None => None
       end)
      currentStream (uptime / 1000)%Z (formatUptime uptime)
  end.

(** ** Vocabulary of the invariants of the session maps *)








(** * Properties *)

(** ** Numbers: clamping and the volume steps *)

Section Rounding.
Local Open Scope Z_scope.

Lemma digits2_pos_bounds p :
  2 ^ (Zpos (digits2_pos p) - 1) <= Zpos p < 2 ^ Zpos (digits2_pos p).
Proof.
  induction p as [p IH|p IH|]; simpl digits2_pos.
  - rewrite Pos2Z.inj_succ.
    replace (Z.succ (Zpos (digits2_pos p)) - 1) with (Z.succ (Zpos (digits2_pos p) - 1)) by lia.
    rewrite !Z.pow_succ_r by lia. lia.
  - rewrite Pos2Z.inj_succ.
    replace (Z.succ (Zpos (digits2_pos p)) - 1) with (Z.succ (Zpos (digits2_pos p) - 1)) by lia.
    rewrite !Z.pow_succ_r by lia. lia.
  - simpl. lia.
Qed.

(** A mantissa below a power of two has few digits. *)
Lemma Zdigits2_lt m k : 0 <= k → 0 < m < 2 ^ k → Zdigits2 m <= k.
Proof.
  intros Hk [H0 Hm]. destruct m as [|p|p]; try lia. simpl.
  pose proof (digits2_pos_bounds p) as [Hlo _].
  destruct (Z_le_gt_dec (Zpos (digits2_pos p)) k) as [|Hgt]; [done|].
  assert (2 ^ k <= 2 ^ (Zpos (digits2_pos p) - 1)) by (apply Z.pow_le_mono_r; lia).
  lia.
Qed.

Lemma Zdigits2_le m k : 0 <= k → 0 < m <= 2 ^ k → Zdigits2 m <= k + 1.
Proof.
  intros Hk [H0 Hm]. apply Zdigits2_lt; [lia|].
  rewrite Z.pow_add_r by lia. change (2 ^ 1) with 2. lia.
Qed.

Lemma shr_1_m r : 0 <= shr_m r → shr_m (shr_1 r) = shr_m r / 2 ∧ 0 <= shr_m (shr_1 r).
Proof.
  destruct r as [m rb sb]. simpl. intros Hm.
  destruct m as [|[p|p|]|p]; try lia; rewrite <- Z.div2_div; simpl; lia.
Qed.

Lemma pow2_xO p : 2 ^ Zpos p~0 = 2 ^ Zpos p * 2 ^ Zpos p.
Proof. rewrite <- Z.pow_add_r by lia. f_equal. lia. Qed.

Lemma pow2_xI p : 2 ^ Zpos p~1 = 2 * (2 ^ Zpos p * 2 ^ Zpos p).
Proof.
  rewrite <- Z.pow_add_r, <- Z.pow_succ_r by lia. f_equal. lia.
Qed.

Lemma iter_shr_1_m p : ∀ r,
  0 <= shr_m r →
  shr_m (SpecFloat.iter_pos shr_1 p r) = shr_m r / 2 ^ Zpos p ∧
  0 <= shr_m (SpecFloat.iter_pos shr_1 p r).
Proof.
  induction p as [p IH|p IH|]; intros r Hr; simpl SpecFloat.iter_pos.
  - destruct (shr_1_m r Hr) as [E1 P1].
    destruct (IH _ P1) as [E2 P2]. destruct (IH _ P2) as [E3 P3].
    split; [|done]. rewrite E3, E2, E1, pow2_xI.
    pose proof (Z.pow_pos_nonneg 2 (Zpos p)).
    rewrite !Z.div_div by lia. done.
  - destruct (IH _ Hr) as [E2 P2]. destruct (IH _ P2) as [E3 P3].
    split; [|done]. rewrite E3, E2, pow2_xO.
    pose proof (Z.pow_pos_nonneg 2 (Zpos p)).
    rewrite !Z.div_div by lia. done.
  - destruct (shr_1_m r Hr) as [E1 P1]. split; [|done]. by rewrite E1.
Qed.

Lemma shl_align_spec mx ex ez :
  let '(m, e) := shl_align mx ex ez in
  Zpos m = Zpos mx * 2 ^ (ex - e) ∧ e = Z.min ex ez.
Proof.
  unfold shl_align.
  destruct (ez - ex) as [|d|d] eqn:Hd.
  - rewrite Z.sub_diag. simpl. lia.
  - rewrite Z.sub_diag. simpl. lia.
  - assert (ex - ez = Zpos d) as -> by lia.
    split; [|lia].
    rewrite (Pos.iter_swap_gen _ _ Zpos xO (Z.mul 2)) by done.
    clear. induction d using Pos.peano_ind.
    + simpl. lia.
    + rewrite Pos.iter_succ, Pos2Z.inj_succ, Z.pow_succ_r, IHd by lia. lia.
Qed.

Lemma shr_record_of_loc_m m l : shr_m (shr_record_of_loc m l) = m.
Proof. by destruct l as [|[]]. Qed.

(** Shifting to the canonical exponent keeps a mantissa that stands for
    at most two (less than two when [c] is 1) within that bound. *)
Lemma shr_fexp_below c m e l :
  0 <= c <= 1 → 0 <= m <= 2 ^ (1 - e) - c → e <= -51 →
  let '(mrs, e2) := shr_fexp prec emax m e l in
  0 <= shr_m mrs <= 2 ^ (1 - e2) - c ∧ e2 <= -51.
Proof.
  intros Hc Hm He. unfold shr_fexp, shr.
  destruct (fexp prec emax (Zdigits2 m + e) - e) as [|p|p] eqn:Hn;
    rewrite ?shr_record_of_loc_m; try done.
  destruct (iter_shr_1_m p (shr_record_of_loc m l)) as [Em Pm];
    [rewrite shr_record_of_loc_m; lia|].
  rewrite shr_record_of_loc_m in Em. rewrite Em.
  set (e2 := e + Zpos p).
  assert (He2 : e2 <= -51).
  { unfold e2. unfold fexp, SpecFloat.emin, prec, emax in Hn.
    destruct (Z.eq_dec m 0) as [->|Hm0]; [simpl in Hn; lia|].
    assert (Zdigits2 m <= 1 - e + 1) by (apply Zdigits2_le; lia).
    lia. }
  split; [|done].
  assert (Hpow : 2 ^ (1 - e) = 2 ^ (1 - e2) * 2 ^ Zpos p).
  { rewrite <- Z.pow_add_r by lia. f_equal. unfold e2. lia. }
  pose proof (Z.pow_pos_nonneg 2 (Zpos p)) as Hp.
  split; [apply Z.div_pos; lia|].
  destruct (Z.eq_dec c 0) as [->|Hc1].
  - rewrite Z.sub_0_r. apply Z.div_le_upper_bound; lia.
  - assert (m / 2 ^ Zpos p < 2 ^ (1 - e2)); [|lia].
    apply Z.div_lt_upper_bound; lia.
Qed.

Lemma pow2_52 : 2 ^ (1 - -51) = 4503599627370496.
Proof. vm_compute. reflexivity. Qed.

(** Rounding a positive number below two gives at most two. *)
Lemma binary_round_aux_below m e :
  0 <= m < 2 ^ (1 - e) → e <= -51 →
  SFltb sf_two (binary_round_aux prec emax false m e loc_Exact) = false.
Proof.
  intros Hm He. unfold binary_round_aux.
  pose proof (shr_fexp_below 1 m e loc_Exact) as H1.
  destruct (shr_fexp prec emax m e loc_Exact) as [mrs1 e1].
  destruct H1 as [Hm1 He1]; [lia..|].
  set (m1 := round_nearest_even (shr_m mrs1) (loc_of_shr_record mrs1)).
  assert (Hr : 0 <= m1 <= 2 ^ (1 - e1)).
  { unfold m1, round_nearest_even.
    destruct (loc_of_shr_record mrs1) as [|[]]; try lia.
    destruct (Z.even (shr_m mrs1)); lia. }
  pose proof (shr_fexp_below 0 m1 e1 loc_Exact) as H2.
  destruct (shr_fexp prec emax m1 e1 loc_Exact) as [mrs2 e2].
  destruct H2 as [Hm2 He2]; [lia..|].
  destruct (shr_m mrs2) as [|pm|pm]; [done| |lia].
  assert ((e2 <=? emax - prec) = true) as -> by (unfold emax, prec; lia).
  unfold SFltb, sf_two, SFcompare.
  destruct (Z.compare_spec (-51) e2) as [<-|Hlt|Hgt]; [|lia|done].
  rewrite pow2_52 in Hm2.
  change PosDef.Pos.compare_cont with Pos.compare_cont.
  rewrite Pos.compare_cont_spec. unfold Pos.switch_Eq.
  destruct (Pos.compare_spec 4503599627370496 pm); [done| |done]. lia.
Qed.

Lemma binary_round_below pm ez :
  Zpos pm < 2 ^ (1 - ez) → ez <= -51 →
  SFltb sf_two (binary_round prec emax false pm ez) = false.
Proof.
  intros Hm He. unfold binary_round.
  pose proof (shl_align_spec pm ez (fexp prec emax (Zpos (digits2_pos pm) + ez))) as Ha.
  destruct (shl_align pm ez _) as [mz ez'].
  destruct Ha as [Hmz Hez].
  apply binary_round_aux_below; [|lia].
  split; [lia|]. rewrite Hmz.
  replace (1 - ez') with (1 - ez + (ez - ez')) by lia.
  rewrite Z.pow_add_r by lia.
  apply Z.mul_lt_mono_pos_r; [apply Z.pow_pos_nonneg; lia | done].
Qed.

(** The sign of a rounded number is the sign that was asked. *)
Lemma binary_round_aux_sign sx mx ex lx :
  match binary_round_aux prec emax sx mx ex lx with
  | S754_zero s | S754_infinity s | S754_finite s _ _ => s = sx
  | S754_nan => True
  end.
Proof.
  unfold binary_round_aux.
  destruct (shr_fexp prec emax mx ex lx) as [mrs1 e1].
  destruct (shr_fexp prec emax _ e1 loc_Exact) as [mrs2 e2].
  destruct (shr_m mrs2); [done| |done].
  by destruct (_ <=? _).
Qed.

Lemma binary_round_sign sx mx ex :
  match binary_round prec emax sx mx ex with
  | S754_zero s | S754_infinity s | S754_finite s _ _ => s = sx
  | S754_nan => True
  end.
Proof.
  unfold binary_round. destruct (shl_align mx ex _) as [mz ez].
  apply binary_round_aux_sign.
Qed.
End Rounding.

Section FloatOrder.
Local Open Scope float_scope.

Lemma SFcompare_refl x : x ≠ S754_nan → SFcompare x x = Some Eq.
Proof.
  destruct x as [s|s| |s m e]; try done; intros _; simpl.
  - by destruct s.
  - destruct s; rewrite Z.compare_refl, Pos.compare_cont_refl; done.
Qed.

Lemma SFcompare_antisym x y :
  SFcompare y x = CompOpp <$> SFcompare x y.
Proof.
  destruct x as [sx|sx| |sx mx ex], y as [sy|sy| |sy my ey]; simpl;
    try done; try (by destruct sx); try (by destruct sy);
    try (by destruct sx, sy).
  destruct sx, sy; simpl; try done;
    rewrite (Z.compare_antisym ex ey);
    destruct (ex ?= ey)%Z; simpl; try done;
    rewrite (Pos.compare_cont_antisym mx my Eq); simpl;
    try done; by rewrite CompOpp_involutive.
Qed.

Lemma SFcompare_eq x y :
  SFcompare x y = Some Eq →
  x = y ∨ ∃ s s', x = S754_zero s ∧ y = S754_zero s'.
Proof.
  destruct x as [sx|sx| |sx mx ex], y as [sy|sy| |sy my ey]; simpl;
    try done; try (by destruct sx); try (by destruct sy).
  - intros _. right. eauto.
  - destruct sx, sy; try done; by left.
  - intros H. left.
    destruct sx, sy; try done;
      destruct (ex ?= ey)%Z eqn:He; try done;
      apply Z.compare_eq in He; subst ey;
      destruct (Pos.compare_cont Eq mx my) eqn:Hm; try done;
      apply Pos.compare_eq in Hm; by subst my.
Qed.

Lemma is_nan_spec x :
  is_nan x = match Prim2SF x with S754_nan => true | _ => false end.
Proof.
  unfold is_nan. rewrite FloatAxioms.eqb_spec. unfold SFeqb.
  destruct (Prim2SF x) eqn:E; try (rewrite SFcompare_refl; done). done.
Qed.

Lemma float_trichotomy a b :
  is_nan a = false → is_nan b = false → float_order a b.
Proof.
  rewrite !is_nan_spec. intros Ha Hb.
  pose proof (SFcompare_antisym (Prim2SF a) (Prim2SF b)) as Hanti.
  destruct (SFcompare (Prim2SF a) (Prim2SF b)) as [[]|] eqn:Hc; simpl in Hanti.
  - apply FloatEq; rewrite ?ltb_spec, ?leb_spec; unfold SFltb, SFleb;
      rewrite ?Hc, ?Hanti; try done.
    destruct (SFcompare_eq _ _ Hc) as [H|H]; [left; by apply Prim2SF_inj | by right].
  - apply FloatLt; rewrite ?ltb_spec, ?leb_spec; unfold SFltb, SFleb;
      rewrite ?Hc, ?Hanti; done.
  - apply FloatGt; rewrite ?ltb_spec, ?leb_spec; unfold SFltb, SFleb;
      rewrite ?Hc, ?Hanti; done.
  - exfalso. destruct (Prim2SF a), (Prim2SF b); simpl in Hc; try done;
      repeat match goal with s : bool |- _ => destruct s end; done.
Qed.
End FloatOrder.

Section Clamp.
Local Open Scope float_scope.
Import AUDIO_CONFIG.

Lemma float_of_spec x sx : Prim2SF x = sx → x = SF2Prim sx.
Proof. intros <-. by rewrite SF2Prim_Prim2SF. Qed.

(** The three cases of clamping a number. *)
Lemma clampVolume_cases v :
  is_nan v = false →
  ((v <? 0) = true ∧ clampVolume v = 0) ∨
  ((2 <? v) = true ∧ clampVolume v = 2) ∨
  ((0 <=? v) = true ∧ (v <=? 2) = true ∧
   (clampVolume v = v ∨ (v = (-0) ∧ clampVolume v = 0))).
Proof.
  intros Hv. unfold clampVolume, MIN_VOLUME, MAX_VOLUME.
  destruct (float_trichotomy v 2 Hv eq_refl) as [H1 H2 H3 H4|H1 H2 H3 H4|H1 H2 H3 H4 H5].
  - assert (Hmin : Math_min 2 v = v).
    { unfold Math_min. rewrite Hv, H2, H1. done. }
    rewrite Hmin. unfold Math_max. rewrite Hv. simpl.
    destruct (float_trichotomy v 0 Hv eq_refl) as [G1 G2 G3 G4|G1 G2 G3 G4|G1 G2 G3 G4 G5].
    + rewrite G1. left. split; done.
    + rewrite G1, G2. right; right. repeat split; try done. by left.
    + rewrite G1, G2. simpl. right; right. repeat split; try done.
      destruct G5 as [->|(s & s' & Hs & _)]; [by left|].
      apply float_of_spec in Hs. destruct s; subst v; [right|left]; try split; done.
  - right; left. split; [done|].
    unfold Math_min. rewrite Hv, H2. done.
  - destruct H5 as [->|(s & s' & _ & Hs)]; [|by vm_compute in Hs].
    right; right. repeat split; try done. by left.
Qed.

Lemma clampVolume_range v :
  is_nan v = false →
  (0 <=? clampVolume v) = true ∧ (clampVolume v <=? 2) = true.
Proof.
  intros Hv.
  destruct (clampVolume_cases v Hv) as [[_ ->]|[[_ ->]|(H1 & H2 & [->|[_ ->]])]]; split; done.
Qed.

Lemma clampVolume_nan v : is_nan v = true → clampVolume v = nan.
Proof.
  intros Hv. unfold clampVolume, Math_min. rewrite Hv, orb_true_r. done.
Qed.
End Clamp.

Section VolumeSteps.
Local Open Scope float_scope.
Import AUDIO_CONFIG.

Lemma nonneg_spec c :
  (0 <=? c) = true →
  (∃ s, Prim2SF c = S754_zero s) ∨ Prim2SF c = S754_infinity false ∨
  ∃ m e, Prim2SF c = S754_finite false m e.
Proof.
  rewrite leb_spec. change (Prim2SF 0) with (S754_zero false).
  destruct (Prim2SF c) as [s|s| |s m e]; try done; destruct s; try done; eauto.
Qed.

(** A stored volume plus one step is never negative. *)
Lemma add_step_nonneg c :
  (0 <=? c) = true →
  is_nan (c + VOLUME_STEP) = true ∨ (0 <? c + VOLUME_STEP) = true ∨ c + VOLUME_STEP = 0.
Proof.
  intros Hc. rewrite is_nan_spec, ltb_spec.
  pose proof (add_spec c VOLUME_STEP) as Hadd.
  change (Prim2SF VOLUME_STEP) with (S754_finite false 7205759403792794 (-56)) in Hadd.
  change (Prim2SF 0) with (S754_zero false).
  destruct (nonneg_spec c Hc) as [[s Hs]|[Hs|(m & e & Hs)]]; rewrite Hs in Hadd.
  - rewrite Hadd. right; left. done.
  - rewrite Hadd. right; left. done.
  - unfold SF64add, SFadd, cond_Zopp, binary_normalize in Hadd.
    rewrite <- Pos2Z.inj_add in Hadd.
    pose proof (binary_round_sign false
                  (fst (shl_align m e (Z.min e (-56))) +
                   fst (shl_align 7205759403792794 (-56) (Z.min e (-56))))
                  (Z.min e (-56))) as Hsign.
    rewrite <- Hadd in Hsign.
    destruct (Prim2SF (c + VOLUME_STEP)) as [s'|s'| |s' m' e'] eqn:Hx; subst; auto.
    right; right. apply Prim2SF_inj. by rewrite Hx.
Qed.

Lemma compare_cont_le m :
  match Pos.compare_cont Eq m 4503599627370496 with Gt => false | _ => true end = true →
  (Zpos m <= 4503599627370496)%Z.
Proof.
  rewrite Pos.compare_cont_spec. unfold Pos.switch_Eq.
  destruct (Pos.compare_spec m 4503599627370496) as [Hm|Hm|Hm];
    [| |discriminate]; intros _.
  - subst m. apply Z.le_refl.
  - apply Z.lt_le_incl, Pos2Z.pos_lt_pos, Hm.
Qed.

Lemma le_two_cases m e :
  SFleb (S754_finite false m e) sf_two = true →
  (e < -51)%Z ∨ (e = -51 ∧ Zpos m <= 4503599627370496)%Z.
Proof.
  unfold SFleb, sf_two, SFcompare.
  destruct (Z.compare_spec e (-51)) as [He|Hlt|Hgt]; [| |discriminate].
  - intros H. right. split; [done|]. by apply compare_cont_le.
  - intros _. by left.
Qed.

Lemma canonical_digits m e :
  valid_binary (S754_finite false m e) = true → (Zpos (digits2_pos m) <= 53)%Z.
Proof.
  unfold valid_binary, bounded, canonical_mantissa.
  intros Hb. apply andb_prop in Hb as [Hcan _]. apply Z.eqb_eq in Hcan.
  unfold fexp, SpecFloat.emin, prec, emax in Hcan. lia.
Qed.

Lemma le_two_spec m e :
  valid_binary (S754_finite false m e) = true →
  SFleb (S754_finite false m e) sf_two = true →
  (Zpos m <= 2 ^ (1 - e))%Z ∧ (e <= -51)%Z.
Proof.
  intros Hd%canonical_digits [Hlt|[-> Hm]]%le_two_cases.
  - split; [|lia].
    pose proof (digits2_pos_bounds m) as [_ Hm].
    assert (2 ^ Zpos (digits2_pos m) <= 2 ^ (1 - e))%Z by (apply Z.pow_le_mono_r; lia).
    lia.
  - split; [|lia]. by rewrite pow2_52.
Qed.

(** A stored volume minus one step is never above the maximum. *)
Lemma sub_step_le_max c :
  (0 <=? c) = true → (c <=? MAX_VOLUME) = true →
  (MAX_VOLUME <? c - VOLUME_STEP) = false.
Proof.
  intros Hc Hle. rewrite ltb_spec, sub_spec.
  rewrite leb_spec in Hle.
  change (Prim2SF MAX_VOLUME) with sf_two in *.
  change (Prim2SF VOLUME_STEP) with (S754_finite false 7205759403792794 (-56)).
  pose proof (Prim2SF_valid c) as Hvalid.
  destruct (nonneg_spec c Hc) as [[s Hs]|[Hs|(m & e & Hs)]]; rewrite Hs in *.
  - done.
  - done.
  - destruct (le_two_spec m e Hvalid Hle) as [Hm He].
    unfold SF64sub, SFsub, cond_Zopp.
    set (ez := Z.min e (-56)).
    pose proof (shl_align_spec m e ez) as Hx.
    pose proof (shl_align_spec 7205759403792794 (-56) ez) as Hy.
    destruct (shl_align m e ez) as [mx' ex'], (shl_align _ (-56) ez) as [my' ey'].
    destruct Hx as [Hmx Hex], Hy as [Hmy Hey]. simpl fst.
    assert (Hbound : (Zpos mx' <= 2 ^ (1 - ez))%Z).
    { rewrite Hmx. replace ex' with ez by lia.
      replace (1 - ez)%Z with (1 - e + (e - ez))%Z by lia.
      rewrite Z.pow_add_r by lia.
      apply Z.mul_le_mono_nonneg_r; [apply Z.pow_nonneg; lia | done]. }
    unfold binary_normalize.
    destruct (Zpos mx' - Zpos my')%Z as [|pm|pm] eqn:Hdiff.
    + done.
    + apply binary_round_below; lia.
    + pose proof (binary_round_sign true pm ez) as Hsign.
      destruct (binary_round prec emax true pm ez) as [s'|s'| |s' m' e'];
        subst; done.
Qed.

(** [increaseVolume]: below the maximum the lower clamp does nothing. *)
Lemma clampVolume_step_up c :
  (0 <=? c) = true →
  clampVolume (c + VOLUME_STEP) = Math_min (c + VOLUME_STEP) MAX_VOLUME.
Proof.
  intros Hc. pose proof (add_step_nonneg c Hc) as Hadd.
  set (x := c + VOLUME_STEP) in *.
  destruct (is_nan x) eqn:Hnan.
  { rewrite clampVolume_nan by done. unfold Math_min. by rewrite Hnan. }
  unfold clampVolume, MAX_VOLUME, MIN_VOLUME.
  destruct (float_trichotomy x 2 Hnan eq_refl) as [H1 H2 _ _|H1 H2 _ _|_ _ _ _ H5].
  - assert (Math_min 2 x = x) as -> by (unfold Math_min; by rewrite Hnan, H2, H1).
    assert (Math_min x 2 = x) as -> by (unfold Math_min; by rewrite Hnan, H1).
    unfold Math_max. rewrite Hnan. simpl.
    destruct Hadd as [Hn|[Hpos|Hz]].
    + congruence.
    + destruct (float_trichotomy x 0 Hnan eq_refl) as [G1 G2 _ _|G1 G2 _ _|G1 G2 _ _ _];
        congruence || by rewrite G1, G2.
    + by rewrite Hz.
  - assert (Math_min 2 x = 2) as -> by (unfold Math_min; by rewrite Hnan, H2).
    assert (Math_min x 2 = 2) as -> by (unfold Math_min; by rewrite Hnan, H1, H2).
    done.
  - destruct H5 as [->|(s & s' & _ & Hs)]; [done | by vm_compute in Hs].
Qed.

(** [decreaseVolume]: above the minimum the upper clamp does nothing. *)
Lemma clampVolume_step_down c :
  (0 <=? c) = true → (c <=? MAX_VOLUME) = true →
  clampVolume (c - VOLUME_STEP) = Math_max (c - VOLUME_STEP) MIN_VOLUME.
Proof.
  intros Hc Hle. pose proof (sub_step_le_max c Hc Hle) as Hsub.
  set (x := c - VOLUME_STEP) in *.
  destruct (is_nan x) eqn:Hnan.
  { rewrite clampVolume_nan by done. unfold Math_max. by rewrite Hnan. }
  unfold clampVolume, MAX_VOLUME, MIN_VOLUME in *.
  destruct (float_trichotomy x 2 Hnan eq_refl) as [H1 H2 _ _|H1 H2 _ _|_ _ _ _ H5].
  - assert (Math_min 2 x = x) as -> by (unfold Math_min; by rewrite Hnan, H2, H1).
    unfold Math_max. rewrite Hnan. simpl.
    destruct (float_trichotomy x 0 Hnan eq_refl) as [G1 G2 _ _|G1 G2 _ _|G1 G2 _ _ G5].
    + by rewrite G1, G2.
    + by rewrite G1, G2.
    + rewrite G1, G2. simpl.
      destruct G5 as [->|(s & s' & Hs & _)]; [done|].
      rewrite classify_spec, Hs. destruct s; [done|].
      apply float_of_spec in Hs. by rewrite Hs.
  - congruence.
  - destruct H5 as [->|(s & s' & _ & Hs)]; [done | by vm_compute in Hs].
Qed.
End VolumeSteps.

(** ** What a teardown may change *)

Section HeapRel.
Context {A : Type} (R : A → A → Prop).

Lemma heap_rel_refl `{!Reflexive R} l : heap_rel R l l.
Proof. split; [done|]. intros i x x' H1 H2. by simplify_eq. Qed.

Lemma heap_rel_trans `{!Transitive R} l1 l2 l3 :
  heap_rel R l1 l2 → heap_rel R l2 l3 → heap_rel R l1 l3.
Proof.
  intros [L1 H1] [L2 H2]. split; [congruence|].
  intros i x x'' Hx Hx''.
  destruct (l2 !! i) as [x'|] eqn:Hx'.
  - transitivity x'; [eapply H1|eapply H2]; eauto.
  - apply lookup_ge_None in Hx'. apply lookup_lt_Some in Hx. lia.
Qed.

Lemma heap_rel_insert l i x y :
  l !! i = Some x → R x y → (∀ z, R z z) → heap_rel R l (<[i := y]> l).
Proof.
  intros Hi Hxy Hrefl. split; [by rewrite length_insert|].
  intros j z z' Hz Hz'.
  destruct (decide (i = j)) as [->|Hne].
  - rewrite list_lookup_insert_eq in Hz' by (by eapply lookup_lt_Some). by simplify_eq.
  - rewrite list_lookup_insert_ne in Hz' by done. by simplify_eq.
Qed.
End HeapRel.

Lemma proc_le_refl : Reflexive proc_le.
Proof. by intros p. Qed.
#[global] Existing Instance proc_le_refl.
Lemma proc_le_trans : Transitive proc_le.
Proof. intros p q r (?&?&?) (?&?&?). repeat split; try congruence. auto. Qed.
#[global] Existing Instance proc_le_trans.
Lemma conn_le_refl : Reflexive conn_le.
Proof. intros c. repeat split; auto. Qed.
#[global] Existing Instance conn_le_refl.
Lemma conn_le_trans : Transitive conn_le.
Proof.
  intros p q r (?&?&Hs1) (?&?&Hs2). repeat split; try congruence.
  destruct Hs1, Hs2; [left|right|right|right]; congruence.
Qed.
#[global] Existing Instance conn_le_trans.
Lemma player_le_refl : Reflexive player_le.
Proof. by intros p. Qed.
#[global] Existing Instance player_le_refl.
Lemma player_le_trans : Transitive player_le.
Proof. intros p q r Hp Hq. unfold player_le in *. congruence. Qed.
#[global] Existing Instance player_le_trans.

Lemma cleans_refl : Reflexive cleans.
Proof.
  intros w. split; try done; try apply heap_rel_refl; try apply _.
  exists []. by rewrite app_nil_r.
Qed.
#[global] Existing Instance cleans_refl.

Lemma cleans_trans : Transitive cleans.
Proof.
  intros w1 w2 w3 [? ? ? ? ? ? ? ? ? ? ? T1] [? ? ? ? ? ? ? ? ? ? ? T2].
  split; try (etrans; eassumption).
  - eapply heap_rel_trans; [apply _|..]; eassumption.
  - eapply heap_rel_trans; [apply _|..]; eassumption.
  - eapply heap_rel_trans; [apply _|..]; eassumption.
  - destruct T1 as (e1 & E1 & F1), T2 as (e2 & E2 & F2).
    exists (e1 ++ e2). rewrite E2, E1, app_assoc. split; [done|]. by apply Forall_app.
Qed.
#[global] Existing Instance cleans_trans.

Ltac cleans_fields :=
  split; simpl;
  try reflexivity; try apply delete_subseteq;
  try (apply heap_rel_refl; apply _);
  try (exists []; split; [by rewrite app_nil_r | constructor]).

Section Cleans.
Implicit Types (w : World) (g : guildId).

Lemma cleans_cleanupFFmpeg g w : cleans w (cleanupFFmpeg g w).
Proof.
  unfold cleanupFFmpeg, kill, setTimeout.
  destruct (ffmpegProcesses w !! g) as [pid|]; [|by cleans_fields].
  destruct (procHeap w !! pid) as [p|] eqn:Hp; [|by cleans_fields].
  destruct (killed p) eqn:Hk; simpl; [by cleans_fields|].
  cleans_fields.
  - eapply heap_rel_insert; [done| |done].
    unfold kill_process, proc_le. destruct (exited p) eqn:He; [done|]. simpl. auto.
  - eexists [_]. split; [done|]. repeat constructor. by eexists.
Qed.

Lemma cleans_update_connection cid f w :
  (∀ c, conn_le c (f c)) → cleans w (update_connection cid f w).
Proof.
  intros Hf. unfold update_connection.
  destruct (connHeap w !! cid) as [c|] eqn:Hc; [|done].
  cleans_fields. eapply heap_rel_insert; [done|apply Hf|done].
Qed.

Lemma cleans_drop_connectionListeners g w :
  cleans w (set_connectionListeners (delete g) w).
Proof. cleans_fields. Qed.

Lemma cleans_cleanupEventListeners g w : cleans w (Core.cleanupEventListeners g w).
Proof.
  unfold Core.cleanupEventListeners.
  set (w1 := match connectionListeners w !! g with Some _ => _ | None => _ end).
  assert (H1 : cleans w w1).
  { unfold w1. destruct (connectionListeners w !! g) as [cid|]; [|done].
    etrans; [|apply cleans_drop_connectionListeners].
    apply cleans_update_connection. intros c. repeat split; auto. }
  etrans; [exact H1|].
  destruct (playerListeners w1 !! g) as [pid|]; [|done].
  destruct (playerHeap w1 !! pid) as [p|] eqn:Hp; cleans_fields.
  eapply heap_rel_insert; done.
Qed.

Lemma cleans_mark_destroyed cid w : cleans w (mark_destroyed cid w).
Proof.
  unfold mark_destroyed.
  destruct (connHeap w !! cid) as [c|]; [|done].
  etrans; [|apply cleans_update_connection; intros c'; repeat split; auto].
  unfold untrackVoiceConnection.
  destruct (voiceConnections w !! _) as [cid'|]; [|done].
  case_decide; [|done]. cleans_fields.
Qed.

Lemma cleans_clearGuildData g w : cleans w (clearGuildData g w).
Proof. unfold clearGuildData. cleans_fields. Qed.

Lemma cleans_foldl {A} (f : World → A → World) (l : list A) w :
  (∀ w a, cleans w (f w a)) → cleans w (foldl f w l).
Proof.
  intros Hf. revert w. induction l as [|a l IH]; intros w; simpl; [done|].
  etrans; [apply Hf | apply IH].
Qed.

Lemma cleans_cleanup_rec detach depth g w :
  (∀ g w, cleans w (detach g w)) →
  cleans w (cleanupGuildResources_rec detach depth g w).
Proof.
  intros Hd. revert g w. induction depth as [|d IH]; intros g w; simpl; [done|].
  etrans; [|apply cleans_clearGuildData].
  etrans; [apply (cleans_cleanupFFmpeg g)|].
  etrans; [apply (Hd g)|].
  set (w1 := detach g (cleanupFFmpeg g w)).
  destruct (getExistingConnection g w1) as [cid|]; [|done].
  destruct (connHeap w1 !! cid) as [c|]; [|done].
  destruct (is_destroyed (cstatus c)); [done|].
  etrans; [apply cleans_mark_destroyed|].
  apply cleans_foldl. intros w' g'. apply IH.
Qed.

Lemma cleans_core_cleanup g w : cleans w (Core.cleanupGuildResources g w).
Proof. apply cleans_cleanup_rec, cleans_cleanupEventListeners. Qed.

Lemma cleans_legacy_cleanup g w : cleans w (Legacy.cleanupGuildResources g w).
Proof. by apply cleans_cleanup_rec. Qed.
End Cleans.

Section Released.
Implicit Types (w : World) (g : guildId).

Lemma proc_le_not_live p p' : proc_le p p' → live p = false → live p' = false.
Proof.
  unfold proc_le, live. intros (_ & He & Hk). rewrite <- He.
  destruct (killed p) eqn:Hkp; simpl.
  - intros _. by rewrite Hk.
  - intros ->. by rewrite andb_false_r.
Qed.

Lemma cleans_not_live w w' pid p :
  cleans w w' → procHeap w !! pid = Some p → live p = false →
  ∃ p', procHeap w' !! pid = Some p' ∧ live p' = false.
Proof.
  intros [_ _ _ _ _ _ _ _ [Hlen Hrel] _ _ _] Hp Hl.
  destruct (procHeap w' !! pid) as [p'|] eqn:Hp'.
  - exists p'. split; [done|]. eapply proc_le_not_live; eauto.
  - apply lookup_ge_None in Hp'. apply lookup_lt_Some in Hp. lia.
Qed.

Lemma cleans_destroyed w w' cid c :
  cleans w w' → connHeap w !! cid = Some c → cstatus c = Destroyed →
  ∃ c', connHeap w' !! cid = Some c' ∧ cstatus c' = Destroyed.
Proof.
  intros [_ _ _ _ _ _ _ _ _ [Hlen Hrel] _ _] Hc Hs.
  destruct (connHeap w' !! cid) as [c'|] eqn:Hc'.
  - exists c'. split; [done|].
    destruct (Hrel _ _ _ Hc Hc') as (_ & _ & Hs'). destruct Hs'; congruence.
  - apply lookup_ge_None in Hc'. apply lookup_lt_Some in Hc. lia.
Qed.

Lemma cleanupFFmpeg_released g w :
  ffmpegProcesses (cleanupFFmpeg g w) !! g = None ∧
  ∀ pid p, ffmpegProcesses w !! g = Some pid → procHeap w !! pid = Some p →
           ∃ p', procHeap (cleanupFFmpeg g w) !! pid = Some p' ∧ live p' = false.
Proof.
  unfold cleanupFFmpeg, kill, setTimeout.
  split.
  - destruct (ffmpegProcesses w !! g) as [pid|]; simpl; [|apply lookup_delete_eq].
    destruct (procHeap w !! pid) as [p|]; [|apply lookup_delete_eq].
    destruct (killed p); apply lookup_delete_eq.
  - intros pid p -> Hp. rewrite Hp.
    destruct (killed p) eqn:Hk; simpl.
    + exists p. split; [done|]. unfold live. by rewrite Hk.
    + exists (kill_process p).
      rewrite list_lookup_insert_eq by (by eapply lookup_lt_Some).
      split; [done|]. unfold kill_process, live.
      destruct (exited p) eqn:He; simpl; [|done]. by rewrite He, andb_false_r.
Qed.

Lemma mark_destroyed_status cid w c :
  connHeap w !! cid = Some c →
  ∃ c', connHeap (mark_destroyed cid w) !! cid = Some c' ∧ cstatus c' = Destroyed.
Proof.
  intros Hc. unfold mark_destroyed. rewrite Hc.
  unfold update_connection.
  assert (connHeap (untrackVoiceConnection cid (joinConfig_guildId c) w) = connHeap w) as E.
  { unfold untrackVoiceConnection. destruct (voiceConnections w !! _); [|done].
    by case_decide. }
  rewrite E, Hc. simpl. rewrite E. eexists.
  rewrite list_lookup_insert_eq by (by eapply lookup_lt_Some). done.
Qed.

Lemma cleanupFFmpeg_connections g w :
  connections (cleanupFFmpeg g w) = connections w ∧
  voiceConnections (cleanupFFmpeg g w) = voiceConnections w ∧
  connHeap (cleanupFFmpeg g w) = connHeap w.
Proof.
  unfold cleanupFFmpeg, kill, setTimeout.
  destruct (ffmpegProcesses w !! g) as [pid|]; [|done].
  destruct (procHeap w !! pid) as [p|]; [|done].
  by destruct (killed p).
Qed.

(** What [cleanupGuildResources] leaves of a guild: nothing. *)
Lemma cleanup_rec_released detach d g w :
  keeps_connections detach →
  let w' := cleanupGuildResources_rec detach (S d) g w in
  connections w' !! g = None ∧ players w' !! g = None ∧
  currentStreams w' !! g = None ∧ ffmpegProcesses w' !! g = None ∧
  (∀ pid p, ffmpegProcesses w !! g = Some pid → procHeap w !! pid = Some p →
            ∃ p', procHeap w' !! pid = Some p' ∧ live p' = false) ∧
  (∀ cid c, getExistingConnection g w = Some cid → connHeap w !! cid = Some c →
            ∃ c', connHeap w' !! cid = Some c' ∧ cstatus c' = Destroyed).
Proof.
  intros Hk. simpl.
  set (w1 := detach g (cleanupFFmpeg g w)).
  set (w2 := match getExistingConnection g w1 with Some _ => _ | None => _ end).
  destruct (Hk g (cleanupFFmpeg g w)) as (Hcl1 & Hc1 & Hr1). fold w1 in Hcl1, Hc1, Hr1.
  destruct (cleanupFFmpeg_connections g w) as (Hc0 & Hr0 & Hh0).
  destruct (cleanupFFmpeg_released g w) as (Hf0 & Hp0).
  assert (H12 : cleans w1 w2).
  { unfold w2. destruct (getExistingConnection g w1) as [cid|]; [|done].
    destruct (connHeap w1 !! cid) as [c|]; [|done].
    destruct (is_destroyed (cstatus c)); [done|].
    etrans; [apply cleans_mark_destroyed|].
    apply cleans_foldl. intros w' g'. apply cleans_cleanup_rec. intros; apply Hk. }
  assert (H2 : cleans (cleanupFFmpeg g w) (clearGuildData g w2)).
  { etrans; [exact Hcl1|]. etrans; [exact H12|]. apply cleans_clearGuildData. }
  split; [apply lookup_delete_eq|]. split; [apply lookup_delete_eq|].
  split; [apply lookup_delete_eq|].
  split; [eapply lookup_weaken_None; [exact Hf0 | apply H2]|].
  split.
  - intros pid p Hf Hp. destruct (Hp0 _ _ Hf Hp) as (p' & Hp' & Hl).
    exact (cleans_not_live _ _ _ _ H2 Hp' Hl).
  - intros cid c Hex Hc.
    assert (Hex1 : getExistingConnection g w1 = Some cid).
    { unfold getExistingConnection, getVoiceConnection in *. by rewrite Hc1, Hr1, Hc0, Hr0. }
    assert (∃ c1, connHeap w1 !! cid = Some c1) as [c1 Hc1'].
    { destruct Hcl1 as [_ _ _ _ _ _ _ _ _ [Hlen _] _ _].
      apply lookup_lt_is_Some. rewrite Hlen, Hh0. by eapply lookup_lt_Some. }
    assert (∃ c2, connHeap w2 !! cid = Some c2 ∧ cstatus c2 = Destroyed) as (c2 & Hc2 & Hs2).
    { unfold w2. rewrite Hex1, Hc1'.
      destruct (is_destroyed (cstatus c1)) eqn:Hd.
      - exists c1. split; [done|]. by destruct (cstatus c1).
      - destruct (mark_destroyed_status cid w1 c1 Hc1') as (c' & Hc' & Hs').
        eapply cleans_destroyed; [|exact Hc'|exact Hs'].
        apply cleans_foldl. intros w' g'. apply cleans_cleanup_rec. intros; apply Hk. }
    exact (cleans_destroyed _ _ _ _ (cleans_clearGuildData g w2) Hc2 Hs2).
Qed.

Lemma core_keeps_connections : keeps_connections Core.cleanupEventListeners.
Proof.
  intros g w. split; [apply cleans_cleanupEventListeners|].
  unfold Core.cleanupEventListeners, update_connection.
  destruct (connectionListeners w !! g) as [cid|]; simpl.
  - destruct (connHeap w !! cid); simpl;
      destruct (playerListeners w !! g) as [pid|]; simpl; try done;
      destruct (playerHeap w !! pid); done.
  - destruct (playerListeners w !! g) as [pid|]; simpl; try done.
    destruct (playerHeap w !! pid); done.
Qed.

Lemma legacy_keeps_connections : keeps_connections (λ _ w, w).
Proof. by intros g w. Qed.

Lemma cleanupEventListeners_released g w :
  connectionListeners (Core.cleanupEventListeners g w) !! g = None ∧
  playerListeners (Core.cleanupEventListeners g w) !! g = None.
Proof.
  unfold Core.cleanupEventListeners, update_connection.
  destruct (connectionListeners w !! g) as [cid|] eqn:Hc; simpl.
  - destruct (connHeap w !! cid); simpl;
      destruct (playerListeners w !! g) as [pid|] eqn:Hp; simpl;
      rewrite ?lookup_delete_eq; try done;
      destruct (playerHeap w !! pid); simpl; by rewrite ?lookup_delete_eq.
  - destruct (playerListeners w !! g) as [pid|] eqn:Hp; simpl;
      rewrite ?lookup_delete_eq; try done;
      destruct (playerHeap w !! pid); simpl; by rewrite ?lookup_delete_eq.
Qed.
End Released.

(** ** Pause, resume, stop *)

(** * Pause, resume, stop *)

Section PlaybackControl.
Implicit Types (w : World) (g : guildId).

Lemma world_eta w :
  {| connections := connections w; players := players w;
     currentStreams := currentStreams w; volumes := volumes w;
     ffmpegProcesses := ffmpegProcesses w;
     connectionListeners := connectionListeners w;
     playerListeners := playerListeners w;
     voiceConnections := voiceConnections w; connHeap := connHeap w;
     playerHeap := playerHeap w; procHeap := procHeap w; timers := timers w |} = w.
Proof. by destruct w. Qed.

Lemma getPlayerStatus_spec g w s :
  getPlayerStatus g w = Some s ↔
  ∃ pid p, getPlayer g w = Some (pid, p) ∧ status (pstate p) = s.
Proof.
  unfold getPlayerStatus. destruct (getPlayer g w) as [[pid p]|]; split.
  - intros [= <-]. eauto.
  - by intros (? & ? & [= <- <-] & <-).
  - done.
  - by intros (? & ? & ? & _).
Qed.

Lemma getPlayer_lookup g w pid p :
  getPlayer g w = Some (pid, p) → players w !! g = Some pid ∧ playerHeap w !! pid = Some p.
Proof.
  unfold getPlayer. destruct (players w !! g) as [pid'|]; [|done].
  destruct (playerHeap w !! pid') as [p'|] eqn:Hp; [|done]. by intros [= <- <-].
Qed.

Lemma getPlayer_update g w pid p f :
  getPlayer g w = Some (pid, p) →
  getPlayer g (update_player pid f w) =
  Some (pid, {| pstate := f (pstate p); plisteners := plisteners p |}).
Proof.
  intros [Hg Hp]%getPlayer_lookup. unfold getPlayer, update_player.
  rewrite Hp. simpl. rewrite Hg.
  by rewrite list_lookup_insert_eq by (by eapply lookup_lt_Some).
Qed.

Lemma pauseAudio_spec g w :
  match getPlayer g w with
  | Some (pid, p) =>
    match pstate p with
    | PlayingState r => pauseAudio g w = (true, update_player pid (λ _, PausedState r) w)
    | _ => pauseAudio g w = (false, w)
    end
  | None => pauseAudio g w = (false, w)
  end.
Proof.
  unfold pauseAudio. destruct (getPlayer g w) as [[pid p]|] eqn:Hg; [|done].
  apply getPlayer_lookup in Hg as [_ Hp].
  destruct (pstate p) as [|r|r|r|r] eqn:Hs; simpl; rewrite ?Hs; simpl; try done.
  unfold update_player. by rewrite Hp, Hs.
Qed.

Lemma resumeAudio_spec g w :
  match getPlayer g w with
  | Some (pid, p) =>
    match pstate p with
    | PausedState r => resumeAudio g w = (true, update_player pid (λ _, PlayingState r) w)
    | _ => resumeAudio g w = (false, w)
    end
  | None => resumeAudio g w = (false, w)
  end.
Proof.
  unfold resumeAudio. destruct (getPlayer g w) as [[pid p]|] eqn:Hg; [|done].
  apply getPlayer_lookup in Hg as [_ Hp].
  destruct (pstate p) as [|r|r|r|r] eqn:Hs; simpl; rewrite ?Hs; simpl; try done.
  unfold update_player. by rewrite Hp, Hs.
Qed.

Lemma update_player_id pid w :
  update_player pid (λ st, st) w = w.
Proof.
  unfold update_player. destruct (playerHeap w !! pid) as [p|] eqn:Hp; [|done].
  unfold set_playerHeap. rewrite list_insert_id; [apply world_eta|].
  rewrite Hp. by destruct p.
Qed.

Lemma update_player_twice pid f h w :
  update_player pid h (update_player pid f w) = update_player pid (h ∘ f) w.
Proof.
  unfold update_player. destruct (playerHeap w !! pid) as [p|] eqn:Hp; simpl; [|by rewrite Hp].
  rewrite list_lookup_insert_eq by (by eapply lookup_lt_Some). simpl.
  unfold set_playerHeap. simpl. by rewrite list_insert_insert_eq.
Qed.

Lemma update_player_ext pid f h w :
  (∀ p, playerHeap w !! pid = Some p → f (pstate p) = h (pstate p)) →
  update_player pid f w = update_player pid h w.
Proof.
  intros Hfh. unfold update_player. destruct (playerHeap w !! pid) as [p|] eqn:Hp; [|done].
  by rewrite (Hfh p).
Qed.
End PlaybackControl.

Section PlaybackClaims.
Implicit Types (w : World) (g : guildId).

Lemma stopCurrentPlayback_released g w :
  currentStreams (stopCurrentPlayback g w) !! g = None ∧
  ffmpegProcesses (stopCurrentPlayback g w) !! g = None ∧
  (∀ pid p, ffmpegProcesses w !! g = Some pid → procHeap w !! pid = Some p →
     ∃ p', procHeap (stopCurrentPlayback g w) !! pid = Some p' ∧ live p' = false).
Proof.
  unfold stopCurrentPlayback.
  set (w1 := match getPlayer g w with Some _ => _ | None => _ end).
  set (w2 := set_currentStreams (delete g) w1).
  assert (Hf : ffmpegProcesses w2 = ffmpegProcesses w ∧ procHeap w2 = procHeap w).
  { unfold w2, w1, update_player. destruct (getPlayer g w) as [[pid p]|]; [|done].
    by destruct (playerHeap w !! pid). }
  destruct Hf as [Hf Hp].
  destruct (cleanupFFmpeg_released g w2) as [H1 H2].
  split; [|split; [done|]].
  - destruct (cleans_cleanupFFmpeg g w2) as [_ _ Hs _ _ _ _ _ _ _ _ _].
    eapply lookup_weaken_None; [|exact Hs]. apply lookup_delete_eq.
  - intros pid p Hpid Hproc. apply (H2 pid p); congruence.
Qed.

Lemma stopCurrentPlayback_player g w pid p :
  getPlayer g w = Some (pid, p) →
  getPlayer g (stopCurrentPlayback g w) =
  Some (pid, {| pstate := snd (player_stop (pstate p)); plisteners := plisteners p |}).
Proof.
  intros Hg. unfold stopCurrentPlayback. rewrite Hg.
  pose proof (getPlayer_update g w pid p (λ st, snd (player_stop st)) Hg) as Hu.
  set (w1 := update_player _ _ w) in *.
  assert (Hk : ∀ w0, getPlayer g (cleanupFFmpeg g w0) = getPlayer g w0).
  { intros w0. unfold cleanupFFmpeg, kill, setTimeout, getPlayer.
    destruct (ffmpegProcesses w0 !! g) as [fid|]; [|done].
    destruct (procHeap w0 !! fid) as [f|]; [|done]. by destruct (killed f). }
  by rewrite Hk.
Qed.

(** C5. [pauseAudio] succeeds exactly from Playing, [resumeAudio] exactly
    from Paused, [stopAudio] exactly from Playing or Paused; a call that
    succeeds does its work, and any other call (also with no player)
    returns false and leaves the state as it was.  Each of the three is a
    total function to a boolean: none can throw. *)
Theorem playback_control_preconditions g w :
  (fst (pauseAudio g w) = true ↔ getPlayerStatus g w = Some Playing) ∧
  (fst (pauseAudio g w) = true →
     getPlayerStatus g (snd (pauseAudio g w)) = Some Paused) ∧
  (fst (pauseAudio g w) = false → snd (pauseAudio g w) = w) ∧
  (fst (resumeAudio g w) = true ↔ getPlayerStatus g w = Some Paused) ∧
  (fst (resumeAudio g w) = true →
     getPlayerStatus g (snd (resumeAudio g w)) = Some Playing) ∧
  (fst (resumeAudio g w) = false → snd (resumeAudio g w) = w) ∧
  (fst (stopAudio g w) = true ↔
     getPlayerStatus g w = Some Playing ∨ getPlayerStatus g w = Some Paused) ∧
  (fst (stopAudio g w) = true →
     snd (stopAudio g w) = stopCurrentPlayback g w ∧
     currentStreams (snd (stopAudio g w)) !! g = None ∧
     ffmpegProcesses (snd (stopAudio g w)) !! g = None ∧
     (∀ pid p, ffmpegProcesses w !! g = Some pid → procHeap w !! pid = Some p →
        ∃ p', procHeap (snd (stopAudio g w)) !! pid = Some p' ∧ live p' = false) ∧
     ∃ pid p r, getPlayer g (snd (stopAudio g w)) = Some (pid, p) ∧
                resource (pstate p) = Some r ∧ silenceRemaining r ≠ (-1)%Z) ∧
  (fst (stopAudio g w) = false → snd (stopAudio g w) = w).
Proof.
  pose proof (pauseAudio_spec g w) as Hpause.
  pose proof (resumeAudio_spec g w) as Hresume.
  unfold getPlayerStatus, stopAudio.
  destruct (getPlayer g w) as [[pid p]|] eqn:Hg.
  2:{ rewrite Hpause, Hresume. cbn [fst snd]. rewrite Hg.
      repeat split; try discriminate; try tauto. by intros [|]. }
  assert (Hsil : ∀ r, silenceRemaining (resource_stop r) ≠ (-1)%Z).
  { intros r. unfold resource_stop.
    destruct (Z.eqb_spec (silenceRemaining r) (-1)); simpl; lia. }
  destruct (stopCurrentPlayback_released g w) as (Hs1 & Hs2 & Hs3).
  pose proof (stopCurrentPlayback_player g w pid p Hg) as Hsp.
  pose proof (getPlayer_update g w pid p) as Hup.
  destruct (pstate p) as [|r|r|r|r] eqn:Hs; rewrite Hpause, Hresume;
    cbn [fst snd status]; rewrite ?Hg, ?Hs; cbn [fst snd status].
  - repeat split; try discriminate; try tauto. by intros [|].
  - repeat split; try discriminate; try tauto. by intros [|].
  - repeat split; try discriminate; try tauto; auto.
    + intros _. by rewrite Hup.
    + exists pid. eexists. exists (resource_stop r).
      split; [exact Hsp|]. cbn. auto.
  - repeat split; try discriminate; try tauto; auto.
    + intros _. by rewrite Hup.
    + exists pid. eexists. exists (resource_stop r).
      split; [exact Hsp|]. cbn. auto.
  - repeat split; try discriminate; try tauto. by intros [|].
Qed.

(** C8. From Playing with a stream descriptor present, pause then
    resume both succeed and give back the very state they started from:
    the player is Playing again and the descriptor is untouched. *)
Theorem pause_resume_round_trip g w s :
  getPlayerStatus g w = Some Playing →
  currentStreams w !! g = Some s →
  fst (pauseAudio g w) = true ∧
  getPlayerStatus g (snd (pauseAudio g w)) = Some Paused ∧
  currentStreams (snd (pauseAudio g w)) !! g = Some s ∧
  fst (resumeAudio g (snd (pauseAudio g w))) = true ∧
  getPlayerStatus g (snd (resumeAudio g (snd (pauseAudio g w)))) = Some Playing ∧
  currentStreams (snd (resumeAudio g (snd (pauseAudio g w)))) !! g = Some s ∧
  snd (resumeAudio g (snd (pauseAudio g w))) = w.
Proof.
  intros (pid & p & Hg & Hs)%getPlayerStatus_spec Hstream.
  pose proof (pauseAudio_spec g w) as Hpause. rewrite Hg in Hpause.
  destruct (pstate p) as [|r|r|r|r] eqn:Hp; try done.
  rewrite Hpause. simpl.
  pose proof (getPlayer_update g w pid p (λ _, PausedState r) Hg) as Hg1.
  pose proof (resumeAudio_spec g (update_player pid (λ _, PausedState r) w)) as Hresume.
  rewrite Hg1 in Hresume. simpl in Hresume. rewrite Hresume. simpl.
  assert (Hback : update_player pid (λ _, PlayingState r)
                    (update_player pid (λ _, PausedState r) w) = w).
  { rewrite update_player_twice.
    transitivity (update_player pid (λ st, st) w); [|apply update_player_id].
    apply update_player_ext. intros p' Hp'.
    apply getPlayer_lookup in Hg as [_ Hh]. simplify_eq. by rewrite Hp. }
  rewrite Hback. unfold getPlayerStatus. rewrite Hg1, Hg, Hp. simpl.
  repeat split; try done.
  unfold update_player. by destruct (playerHeap w !! pid).
Qed.

Lemma playingWorld_status : getPlayerStatus "g" playingWorld = Some Playing.
Proof. by vm_compute. Qed.

Lemma pause_resume_round_trip_witness :
  getPlayerStatus "g" (snd (resumeAudio "g" (snd (pauseAudio "g" playingWorld)))) = Some Playing ∧
  snd (resumeAudio "g" (snd (pauseAudio "g" playingWorld))) = playingWorld.
Proof.
  destruct (pause_resume_round_trip "g" playingWorld
              (RadioStream "https://stream.radiojar.com/8s5u5tpdtwzuv" (Some ∅) 0))
    as (_ & _ & _ & _ & H1 & _ & H2).
  - vm_compute. reflexivity.
  - vm_compute. reflexivity.
  - split; [exact H1 | exact H2].
Defined.
End PlaybackClaims.

(** ** The stored volume *)

Section Volume.
Local Open Scope float_scope.
Import AUDIO_CONFIG.
Implicit Types (w : World) (g : guildId).

Lemma clampVolume_ok v : volume_ok (clampVolume v).
Proof.
  destruct (is_nan v) eqn:Hv.
  - left. by rewrite clampVolume_nan.
  - right. by apply clampVolume_range.
Qed.

Lemma setVolume_volumes g v w :
  fst (setVolume g v w) = true ∧
  volumes (snd (setVolume g v w)) = <[g := clampVolume v]> (volumes w).
Proof.
  unfold setVolume, update_player. split; [done|]. cbn [snd].
  destruct (isPlayerReady _); [|done].
  destruct (getPlayer g _) as [[pid p]|]; [|done].
  by destruct (playerHeap _ !! pid).
Qed.

Lemma is_nan_add c s : is_nan c = true → is_nan (c + s) = true.
Proof.
  rewrite !is_nan_spec, add_spec. by destruct (Prim2SF c).
Qed.

Lemma is_nan_sub c s : is_nan c = true → is_nan (c - s) = true.
Proof.
  rewrite !is_nan_spec, sub_spec. by destruct (Prim2SF c).
Qed.

Lemma increase_formula c :
  volume_ok c → clampVolume (c + VOLUME_STEP) = Math_min (c + VOLUME_STEP) MAX_VOLUME.
Proof.
  intros [Hn|[H0 _]]; [|by apply clampVolume_step_up].
  apply (is_nan_add c VOLUME_STEP) in Hn.
  rewrite clampVolume_nan by done. unfold Math_min. by rewrite Hn.
Qed.

Lemma decrease_formula c :
  volume_ok c → clampVolume (c - VOLUME_STEP) = Math_max (c - VOLUME_STEP) MIN_VOLUME.
Proof.
  intros [Hn|[H0 H2]]; [|by apply clampVolume_step_down].
  apply (is_nan_sub c VOLUME_STEP) in Hn.
  rewrite clampVolume_nan by done. unfold Math_max. by rewrite Hn.
Qed.

Lemma getVolume_ok g w : volumes_ok w → volume_ok (getVolume g w).
Proof.
  intros Hok. unfold getVolume. destruct (volumes w !! g) as [v|] eqn:Hv; [eauto|].
  right. done.
Qed.
End Volume.

(** ** The play methods *)

Section Play.
Implicit Types (w : World) (g : guildId).

Lemma playRadio_play_with g url si now w :
  Core.playRadio g url si now w = play_with g url (RadioStream url (Some si) now) w.
Proof. reflexivity. Qed.

Lemma playQuran_play_with g url s r m now w :
  Core.playQuran g url s r m now w = play_with g url (QuranStream url s r (Some m) now) w.
Proof. reflexivity. Qed.

Lemma legacy_playRadio_play_with g url now w :
  Legacy.playRadio g url now w = play_with g url (RadioStream url None now) w.
Proof. reflexivity. Qed.

Lemma legacy_playQuran_play_with g url s r now w :
  Legacy.playQuran g url s r now w = play_with g url (QuranStream url s r None now) w.
Proof. reflexivity. Qed.

Lemma play_stream_play_with g req now w :
  play_stream g req now w = play_with g (request_url req) (request_descriptor req now) w.
Proof. by destruct req. Qed.

Lemma cleanupFFmpeg_frame g w :
  connections (cleanupFFmpeg g w) = connections w ∧
  players (cleanupFFmpeg g w) = players w ∧
  currentStreams (cleanupFFmpeg g w) = currentStreams w ∧
  volumes (cleanupFFmpeg g w) = volumes w ∧
  connectionListeners (cleanupFFmpeg g w) = connectionListeners w ∧
  playerListeners (cleanupFFmpeg g w) = playerListeners w ∧
  voiceConnections (cleanupFFmpeg g w) = voiceConnections w ∧
  connHeap (cleanupFFmpeg g w) = connHeap w ∧
  playerHeap (cleanupFFmpeg g w) = playerHeap w ∧
  length (procHeap (cleanupFFmpeg g w)) = length (procHeap w).
Proof.
  unfold cleanupFFmpeg, kill, setTimeout.
  destruct (ffmpegProcesses w !! g) as [pid|]; [|done].
  destruct (procHeap w !! pid) as [p|]; [|done].
  destruct (killed p); cbn; rewrite ?length_insert; done.
Qed.

Lemma cleanupFFmpeg_ffmpeg g w :
  ffmpegProcesses (cleanupFFmpeg g w) = delete g (ffmpegProcesses w).
Proof.
  unfold cleanupFFmpeg, kill, setTimeout.
  destruct (ffmpegProcesses w !! g) as [pid|]; [|done].
  destruct (procHeap w !! pid) as [p|]; [|done].
  by destruct (killed p).
Qed.

Lemma stopCurrentPlayback_frame g w :
  connections (stopCurrentPlayback g w) = connections w ∧
  players (stopCurrentPlayback g w) = players w ∧
  currentStreams (stopCurrentPlayback g w) = delete g (currentStreams w) ∧
  ffmpegProcesses (stopCurrentPlayback g w) = delete g (ffmpegProcesses w) ∧
  volumes (stopCurrentPlayback g w) = volumes w ∧
  connectionListeners (stopCurrentPlayback g w) = connectionListeners w ∧
  playerListeners (stopCurrentPlayback g w) = playerListeners w ∧
  voiceConnections (stopCurrentPlayback g w) = voiceConnections w ∧
  connHeap (stopCurrentPlayback g w) = connHeap w ∧
  length (playerHeap (stopCurrentPlayback g w)) = length (playerHeap w) ∧
  length (procHeap (stopCurrentPlayback g w)) = length (procHeap w).
Proof.
  unfold stopCurrentPlayback.
  set (w1 := match getPlayer g w with Some _ => _ | None => _ end).
  destruct (cleanupFFmpeg_frame g (set_currentStreams (delete g) w1))
    as (-> & -> & -> & -> & -> & -> & -> & -> & -> & ->).
  rewrite cleanupFFmpeg_ffmpeg. cbn.
  unfold w1, update_player. destruct (getPlayer g w) as [[pid p]|]; [|done].
  destruct (playerHeap w !! pid); cbn; rewrite ?length_insert; done.
Qed.

(** What a play method does when the guild has a player. *)
Lemma play_with_spec g url d w pid p :
  getPlayer g w = Some (pid, p) →
  ∃ w', play_with g url d w = (Return true, w') ∧
    connections w' = connections w ∧ players w' = players w ∧
    volumes w' = volumes w ∧
    connectionListeners w' = connectionListeners w ∧
    playerListeners w' = playerListeners w ∧
    voiceConnections w' = voiceConnections w ∧ connHeap w' = connHeap w ∧
    currentStreams w' = <[g := d]> (currentStreams w) ∧
    ffmpegProcesses w' = <[g := length (procHeap w)]> (ffmpegProcesses w) ∧
    procHeap w' = procHeap (stopCurrentPlayback g w) ++
                  [{| spawnUrl := url; killed := false; exited := false |}] ∧
    timers w' = timers (stopCurrentPlayback g w) ∧
    getPlayer g w' =
      Some (pid, {| pstate := BufferingState
                                {| playStream := length (procHeap w);
                                   rvolume := Some (getVolume g w);
                                   silenceRemaining := -1 |};
                    plisteners := plisteners p |}).
Proof.
  intros Hg. unfold play_with. rewrite Hg. unfold spawn.
  destruct (stopCurrentPlayback_frame g w)
    as (Hc & Hp & Hs & Hf & Hv & Hcl & Hpl & Hr & Hch & Hlp & Hlq).
  pose proof (stopCurrentPlayback_player g w pid p Hg) as Hsp.
  set (w1 := stopCurrentPlayback g w) in *. clearbody w1.
  eexists. split; [reflexivity|].
  set (w3 := set_ffmpegProcesses _ _).
  assert (Hg3 : getPlayer g w3 = getPlayer g w1) by done.
  assert (Hv3 : getVolume g w3 = getVolume g w).
  { unfold getVolume. by replace (volumes w3) with (volumes w). }
  rewrite Hv3, Hlq.
  pose proof (getPlayer_update g w3 pid _
                (player_play (resource_setVolume (getVolume g w)
                                (createAudioResource (length (procHeap w)))))
                (eq_trans Hg3 Hsp)) as Hg4.
  set (w4 := update_player _ _ w3) in *.
  assert (Hframe : connections w4 = connections w3 ∧ players w4 = players w3 ∧
                   volumes w4 = volumes w3 ∧
                   connectionListeners w4 = connectionListeners w3 ∧
                   playerListeners w4 = playerListeners w3 ∧
                   voiceConnections w4 = voiceConnections w3 ∧
                   connHeap w4 = connHeap w3 ∧ currentStreams w4 = currentStreams w3 ∧
                   ffmpegProcesses w4 = ffmpegProcesses w3 ∧
                   procHeap w4 = procHeap w3 ∧ timers w4 = timers w3).
  { unfold w4, update_player. by destruct (playerHeap w3 !! pid). }
  destruct Hframe as (F1 & F2 & F3 & F4 & F5 & F6 & F7 & F8 & F9 & F10 & F11).
  cbn [connections players volumes connectionListeners playerListeners
       voiceConnections connHeap currentStreams ffmpegProcesses procHeap timers
       set_currentStreams].
  rewrite F1, F2, F3, F4, F5, F6, F7, F8, F9, F10, F11.
  unfold w3. cbn. rewrite Hc, Hp, Hv, Hcl, Hpl, Hr, Hch, Hs, Hf, Hlq.
  rewrite !insert_delete_eq.
  repeat split; try done.
Qed.

(** ... and when it has none. *)
Lemma play_with_no_player g url d w :
  getPlayer g w = None →
  play_with g url d w = (Throw (NoPlayerFound g), cleanupFFmpeg g w).
Proof. intros Hg. unfold play_with. by rewrite Hg. Qed.
End Play.

(** ** Which entries a teardown drops *)

Section Torn.
Implicit Types (w : World) (g : guildId).

Lemma kill_process_not_live p : live (kill_process p) = false.
Proof.
  unfold kill_process, live. destruct (exited p) eqn:He; cbn.
  - by rewrite He, andb_false_r.
  - done.
Qed.

Lemma pick_nil {A} (k : guildId) (x : option A) :
  (if decide (k ∈ []) then None else x) = x.
Proof. case_decide as H; [|done]. by apply elem_of_nil in H. Qed.

Lemma pick_app {A} (G1 G2 : list guildId) (k : guildId) (x : option A) :
  (if decide (k ∈ G2) then None else if decide (k ∈ G1) then None else x) =
  (if decide (k ∈ G1 ++ G2) then None else x).
Proof.
  destruct (decide (k ∈ G1 ++ G2)) as [Hk|Hk].
  - apply elem_of_app in Hk. repeat case_decide; tauto.
  - rewrite elem_of_app in Hk. repeat case_decide; tauto.
Qed.

Lemma pick_ext {A} (G G' : list guildId) (k : guildId) (x : option A) :
  (k ∈ G ↔ k ∈ G') →
  (if decide (k ∈ G) then None else x) = (if decide (k ∈ G') then None else x).
Proof. intros H. repeat case_decide; tauto. Qed.

Lemma pick_singleton {A} (g k : guildId) (m : gmap guildId A) :
  delete g m !! k = if decide (k ∈ [g]) then None else m !! k.
Proof.
  case_decide as Hk.
  - apply list_elem_of_singleton in Hk as ->. apply lookup_delete_eq.
  - apply lookup_delete_ne. intros ->. apply Hk, list_elem_of_singleton. done.
Qed.

Lemma torn_refl w : torn [] [] w w.
Proof.
  split; intros; rewrite ?pick_nil; try done.
  split; [done|]. intros k Hk. by apply elem_of_nil in Hk.
Qed.

Lemma torn_trans Gf1 Gp1 Gf2 Gp2 w1 w2 w3 :
  torn Gf1 Gp1 w1 w2 → torn Gf2 Gp2 w2 w3 → torn (Gf1 ++ Gf2) (Gp1 ++ Gp2) w1 w3.
Proof.
  intros [F1 P1 C1 S1 L1 V1] [F2 P2 C2 S2 L2 V2]. split.
  - intros k. rewrite F2, F1. apply pick_app.
  - intros k. rewrite P2, P1. apply pick_app.
  - intros k. rewrite C2, C1. apply pick_app.
  - intros k. rewrite S2, S1. apply pick_app.
  - congruence.
  - intros pid p' Hp Hl. destruct (V2 _ _ Hp Hl) as [Hp2 Hn2].
    destruct (V1 _ _ Hp2 Hl) as [Hp1 Hn1]. split; [done|].
    intros k [Hk|Hk]%elem_of_app; [by apply Hn1|].
    specialize (Hn2 k Hk). rewrite F1 in Hn2. case_decide; [by apply Hn1|done].
Qed.

Lemma torn_perm Gf Gp Gf' Gp' w w' :
  (∀ k, k ∈ Gf ↔ k ∈ Gf') → (∀ k, k ∈ Gp ↔ k ∈ Gp') →
  torn Gf Gp w w' → torn Gf' Gp' w w'.
Proof.
  intros Hf Hp [F P C S L V]. split; try done.
  - intros k. rewrite F. by apply pick_ext.
  - intros k. rewrite P. by apply pick_ext.
  - intros k. rewrite C. by apply pick_ext.
  - intros k. rewrite S. by apply pick_ext.
  - intros pid p' Hp' Hl. destruct (V _ _ Hp' Hl) as [? Hn]. split; [done|].
    intros k Hk. apply Hn, Hf, Hk.
Qed.

(** A step that touches none of the fields [torn] speaks of. *)
Lemma torn_frame w w' :
  ffmpegProcesses w' = ffmpegProcesses w → players w' = players w →
  connections w' = connections w → currentStreams w' = currentStreams w →
  procHeap w' = procHeap w → torn [] [] w w'.
Proof.
  intros Ef Ep Ec Es Eh.
  split; intros; rewrite ?Ef, ?Ep, ?Ec, ?Es, ?Eh in *; rewrite ?pick_nil; try done.
  split; [done|]. intros k Hk. by apply elem_of_nil in Hk.
Qed.

Lemma torn_cleanupFFmpeg g w : torn [g] [] w (cleanupFFmpeg g w).
Proof.
  destruct (cleanupFFmpeg_frame g w) as (Hc & Hp & Hs & _ & _ & _ & _ & _ & _ & Hl).
  split; rewrite ?Hc, ?Hp, ?Hs; try done; try (intros k; by rewrite pick_nil).
  - intros k. rewrite cleanupFFmpeg_ffmpeg. apply pick_singleton.
  - intros pid p' Hp' Hlive.
    unfold cleanupFFmpeg, kill, setTimeout in Hp'.
    destruct (ffmpegProcesses w !! g) as [fid|] eqn:Hf.
    2:{ split; [done|]. intros k ->%list_elem_of_singleton. by rewrite Hf. }
    destruct (procHeap w !! fid) as [f|] eqn:Hfid.
    2:{ split; [done|]. intros k ->%list_elem_of_singleton. rewrite Hf.
        intros [= ->]. simpl in Hp'. congruence. }
    destruct (killed f) eqn:Hk; simpl in Hp'.
    + split; [done|]. intros k ->%list_elem_of_singleton. rewrite Hf.
      intros [= ->]. simplify_eq. unfold live in Hlive. by rewrite Hk in Hlive.
    + destruct (decide (fid = pid)) as [->|Hne].
      * rewrite list_lookup_insert_eq in Hp' by (by eapply lookup_lt_Some).
        simplify_eq. by rewrite kill_process_not_live in Hlive.
      * rewrite list_lookup_insert_ne in Hp' by done. split; [done|].
        intros k ->%list_elem_of_singleton. rewrite Hf. congruence.
Qed.

Lemma torn_clearGuildData g w : torn [] [g] w (clearGuildData g w).
Proof.
  unfold clearGuildData. split; cbn; try done;
    try (intros k; apply pick_singleton); try (intros k; by rewrite pick_nil).
  intros pid p' Hp _. split; [done|]. intros k Hk. by apply elem_of_nil in Hk.
Qed.
End Torn.

Section TornCleanup.
Implicit Types (w : World) (g : guildId).

Lemma torn_cleanupEventListeners g w : torn [] [] w (Core.cleanupEventListeners g w).
Proof.
  apply torn_frame;
    unfold Core.cleanupEventListeners, update_connection;
    destruct (connectionListeners w !! g) as [cid|]; cbn;
    try destruct (connHeap w !! cid); cbn;
    destruct (playerListeners w !! g) as [pid|]; cbn; try done;
    destruct (playerHeap w !! pid); done.
Qed.

Lemma torn_mark_destroyed cid w : torn [] [] w (mark_destroyed cid w).
Proof.
  apply torn_frame;
    unfold mark_destroyed, update_connection, untrackVoiceConnection;
    destruct (connHeap w !! cid) as [c|]; try done;
    destruct (voiceConnections w !! _); try case_decide; cbn;
    destruct (connHeap w !! cid); done.
Qed.

Lemma torn_foldl (f : World → guildId → World) (l : list guildId) w :
  (∀ w a, ∃ G, torn G G w (f w a)) → ∃ G, torn G G w (foldl f w l).
Proof.
  intros Hf. revert w. induction l as [|a l IH]; intros w; simpl.
  - exists []. apply torn_refl.
  - destruct (Hf w a) as [G1 H1]. destruct (IH (f w a)) as [G2 H2].
    exists (G1 ++ G2). eapply torn_trans; eauto.
Qed.

Lemma torn_foldl_all (f : World → guildId → World) (l : list guildId) w :
  (∀ w a, ∃ G, torn G G w (f w a) ∧ a ∈ G) →
  ∃ G, torn G G w (foldl f w l) ∧ ∀ a, a ∈ l → a ∈ G.
Proof.
  intros Hf. revert w. induction l as [|a l IH]; intros w; simpl.
  - exists []. split; [apply torn_refl|]. intros a Ha. by apply elem_of_nil in Ha.
  - destruct (Hf w a) as (G1 & H1 & Ha). destruct (IH (f w a)) as (G2 & H2 & Hl).
    exists (G1 ++ G2). split; [eapply torn_trans; eauto|].
    intros b [->|Hb]%elem_of_cons; apply elem_of_app; auto.
Qed.

(** [cleanupGuildResources] tears down the guild it is called for and
    the guilds its nested calls reach. *)
Lemma torn_cleanup_rec detach depth g w :
  (∀ g w, torn [] [] w (detach g w)) →
  ∃ G, torn G G w (cleanupGuildResources_rec detach depth g w) ∧ (depth ≠ 0 → g ∈ G).
Proof.
  intros Hd. revert g w. induction depth as [|d IH]; intros g w.
  - exists []. split; [apply torn_refl|done].
  - cbn [cleanupGuildResources_rec].
    set (w1 := detach g (cleanupFFmpeg g w)).
    set (w2 := match getExistingConnection g w1 with Some _ => _ | None => _ end).
    assert (H1 : torn [g] [] w w1).
    { exact (torn_trans _ _ _ _ _ _ _ (torn_cleanupFFmpeg g w) (Hd g _)). }
    assert (H2 : ∃ G, torn G G w1 w2).
    { unfold w2. destruct (getExistingConnection g w1) as [cid|];
        [|exists []; apply torn_refl].
      destruct (connHeap w1 !! cid) as [c|]; [|exists []; apply torn_refl].
      destruct (is_destroyed (cstatus c)); [exists []; apply torn_refl|].
      destruct (torn_foldl (λ w' g', cleanupGuildResources_rec detach d g' w')
                  (clisteners c) (mark_destroyed cid w1)) as [G HG].
      { intros w' g'. destruct (IH g' w') as (G & HG & _). eauto. }
      exists G. exact (torn_trans _ _ _ _ _ _ _ (torn_mark_destroyed cid w1) HG). }
    destruct H2 as [G H2].
    exists (g :: G). split; [|intros _; apply elem_of_cons; auto].
    pose proof (torn_trans _ _ _ _ _ _ _ H1 H2) as H12.
    pose proof (torn_trans _ _ _ _ _ _ _ H12 (torn_clearGuildData g w2)) as H.
    eapply torn_perm; [| |exact H];
      intros k; rewrite !elem_of_app, !elem_of_cons, !elem_of_nil; tauto.
Qed.

Lemma torn_core_cleanup g w :
  ∃ G, torn G G w (Core.cleanupGuildResources g w) ∧ g ∈ G.
Proof.
  destruct (torn_cleanup_rec Core.cleanupEventListeners (S (length (connHeap w))) g w)
    as (G & H & Hg); [apply torn_cleanupEventListeners|].
  exists G. split; [exact H | by apply Hg].
Qed.

(** The invariant survives a teardown. *)
Lemma proc_inv_torn G w w' : proc_inv w → torn G G w w' → proc_inv w'.
Proof.
  intros [I1 I2 I3 I4 I5] [F P C S L V]. split.
  - intros g pid. rewrite F, L. case_decide; [done|apply I1].
  - intros g g' pid. rewrite !F. repeat case_decide; try done. apply I2.
  - intros pid p' Hp Hl. destruct (V _ _ Hp Hl) as [Hp0 Hn].
    destruct (I3 _ _ Hp0 Hl) as [k Hk]. exists k. rewrite F.
    case_decide as HG; [|done]. by destruct (Hn k HG).
  - intros g. rewrite F, P. case_decide; [by intros [? ?]|apply I4].
  - intros g. rewrite P, C. case_decide; [by intros [? ?]|apply I5].
Qed.

Lemma proc_inv_core_cleanup g w : proc_inv w → proc_inv (Core.cleanupGuildResources g w).
Proof. intros H. destruct (torn_core_cleanup g w) as (G & HG & _). by eapply proc_inv_torn. Qed.

Lemma proc_inv_frame w w' :
  ffmpegProcesses w' = ffmpegProcesses w → players w' = players w →
  connections w' = connections w → procHeap w' = procHeap w →
  proc_inv w → proc_inv w'.
Proof.
  intros Ef Ep Ec Eh [I1 I2 I3 I4 I5]. split; rewrite ?Ef, ?Ep, ?Ec, ?Eh; done.
Qed.
End TornCleanup.

(** ** Steps that keep the invariant *)

Ltac solve_same :=
  repeat match goal with
         | |- context [match ?x with _ => _ end] => destruct x
         end;
  repeat split; reflexivity.

Section SameSession.
Implicit Types (w : World) (g : guildId).

Lemma same_session_refl : Reflexive same_session.
Proof. by intros w. Qed.
#[global] Existing Instance same_session_refl.

Lemma same_session_trans : Transitive same_session.
Proof.
  intros w1 w2 w3 (?&?&?&?&?&?) (?&?&?&?&?&?). repeat split; congruence.
Qed.
#[global] Existing Instance same_session_trans.

Lemma same_update_connection cid f w : same_session w (update_connection cid f w).
Proof. unfold same_session, update_connection. solve_same. Qed.

Lemma same_update_player pid f w : same_session w (update_player pid f w).
Proof. unfold same_session, update_player. solve_same. Qed.

Lemma same_setTimeout cb ms w : same_session w (setTimeout cb ms w).
Proof. by unfold same_session. Qed.

Lemma same_set_timers f w : same_session w (set_timers f w).
Proof. by unfold same_session. Qed.

Lemma same_voice_join ch g w : same_session w (snd (voice_joinVoiceChannel ch g w)).
Proof.
  unfold voice_joinVoiceChannel, getVoiceConnection.
  destruct (voiceConnections w !! g) as [cid|]; [|done].
  destruct (connHeap w !! cid) as [c|]; [|done].
  destruct (is_destroyed (cstatus c)); [done|]. apply same_update_connection.
Qed.

Lemma same_createAudioPlayer w : same_session w (snd (createAudioPlayer w)).
Proof. by unfold same_session. Qed.

Lemma same_subscribe cid pid w : same_session w (subscribe cid pid w).
Proof. apply same_update_connection. Qed.

Lemma same_setupConnectionListeners g cid w :
  same_session w (Core.setupConnectionListeners g cid w).
Proof.
  unfold Core.setupConnectionListeners.
  etrans; [apply (same_update_connection cid)|]. by unfold same_session.
Qed.

Lemma same_setupPlayerListeners g pid w :
  same_session w (Core.setupPlayerListeners g pid w).
Proof. unfold same_session, Core.setupPlayerListeners. solve_same. Qed.

Lemma same_mark_destroyed cid w : same_session w (mark_destroyed cid w).
Proof.
  unfold mark_destroyed. destruct (connHeap w !! cid); [|done].
  etrans; [|apply same_update_connection].
  unfold same_session, untrackVoiceConnection. solve_same.
Qed.

Lemma same_engine_playing pid w : same_session w (engine_playing pid w).
Proof. apply same_update_player. Qed.

Lemma proc_inv_same w w' : same_session w w' → proc_inv w → proc_inv w'.
Proof. intros (?&?&?&?&_). by apply proc_inv_frame. Qed.

Lemma volumes_ok_same w w' : volumes w' = volumes w → volumes_ok w → volumes_ok w'.
Proof. unfold volumes_ok. by intros ->. Qed.
End SameSession.

Section ProcInv.
Implicit Types (w : World) (g : guildId).

Lemma proc_inv_empty : proc_inv emptyWorld.
Proof.
  split; cbn; intros; try done.
Qed.

Lemma proc_inv_cleanupFFmpeg g w : proc_inv w → proc_inv (cleanupFFmpeg g w).
Proof.
  intros [I1 I2 I3 I4 I5]. destruct (torn_cleanupFFmpeg g w) as [F P C S L V]. split.
  - intros k pid. rewrite F, L. case_decide; [done|apply I1].
  - intros k k' pid. rewrite !F. repeat case_decide; try done. apply I2.
  - intros pid p' Hp Hl. destruct (V _ _ Hp Hl) as [Hp0 Hn].
    destruct (I3 _ _ Hp0 Hl) as [k Hk]. exists k. rewrite F.
    case_decide as HG; [|done]. by destruct (Hn k HG).
  - intros k. rewrite F, P, pick_nil. case_decide; [by intros [? ?]|apply I4].
  - intros k. rewrite P, C, !pick_nil. apply I5.
Qed.

Lemma proc_inv_stopCurrentPlayback g w : proc_inv w → proc_inv (stopCurrentPlayback g w).
Proof.
  intros H. unfold stopCurrentPlayback. apply proc_inv_cleanupFFmpeg.
  eapply proc_inv_frame; [..|exact H]; cbn;
    destruct (getPlayer g w) as [[pid p]|]; try done; apply same_update_player.
Qed.

(** Changes of the process heap that make no process live again. *)
Lemma proc_inv_heap w w' :
  ffmpegProcesses w' = ffmpegProcesses w → players w' = players w →
  connections w' = connections w → length (procHeap w') = length (procHeap w) →
  (∀ pid p', procHeap w' !! pid = Some p' → live p' = true →
             ∃ p, procHeap w !! pid = Some p ∧ live p = true) →
  proc_inv w → proc_inv w'.
Proof.
  intros Ef Ep Ec El Hl [I1 I2 I3 I4 I5]. split; rewrite ?Ef, ?Ep, ?Ec, ?El; try done.
  intros pid p' Hp' Hlive. destruct (Hl _ _ Hp' Hlive) as (p & Hp & Hlp). eauto.
Qed.

Lemma proc_inv_kill pid w : proc_inv w → proc_inv (kill pid w).
Proof.
  intros H. unfold kill. destruct (procHeap w !! pid) as [p|] eqn:Hp; [|done].
  eapply proc_inv_heap; [..|exact H]; cbn; rewrite ?length_insert; try done.
  intros i p' Hi Hl. destruct (decide (pid = i)) as [->|Hne].
  - rewrite list_lookup_insert_eq in Hi by (by eapply lookup_lt_Some).
    simplify_eq. by rewrite kill_process_not_live in Hl.
  - rewrite list_lookup_insert_ne in Hi by done. eauto.
Qed.

Lemma proc_inv_forceKill pid w : proc_inv w → proc_inv (forceKill pid w).
Proof.
  intros H. unfold forceKill. destruct (procHeap w !! pid) as [p|]; [|done].
  destruct (negb (killed p)); [by apply proc_inv_kill|done].
Qed.

Lemma proc_inv_process_exit pid w : proc_inv w → proc_inv (process_exit pid w).
Proof.
  intros H. unfold process_exit. destruct (procHeap w !! pid) as [p|] eqn:Hp; [|done].
  eapply proc_inv_heap; [..|exact H]; cbn; rewrite ?length_insert; try done.
  intros i p' Hi Hl. destruct (decide (pid = i)) as [->|Hne].
  - rewrite list_lookup_insert_eq in Hi by (by eapply lookup_lt_Some).
    simplify_eq. unfold live in Hl. cbn in Hl. by rewrite andb_false_r in Hl.
  - rewrite list_lookup_insert_ne in Hi by done. eauto.
Qed.

Lemma proc_inv_play_with g url d w : proc_inv w → proc_inv (snd (play_with g url d w)).
Proof.
  intros H. destruct (getPlayer g w) as [[pid p]|] eqn:Hg.
  2:{ rewrite play_with_no_player by done. by apply proc_inv_cleanupFFmpeg. }
  destruct (play_with_spec g url d w pid p Hg)
    as (w' & -> & Hc & Hp & _ & _ & _ & _ & _ & _ & Hf & Hh & _ & _).
  cbn [snd].
  pose proof (proc_inv_stopCurrentPlayback g w H) as [I1 I2 I3 I4 I5].
  destruct (stopCurrentPlayback_frame g w)
    as (Hc0 & Hp0 & _ & Hf0 & _ & _ & _ & _ & _ & _ & Hl0).
  destruct H as [J1 J2 J3 J4 J5].
  split; rewrite ?Hc, ?Hp, ?Hf, ?Hh; try done.
  - intros k pid'. rewrite length_app, Hl0. cbn. rewrite lookup_insert.
    case_decide; [intros [= <-]; lia|]. intros Hk%J1. lia.
  - intros k k' pid'. rewrite !lookup_insert.
    repeat case_decide; subst; try done.
    + intros [= <-] Hk%J1. lia.
    + intros Hk%J1 [= <-]. lia.
    + apply J2.
  - intros pid' p' Hp' Hl.
    destruct (decide (pid' < length (procHeap (stopCurrentPlayback g w)))) as [Hlt|Hge].
    + rewrite lookup_app_l in Hp' by done.
      destruct (I3 _ _ Hp' Hl) as [k Hk]. exists k.
      rewrite Hf0 in Hk. rewrite lookup_insert. case_decide as Hkg.
      * subst. by rewrite lookup_delete_eq in Hk.
      * by rewrite lookup_delete_ne in Hk.
    + exists g. rewrite lookup_insert_eq.
      apply lookup_lt_Some in Hp'. rewrite length_app, Hl0 in Hp'.
      cbn [length] in Hp'. rewrite Hl0 in Hge. f_equal. lia.
  - intros k. rewrite lookup_insert. case_decide; [|apply J4].
    subst. intros _. apply getPlayer_lookup in Hg as [Hg _]. eauto.
Qed.

Lemma proc_inv_add_player g pid w :
  is_Some (connections w !! g) → proc_inv w → proc_inv (set_players (<[g := pid]>) w).
Proof.
  intros Hc [I1 I2 I3 I4 I5]. split; cbn; try done.
  - intros k Hk. rewrite lookup_insert. case_decide; [done|auto].
  - intros k. rewrite lookup_insert. case_decide; [by subst|auto].
Qed.

Lemma proc_inv_add_connection g cid w :
  proc_inv w → proc_inv (set_connections (<[g := cid]>) w).
Proof.
  intros [I1 I2 I3 I4 I5]. split; cbn; try done.
  intros k Hk. rewrite lookup_insert. case_decide; [done|auto].
Qed.
End ProcInv.

(** ** The invariant along a run *)

Section RunInvariant.
Implicit Types (w : World) (g : guildId).

Lemma foldl_preserves {A} (P : World → Prop) (f : World → A → World) l w :
  (∀ w a, P w → P (f w a)) → P w → P (foldl f w l).
Proof. intros Hf. revert w. induction l; simpl; auto. Qed.

Lemma proc_inv_setTimeout cb ms w : proc_inv w → proc_inv (setTimeout cb ms w).
Proof. by apply proc_inv_frame. Qed.

Lemma proc_inv_drop_stream g w : proc_inv w → proc_inv (set_currentStreams (delete g) w).
Proof. by apply proc_inv_frame. Qed.

Lemma proc_inv_idleListener g w : proc_inv w → proc_inv (idleListener g w).
Proof.
  intros H. unfold idleListener. destruct (currentStreams w !! g) as [[]|]; [| |done].
  - by apply proc_inv_setTimeout.
  - by apply proc_inv_cleanupFFmpeg, proc_inv_drop_stream.
Qed.

Lemma proc_inv_errorListener g w : proc_inv w → proc_inv (errorListener g w).
Proof.
  intros H. unfold errorListener.
  destruct (currentStreams w !! g) as [[]|]; [by apply proc_inv_setTimeout|..];
    by apply proc_inv_cleanupFFmpeg, proc_inv_drop_stream.
Qed.

Lemma proc_inv_join g ch guild ready w :
  proc_inv w → proc_inv (snd (Core.joinVoiceChannel g ch guild ready w)).
Proof.
  intros H. unfold Core.joinVoiceChannel.
  destruct (Core.validateChannel ch guild) as [[]|e]; cbn [snd];
    [|by apply proc_inv_core_cleanup].
  destruct (Core.reusableConnection g ch w) as [cid|].
  - set (w1 := match connections w !! g with Some _ => w | None => _ end).
    assert (H1 : proc_inv w1 ∧ is_Some (connections w1 !! g)).
    { unfold w1. destruct (connections w !! g) eqn:Hc; [eauto|].
      split; [by apply proc_inv_add_connection|]. cbn. rewrite lookup_insert_eq. eauto. }
    destruct H1 as [H1 Hc1]. clearbody w1.
    destruct (getPlayer g w1) as [[pid p]|]; [done|].
    pose proof (same_createAudioPlayer w1) as S2.
    destruct (createAudioPlayer w1) as [pid w2]. cbn [snd] in *.
    pose proof (same_subscribe cid pid w2) as S3.
    eapply proc_inv_same; [apply same_setupPlayerListeners|].
    apply proc_inv_add_player.
    + destruct S2 as (_&_&E2&_), S3 as (_&_&E3&_). by rewrite E3, E2.
    + eapply proc_inv_same; [exact S3|]. by eapply proc_inv_same.
  - pose proof (proc_inv_core_cleanup g w H) as H1.
    set (w1 := Core.cleanupGuildResources g w) in *. clearbody w1.
    pose proof (same_voice_join ch g w1) as S2.
    destruct (voice_joinVoiceChannel ch g w1) as [cid w2]. cbn [snd] in *.
    set (w3 := match channels_cache guild !! ch with Some _ => _ | None => _ end).
    assert (S3 : same_session w2 w3).
    { unfold w3. destruct (channels_cache guild !! ch) as [c|]; [|done].
      by destruct (channelType c =? 13)%Z. }
    clearbody w3.
    pose proof (same_createAudioPlayer w3) as S4.
    destruct (createAudioPlayer w3) as [pid w4]. cbn [snd] in *.
    pose proof (same_subscribe cid pid w4) as S5.
    assert (H6 : proc_inv (set_players (<[g := pid]>)
                   (set_connections (<[g := cid]>) (subscribe cid pid w4)))).
    { apply proc_inv_add_player; [cbn; rewrite lookup_insert_eq; eauto|].
      apply proc_inv_add_connection.
      eapply proc_inv_same; [exact S5|]. eapply proc_inv_same; [exact S4|].
      eapply proc_inv_same; [exact S3|]. by eapply proc_inv_same. }
    destruct ready; cbn [snd]; [|by apply proc_inv_core_cleanup].
    eapply proc_inv_same; [apply same_setupPlayerListeners|].
    eapply proc_inv_same; [apply same_setupConnectionListeners|].
    eapply proc_inv_same; [apply same_update_connection|]. done.
Qed.

Lemma proc_inv_stopAudio g w : proc_inv w → proc_inv (snd (stopAudio g w)).
Proof.
  intros H. unfold stopAudio. destruct (getPlayer g w) as [[pid p]|]; [|done].
  destruct (status (pstate p)); cbn [snd]; try done; by apply proc_inv_stopCurrentPlayback.
Qed.

Lemma proc_inv_pauseAudio g w : proc_inv w → proc_inv (snd (pauseAudio g w)).
Proof.
  intros H. unfold pauseAudio. destruct (negb _); [done|].
  destruct (getPlayer g w) as [[pid p]|]; [|done].
  destruct (status (pstate p)); cbn [snd]; try done.
  eapply proc_inv_same; [apply same_update_player|done].
Qed.

Lemma proc_inv_resumeAudio g w : proc_inv w → proc_inv (snd (resumeAudio g w)).
Proof.
  intros H. unfold resumeAudio. destruct (negb _); [done|].
  destruct (getPlayer g w) as [[pid p]|]; [|done].
  destruct (status (pstate p)); cbn [snd]; try done.
  eapply proc_inv_same; [apply same_update_player|done].
Qed.

Lemma proc_inv_setVolume g v w : proc_inv w → proc_inv (snd (setVolume g v w)).
Proof.
  intros H. unfold setVolume. cbn [snd].
  assert (H1 : proc_inv (set_volumes (<[g := clampVolume v]>) w)) by (eapply proc_inv_frame; [..|exact H]; done).
  destruct (isPlayerReady _); [|done].
  destruct (getPlayer g _) as [[pid p]|]; [|done].
  eapply proc_inv_same; [apply same_update_player|done].
Qed.

(** After [shutdown] nothing is registered and no process is live. *)
Lemma shutdown_no_live w pid p :
  proc_inv w → procHeap (Core.shutdown w) !! pid = Some p → live p = false.
Proof.
  intros H Hp. unfold Core.shutdown in Hp. cbn in Hp.
  destruct (torn_foldl_all (λ w' g, Core.cleanupGuildResources g w')
              (map fst (map_to_list (connections w))) w) as (G & HG & Hall).
  { intros w' a. apply torn_core_cleanup. }
  pose proof (proc_inv_torn _ _ _ H HG) as [I1 I2 I3 I4 I5].
  destruct (live p) eqn:Hl; [|done].
  destruct (I3 _ _ Hp Hl) as [k Hk].
  assert (Hc : is_Some (connections
     (foldl (λ w' g, Core.cleanupGuildResources g w') w
            (map fst (map_to_list (connections w)))) !! k)) by eauto.
  rewrite (t_connections _ _ _ _ HG) in Hc. case_decide as HkG; [by destruct Hc|].
  destruct Hc as [cid Hc]. destruct HkG. apply Hall.
  apply list_elem_of_fmap. exists (k, cid). split; [done|].
  by apply elem_of_map_to_list.
Qed.

Lemma proc_inv_shutdown w : proc_inv w → proc_inv (Core.shutdown w).
Proof.
  intros H. split.
  - intros g pid Hg. cbn in Hg. by rewrite lookup_empty in Hg.
  - intros g g' pid Hg. cbn in Hg. by rewrite lookup_empty in Hg.
  - intros pid p Hp Hl. by rewrite (shutdown_no_live w pid p H Hp) in Hl.
  - intros g [? Hg]. cbn in Hg. by rewrite lookup_empty in Hg.
  - intros g [? Hg]. cbn in Hg. by rewrite lookup_empty in Hg.
Qed.

Lemma proc_inv_player_idle pid w : proc_inv w → proc_inv (Core.player_idle pid w).
Proof.
  intros H. unfold Core.player_idle. destruct (playerHeap w !! pid) as [p|]; [|done].
  destruct (pstate p); try done;
    (apply foldl_preserves; [intros; by apply proc_inv_idleListener|];
     eapply proc_inv_same; [apply same_update_player|done]).
Qed.

Lemma proc_inv_player_error pid w : proc_inv w → proc_inv (Core.player_error pid w).
Proof.
  intros H. unfold Core.player_error. destruct (playerHeap w !! pid) as [p|]; [|done].
  apply foldl_preserves; [intros; by apply proc_inv_errorListener|done].
Qed.

Lemma proc_inv_connection_disconnected cid r w :
  proc_inv w → proc_inv (Core.connection_disconnected cid r w).
Proof.
  intros H. unfold Core.connection_disconnected.
  destruct (connHeap w !! cid) as [c|]; [|done].
  destruct (is_destroyed (cstatus c)); [done|].
  assert (H2 : proc_inv (foldl (λ w' g, Core.disconnectedListener r g w')
                (update_connection cid (conn_set_status Disconnected) w) (clisteners c))).
  { apply foldl_preserves.
    - intros w' g Hw'. unfold Core.disconnectedListener.
      destruct r; [done|by apply proc_inv_core_cleanup].
    - eapply proc_inv_same; [apply same_update_connection|done]. }
  destruct r; [|done]. eapply proc_inv_same; [apply same_update_connection|done].
Qed.

Lemma proc_inv_connection_destroyed cid w :
  proc_inv w → proc_inv (Core.connection_destroyed cid w).
Proof.
  intros H. unfold Core.connection_destroyed.
  destruct (connHeap w !! cid) as [c|]; [|done].
  destruct (is_destroyed (cstatus c)); [done|].
  apply foldl_preserves.
  - intros w' g Hw'. by apply proc_inv_core_cleanup.
  - eapply proc_inv_same; [apply same_mark_destroyed|done].
Qed.

Lemma proc_inv_restartRadio g now w : proc_inv w → proc_inv (Core.restartRadio g now w).
Proof.
  intros H. unfold Core.restartRadio. destruct (currentStreams w !! g) as [[]|]; try done.
  rewrite playRadio_play_with. by apply proc_inv_play_with.
Qed.

Lemma proc_inv_fireTimer n now w : proc_inv w → proc_inv (Core.fireTimer n now w).
Proof.
  intros H. unfold Core.fireTimer. destruct (timers w !! n) as [t|]; [|done].
  assert (H1 : proc_inv (set_timers (delete n) w)) by (eapply proc_inv_frame; [..|exact H]; done).
  destruct (callback t); [by apply proc_inv_restartRadio|by apply proc_inv_forceKill|done].
Qed.

Lemma proc_inv_run a w : proc_inv w → proc_inv (run a w).
Proof.
  intros H. destruct a; cbn [run].
  - by apply proc_inv_join.
  - by apply proc_inv_core_cleanup.
  - rewrite playRadio_play_with. by apply proc_inv_play_with.
  - rewrite playQuran_play_with. by apply proc_inv_play_with.
  - by apply proc_inv_pauseAudio.
  - by apply proc_inv_resumeAudio.
  - by apply proc_inv_stopAudio.
  - by apply proc_inv_setVolume.
  - by apply proc_inv_setVolume.
  - by apply proc_inv_setVolume.
  - by apply proc_inv_shutdown.
  - eapply proc_inv_same; [apply same_engine_playing|done].
  - by apply proc_inv_player_idle.
  - by apply proc_inv_player_error.
  - by apply proc_inv_connection_disconnected.
  - by apply proc_inv_connection_destroyed.
  - by apply proc_inv_process_exit.
  - by apply proc_inv_fireTimer.
Qed.


Lemma reachable_ind_run (P : World → Prop) :
  P emptyWorld → (∀ a w, P w → P (run a w)) → ∀ w, reachable w → P w.
Proof.
  intros H0 Hs w [l ->]. unfold runs. by apply foldl_preserves; [intros; apply Hs|].
Qed.

Lemma reachable_proc_inv w : reachable w → proc_inv w.
Proof. apply reachable_ind_run; [apply proc_inv_empty|intros; by apply proc_inv_run]. Qed.

End RunInvariant.

(** ** The table of volumes along a run *)

Section VolumeTable.
Implicit Types (w : World) (g : guildId).

Lemma same_volumes w w' : same_session w w' → volumes w' = volumes w.
Proof. by intros (_&_&_&_&?&_). Qed.

Lemma volumes_core_cleanup g w : volumes (Core.cleanupGuildResources g w) = volumes w.
Proof. apply (cl_volumes _ _ (cleans_core_cleanup g w)). Qed.

Lemma volumes_legacy_cleanup g w : volumes (Legacy.cleanupGuildResources g w) = volumes w.
Proof. apply (cl_volumes _ _ (cleans_legacy_cleanup g w)). Qed.

Lemma volumes_cleanupFFmpeg g w : volumes (cleanupFFmpeg g w) = volumes w.
Proof. apply (cl_volumes _ _ (cleans_cleanupFFmpeg g w)). Qed.

Lemma volumes_stopCurrentPlayback g w : volumes (stopCurrentPlayback g w) = volumes w.
Proof. by destruct (stopCurrentPlayback_frame g w) as (_&_&_&_&?&_). Qed.

Lemma volumes_foldl {A} (f : World → A → World) l w :
  (∀ w a, volumes (f w a) = volumes w) → volumes (foldl f w l) = volumes w.
Proof.
  intros Hf. apply (foldl_preserves (λ w', volumes w' = volumes w)); [|done].
  intros w' a <-. apply Hf.
Qed.

Lemma volumes_play_with g url d w : volumes (snd (play_with g url d w)) = volumes w.
Proof.
  destruct (getPlayer g w) as [[pid p]|] eqn:Hg.
  - destruct (play_with_spec g url d w pid p Hg) as (w' & -> & _ & _ & Hv & _). done.
  - rewrite play_with_no_player by done. apply volumes_cleanupFFmpeg.
Qed.

Lemma volumes_idleListener g w : volumes (idleListener g w) = volumes w.
Proof.
  unfold idleListener. destruct (currentStreams w !! g) as [[]|]; [done| |done].
  by rewrite volumes_cleanupFFmpeg.
Qed.

Lemma volumes_errorListener g w : volumes (errorListener g w) = volumes w.
Proof.
  unfold errorListener.
  destruct (currentStreams w !! g) as [[]|]; [done|..]; by rewrite volumes_cleanupFFmpeg.
Qed.

Lemma volumes_join g ch guild ready w :
  volumes (snd (Core.joinVoiceChannel g ch guild ready w)) = volumes w.
Proof.
  unfold Core.joinVoiceChannel.
  destruct (Core.validateChannel ch guild) as [[]|e]; cbn [snd];
    [|apply volumes_core_cleanup].
  destruct (Core.reusableConnection g ch w) as [cid|].
  - set (w1 := match connections w !! g with Some _ => w | None => _ end).
    assert (H1 : volumes w1 = volumes w).
    { unfold w1. by destruct (connections w !! g). }
    clearbody w1.
    destruct (getPlayer g w1) as [[pid p]|]; [done|].
    pose proof (same_volumes _ _ (same_createAudioPlayer w1)) as S2.
    destruct (createAudioPlayer w1) as [pid w2]. cbn [snd] in *.
    rewrite (same_volumes _ _ (same_setupPlayerListeners _ _ _)). cbn.
    rewrite (same_volumes _ _ (same_subscribe _ _ _)). congruence.
  - pose proof (volumes_core_cleanup g w) as H1.
    set (w1 := Core.cleanupGuildResources g w) in *. clearbody w1.
    pose proof (same_volumes _ _ (same_voice_join ch g w1)) as S2.
    destruct (voice_joinVoiceChannel ch g w1) as [cid w2]. cbn [snd] in *.
    set (w3 := match channels_cache guild !! ch with Some _ => _ | None => _ end).
    assert (S3 : volumes w3 = volumes w2).
    { unfold w3. destruct (channels_cache guild !! ch) as [c|]; [|done].
      by destruct (channelType c =? 13)%Z. }
    clearbody w3.
    pose proof (same_volumes _ _ (same_createAudioPlayer w3)) as S4.
    destruct (createAudioPlayer w3) as [pid w4]. cbn [snd] in *.
    pose proof (same_volumes _ _ (same_subscribe cid pid w4)) as S5.
    destruct ready; cbn [snd].
    + rewrite (same_volumes _ _ (same_setupPlayerListeners _ _ _)).
      rewrite (same_volumes _ _ (same_setupConnectionListeners _ _ _)).
      rewrite (same_volumes _ _ (same_update_connection _ _ _)). cbn. congruence.
    + rewrite volumes_core_cleanup. cbn. congruence.
Qed.

Lemma volumes_pauseAudio g w : volumes (snd (pauseAudio g w)) = volumes w.
Proof.
  unfold pauseAudio. destruct (negb _); [done|].
  destruct (getPlayer g w) as [[pid p]|]; [|done].
  destruct (status (pstate p)); cbn [snd]; try done.
  apply same_volumes, same_update_player.
Qed.

Lemma volumes_resumeAudio g w : volumes (snd (resumeAudio g w)) = volumes w.
Proof.
  unfold resumeAudio. destruct (negb _); [done|].
  destruct (getPlayer g w) as [[pid p]|]; [|done].
  destruct (status (pstate p)); cbn [snd]; try done.
  apply same_volumes, same_update_player.
Qed.

Lemma volumes_stopAudio g w : volumes (snd (stopAudio g w)) = volumes w.
Proof.
  unfold stopAudio. destruct (getPlayer g w) as [[pid p]|]; [|done].
  destruct (status (pstate p)); cbn [snd]; try done; apply volumes_stopCurrentPlayback.
Qed.

Lemma volumes_player_idle pid w : volumes (Core.player_idle pid w) = volumes w.
Proof.
  unfold Core.player_idle. destruct (playerHeap w !! pid) as [p|]; [|done].
  destruct (pstate p); try done;
    (rewrite volumes_foldl by (intros; apply volumes_idleListener);
     apply same_volumes, same_update_player).
Qed.

Lemma volumes_player_error pid w : volumes (Core.player_error pid w) = volumes w.
Proof.
  unfold Core.player_error. destruct (playerHeap w !! pid) as [p|]; [|done].
  by rewrite volumes_foldl by (intros; apply volumes_errorListener).
Qed.

Lemma volumes_connection_disconnected cid r w :
  volumes (Core.connection_disconnected cid r w) = volumes w.
Proof.
  unfold Core.connection_disconnected.
  destruct (connHeap w !! cid) as [c|]; [|done].
  destruct (is_destroyed (cstatus c)); [done|].
  assert (H2 : volumes (foldl (λ w' g, Core.disconnectedListener r g w')
                (update_connection cid (conn_set_status Disconnected) w) (clisteners c))
               = volumes w).
  { rewrite volumes_foldl; [apply same_volumes, same_update_connection|].
    intros w' g. unfold Core.disconnectedListener.
    destruct r; [done|apply volumes_core_cleanup]. }
  destruct r; [|done]. by rewrite (same_volumes _ _ (same_update_connection _ _ _)).
Qed.

Lemma volumes_connection_destroyed cid w :
  volumes (Core.connection_destroyed cid w) = volumes w.
Proof.
  unfold Core.connection_destroyed.
  destruct (connHeap w !! cid) as [c|]; [|done].
  destruct (is_destroyed (cstatus c)); [done|].
  rewrite volumes_foldl; [apply same_volumes, same_mark_destroyed|].
  intros w' g. apply volumes_core_cleanup.
Qed.

Lemma volumes_forceKill pid w : volumes (forceKill pid w) = volumes w.
Proof.
  unfold forceKill, kill. destruct (procHeap w !! pid) as [p|]; [|done].
  by destruct (negb (killed p)).
Qed.

Lemma volumes_fireTimer n now w : volumes (Core.fireTimer n now w) = volumes w.
Proof.
  unfold Core.fireTimer. destruct (timers w !! n) as [t|]; [|done].
  destruct (callback t); [|by rewrite volumes_forceKill|done].
  unfold Core.restartRadio. cbn [currentStreams set_timers].
  destruct (currentStreams w !! g) as [[]|]; try done.
  rewrite playRadio_play_with. by rewrite volumes_play_with.
Qed.

Lemma volumes_process_exit pid w : volumes (process_exit pid w) = volumes w.
Proof. unfold process_exit. by destruct (procHeap w !! pid). Qed.

(** What a step does to the table of volumes: nothing, or it stores one
    clamped value, or (shutdown) it empties the table. *)
Lemma volumes_run a w :
  match a with
  | CallSetVolume g v => volumes (run a w) = <[g := clampVolume v]> (volumes w)
  | CallIncreaseVolume g =>
    volumes (run a w) =
      <[g := clampVolume (getVolume g w + AUDIO_CONFIG.VOLUME_STEP)]> (volumes w)
  | CallDecreaseVolume g =>
    volumes (run a w) =
      <[g := clampVolume (getVolume g w - AUDIO_CONFIG.VOLUME_STEP)]> (volumes w)
  | CallShutdown => volumes (run a w) = ∅
  | _ => volumes (run a w) = volumes w
  end.
Proof.
  destruct a; cbn [run].
  - apply volumes_join.
  - apply volumes_core_cleanup.
  - rewrite playRadio_play_with. apply volumes_play_with.
  - rewrite playQuran_play_with. apply volumes_play_with.
  - apply volumes_pauseAudio.
  - apply volumes_resumeAudio.
  - apply volumes_stopAudio.
  - apply setVolume_volumes.
  - apply setVolume_volumes.
  - apply setVolume_volumes.
  - done.
  - apply same_volumes, same_engine_playing.
  - apply volumes_player_idle.
  - apply volumes_player_error.
  - apply volumes_connection_disconnected.
  - apply volumes_connection_destroyed.
  - apply volumes_process_exit.
  - apply volumes_fireTimer.
Qed.

Lemma volumes_ok_insert g v w w' :
  volumes w' = <[g := clampVolume v]> (volumes w) → volumes_ok w → volumes_ok w'.
Proof.
  intros E H k x. rewrite E, lookup_insert. case_decide; [|apply H].
  intros [= <-]. apply clampVolume_ok.
Qed.

Lemma volumes_ok_run a w : volumes_ok w → volumes_ok (run a w).
Proof.
  intros H. pose proof (volumes_run a w) as E.
  destruct a; try (by eapply volumes_ok_same); by eapply volumes_ok_insert.
Qed.

Lemma reachable_volumes_ok w : reachable w → volumes_ok w.
Proof.
  apply reachable_ind_run; [|intros; by apply volumes_ok_run].
  intros k x Hk. cbn in Hk. by rewrite lookup_empty in Hk.
Qed.
End VolumeTable.

(** ** One transcoder per guild *)

Section OneTranscoder.
Implicit Types (w : World) (g : guildId).

Lemma stopCurrentPlayback_not_live g w pid p :
  procHeap w !! pid = Some p → live p = false →
  ∃ p', procHeap (stopCurrentPlayback g w) !! pid = Some p' ∧ live p' = false.
Proof.
  intros Hp Hl. unfold stopCurrentPlayback.
  set (w1 := match getPlayer g w with Some _ => _ | None => _ end).
  assert (Hh : procHeap (set_currentStreams (delete g) w1) = procHeap w).
  { unfold w1, update_player. destruct (getPlayer g w) as [[i q]|]; [|done].
    by destruct (playerHeap w !! i). }
  eapply cleans_not_live; [apply cleans_cleanupFFmpeg| |exact Hl]. by rewrite Hh.
Qed.

Lemma play_with_not_live g url d w pid p :
  procHeap w !! pid = Some p → live p = false →
  ∃ p', procHeap (snd (play_with g url d w)) !! pid = Some p' ∧ live p' = false.
Proof.
  intros Hp Hl. destruct (getPlayer g w) as [[i q]|] eqn:Hg.
  - destruct (play_with_spec g url d w i q Hg)
      as (w' & -> & _ & _ & _ & _ & _ & _ & _ & _ & _ & Hh & _).
    cbn [snd]. rewrite Hh.
    destruct (stopCurrentPlayback_not_live g w pid p Hp Hl) as (p' & Hp' & Hl').
    exists p'. split; [|done]. rewrite lookup_app_l; [done|by eapply lookup_lt_Some].
  - rewrite play_with_no_player by done. cbn [snd].
    eapply cleans_not_live; [apply cleans_cleanupFFmpeg|done..].
Qed.

(** What one successful play call leaves behind. *)
Lemma play_with_processes g url d w pid p :
  getPlayer g w = Some (pid, p) →
  let w' := snd (play_with g url d w) in
  fst (play_with g url d w) = Return true ∧
  ffmpegProcesses w' !! g = Some (length (procHeap w)) ∧
  procHeap w' !! length (procHeap w) =
    Some {| spawnUrl := url; killed := false; exited := false |} ∧
  length (procHeap w') = S (length (procHeap w)) ∧
  (∃ q, getPlayer g w' = Some (pid, q)) ∧
  (∀ old p0, ffmpegProcesses w !! g = Some old → procHeap w !! old = Some p0 →
     ∃ p', procHeap w' !! old = Some p' ∧ live p' = false).
Proof.
  intros Hg.
  destruct (play_with_spec g url d w pid p Hg)
    as (w' & E & _ & _ & _ & _ & _ & _ & _ & _ & Hf & Hh & _ & Hg').
  destruct (stopCurrentPlayback_frame g w) as (_&_&_&_&_&_&_&_&_&_&Hl).
  destruct (stopCurrentPlayback_released g w) as (_ & _ & Hrel).
  rewrite E. cbn [fst snd]. rewrite Hf, Hh. repeat split.
  - by rewrite lookup_insert_eq.
  - rewrite lookup_app_r by (rewrite Hl; lia). by rewrite Hl, Nat.sub_diag.
  - rewrite length_app, Hl. cbn. lia.
  - eauto.
  - intros old p0 Ho Hp0. destruct (Hrel old p0 Ho Hp0) as (p' & Hp' & Hl').
    exists p'. split; [|done]. rewrite lookup_app_l; [done|by eapply lookup_lt_Some].
Qed.
End OneTranscoder.

(** C1. In every state the manager can reach, a live transcoder is the one
    registered for exactly one guild, so a guild has at most one; and two
    successive play calls for a guild with a session both succeed and leave
    the second call's process registered and live, while the first call's
    process and the one registered before are no longer live. *)
Theorem one_live_transcoder_per_guild g req1 req2 now1 now2 w :
  reachable w → is_Some (getPlayer g w) →
  let r1 := play_stream g req1 now1 w in
  let r2 := play_stream g req2 now2 (snd r1) in
  let first := length (procHeap w) in
  let second := S (length (procHeap w)) in
  (∀ w0, reachable w0 → ∀ pid p, procHeap w0 !! pid = Some p → live p = true →
     ∃ g0, ffmpegProcesses w0 !! g0 = Some pid ∧
           ∀ g1, ffmpegProcesses w0 !! g1 = Some pid → g1 = g0) ∧
  reachable (snd r2) ∧
  fst r1 = Return true ∧ fst r2 = Return true ∧
  ffmpegProcesses (snd r1) !! g = Some first ∧
  ffmpegProcesses (snd r2) !! g = Some second ∧
  procHeap (snd r2) !! second =
    Some {| spawnUrl := request_url req2; killed := false; exited := false |} ∧
  (∃ p1, procHeap (snd r2) !! first = Some p1 ∧ live p1 = false) ∧
  (∀ old, ffmpegProcesses w !! g = Some old →
     ∃ p0, procHeap (snd r2) !! old = Some p0 ∧ live p0 = false).
Proof.
  intros Hr [[pid p] Hg]. cbn zeta. rewrite !play_stream_play_with.
  set (u1 := request_url req1). set (d1 := request_descriptor req1 now1).
  set (u2 := request_url req2). set (d2 := request_descriptor req2 now2).
  destruct (play_with_processes g u1 d1 w pid p Hg) as (R1 & F1 & P1 & L1 & [q Hg1] & O1).
  set (w1 := snd (play_with g u1 d1 w)) in *.
  destruct (play_with_processes g u2 d2 w1 pid q Hg1) as (R2 & F2 & P2 & L2 & _ & O2).
  rewrite L1 in F2, P2.
  split; [|split; [|repeat split; try done]].
  - intros w0 H0 i x Hx Hl. destruct (reachable_proc_inv w0 H0) as [_ I2 I3 _ _].
    destruct (I3 i x Hx Hl) as [g0 Hg0]. exists g0. split; [done|].
    intros g1 Hg1'. by eapply I2.
  - destruct Hr as [l ->].
    assert (Hrun : ∀ req now w0, snd (play_with g (request_url req) (request_descriptor req now) w0)
                   = run (match req with
                          | RadioRequest url si => CallPlayRadio g url si now
                          | QuranRequest url s r m => CallPlayQuran g url s r m now
                          end) w0).
    { by intros [] ? ?. }
    unfold w1, u1, d1, u2, d2. rewrite !Hrun.
    eexists (l ++ [_; _]). unfold runs. rewrite foldl_app. reflexivity.
  - by apply (O2 _ _ F1 P1).
  - intros old Ho. destruct (reachable_proc_inv w Hr) as [I1 _ _ _ _].
    destruct (lookup_lt_is_Some_2 _ _ (I1 _ _ Ho)) as [p0 Hp0].
    destruct (O1 old p0 Ho Hp0) as (p' & Hp' & Hl').
    by apply (play_with_not_live g u2 d2 w1 old p').
Qed.

Lemma one_live_transcoder_per_guild_witness :
  ffmpegProcesses
    (snd (play_stream "g" (QuranRequest "https://server/001.mp3" "Al-Fatiha" "reciter" ∅) 1
       (snd (play_stream "g" (RadioRequest "https://stream.radiojar.com/8s5u5tpdtwzuv" ∅) 0
               joinedWorld)))) !! "g" = Some 1.
Proof.
  refine (proj1 (proj2 (proj2 (proj2 (proj2 (proj2
    (one_live_transcoder_per_guild "g"
       (RadioRequest "https://stream.radiojar.com/8s5u5tpdtwzuv" ∅)
       (QuranRequest "https://server/001.mp3" "Al-Fatiha" "reciter" ∅) 0 1 joinedWorld
       _ _))))))).
  - by exists [CallJoin "g" "c1" guildA true].
  - vm_compute. eauto.
Defined.

(** ** Connections and teardown *)

Section Connections.
Implicit Types (w : World) (g : guildId).

Lemma update_connection_other cid f w i :
  i ≠ cid → connHeap (update_connection cid f w) !! i = connHeap w !! i.
Proof.
  intros Hne. unfold update_connection. destruct (connHeap w !! cid); [|done].
  cbn. by rewrite list_lookup_insert_ne.
Qed.

Lemma update_connection_at cid f w c :
  connHeap w !! cid = Some c → connHeap (update_connection cid f w) !! cid = Some (f c).
Proof.
  intros Hc. unfold update_connection. rewrite Hc. cbn.
  rewrite list_lookup_insert_eq; [done|by eapply lookup_lt_Some].
Qed.

Lemma update_connection_length cid f w :
  length (connHeap (update_connection cid f w)) = length (connHeap w).
Proof.
  unfold update_connection. destruct (connHeap w !! cid); [|done].
  cbn. by rewrite length_insert.
Qed.

Lemma update_connection_maps cid f w :
  connections (update_connection cid f w) = connections w ∧
  players (update_connection cid f w) = players w ∧
  voiceConnections (update_connection cid f w) = voiceConnections w ∧
  playerHeap (update_connection cid f w) = playerHeap w ∧
  timers (update_connection cid f w) = timers w ∧
  connectionListeners (update_connection cid f w) = connectionListeners w ∧
  playerListeners (update_connection cid f w) = playerListeners w.
Proof. unfold update_connection. by destruct (connHeap w !! cid). Qed.

(** The library's join: the connection it returns exists, is on the
    channel asked for and is not destroyed; destroyed connections are
    left alone; at most one connection is added, and then it is the one
    returned. *)
Lemma voice_join_spec ch g w :
  let cid := fst (voice_joinVoiceChannel ch g w) in
  let w' := snd (voice_joinVoiceChannel ch g w) in
  (∃ c, connHeap w' !! cid = Some c ∧ joinConfig_channelId c = ch ∧
        is_destroyed (cstatus c) = false) ∧
  (∀ i x, connHeap w !! i = Some x → is_destroyed (cstatus x) = true →
          i ≠ cid ∧ connHeap w' !! i = Some x) ∧
  (length (connHeap w') = length (connHeap w) ∨
   (cid = length (connHeap w) ∧ length (connHeap w') = S (length (connHeap w)))).
Proof.
  unfold voice_joinVoiceChannel, getVoiceConnection.
  assert (Hfresh : ∀ (h : list VoiceConnection) c0,
    (∃ c, (h ++ [c0]) !! length h = Some c ∧ c = c0) ∧
    (∀ i x, h !! i = Some x → i ≠ length h ∧ (h ++ [c0]) !! i = Some x)).
  { intros h c0. split.
    - exists c0. rewrite lookup_app_r by lia. by rewrite Nat.sub_diag.
    - intros i x Hi. pose proof (lookup_lt_Some _ _ _ Hi).
      split; [lia|]. by rewrite lookup_app_l. }
  assert (Hf : ∀ c0, joinConfig_channelId c0 = ch → is_destroyed (cstatus c0) = false →
    let w' := set_voiceConnections (<[g := length (connHeap w)]>)
                (set_connHeap (λ h, h ++ [c0]) w) in
    (∃ c, connHeap w' !! length (connHeap w) = Some c ∧ joinConfig_channelId c = ch ∧
          is_destroyed (cstatus c) = false) ∧
    (∀ i x, connHeap w !! i = Some x → is_destroyed (cstatus x) = true →
            i ≠ length (connHeap w) ∧ connHeap w' !! i = Some x) ∧
    (length (connHeap w') = length (connHeap w) ∨
     (length (connHeap w) = length (connHeap w) ∧
      length (connHeap w') = S (length (connHeap w))))).
  { intros c0 Hch Hd. cbn. destruct (Hfresh (connHeap w) c0) as [(c & Hc & ->) Ho].
    split; [eauto|]. split; [intros i x Hi _; by apply Ho|].
    right. split; [done|]. rewrite length_app. cbn. lia. }
  destruct (voiceConnections w !! g) as [cid|]; [|by apply Hf].
  destruct (connHeap w !! cid) as [c|] eqn:Hc; [|by apply Hf].
  destruct (is_destroyed (cstatus c)) eqn:Hd; [by apply Hf|].
  cbn [fst snd]. split; [|split].
  - eexists. split; [by apply update_connection_at|]. split; [done|].
    destruct (cstatus c) eqn:Hs; cbn; rewrite ?Hs; done.
  - intros i x Hi Hx. assert (i ≠ cid) by (intros ->; congruence).
    split; [done|]. by rewrite update_connection_other.
  - left. apply update_connection_length.
Qed.
End Connections.

Section Teardown.
Implicit Types (w : World) (g : guildId).

Lemma core_cleanup_released g w : released g w (Core.cleanupGuildResources g w).
Proof. apply (cleanup_rec_released _ _ g w core_keeps_connections). Qed.

Lemma legacy_cleanup_released g w : released g w (Legacy.cleanupGuildResources g w).
Proof. apply (cleanup_rec_released _ _ g w legacy_keeps_connections). Qed.

Lemma core_cleanup_listeners g w :
  connectionListeners (Core.cleanupGuildResources g w) !! g = None ∧
  playerListeners (Core.cleanupGuildResources g w) !! g = None.
Proof.
  unfold Core.cleanupGuildResources, cleanupGuildResources_with.
  cbn [cleanupGuildResources_rec].
  set (w1 := Core.cleanupEventListeners g (cleanupFFmpeg g w)).
  set (w2 := match getExistingConnection g w1 with Some _ => _ | None => _ end).
  destruct (cleanupEventListeners_released g (cleanupFFmpeg g w)) as [Hc Hp].
  fold w1 in Hc, Hp.
  assert (H12 : cleans w1 w2).
  { unfold w2. destruct (getExistingConnection g w1) as [cid|]; [|done].
    destruct (connHeap w1 !! cid) as [c|]; [|done].
    destruct (is_destroyed (cstatus c)); [done|].
    etrans; [apply cleans_mark_destroyed|].
    apply cleans_foldl. intros w' g'.
    apply cleans_cleanup_rec, cleans_cleanupEventListeners. }
  assert (H : cleans w1 (clearGuildData g w2)).
  { etrans; [exact H12|apply cleans_clearGuildData]. }
  split; (eapply lookup_weaken_None; [|apply H]); done.
Qed.

Lemma released_hasConnection g w w' : released g w w' → hasConnection g w' = false.
Proof.
  intros (Hc & _). unfold hasConnection. rewrite Hc.
  apply bool_decide_eq_false. by intros [? ?].
Qed.




End Teardown.

(** ** Joining: the path that connects *)

Section Join.
Implicit Types (w : World) (g : guildId).

Lemma validateChannel_ok ch guild :
  Core.validateChannel ch guild = Return () ↔
  ∃ c perms, channels_cache guild !! ch = Some c ∧ channelType c = 2%Z ∧
             permissionsFor_me c = Some perms ∧
             hasConnect perms = true ∧ hasSpeak perms = true.
Proof.
  unfold Core.validateChannel. destruct (channels_cache guild !! ch) as [c|].
  2:{ split; [done|]. by intros (?&?&?&_). }
  destruct (Z.eqb_spec (channelType c) 2) as [Ht|Ht]; cbn.
  2:{ split; [done|]. intros (x&?&Hx&Hx2&_). injection Hx as <-. by destruct Ht. }
  destruct (permissionsFor_me c) as [perms|] eqn:Hp.
  2:{ split; [done|]. intros (x&?&Hx&_&Hx2&_). injection Hx as <-. congruence. }
  destruct (hasConnect perms) eqn:Hc, (hasSpeak perms) eqn:Hs; cbn;
    (split; [try done; intros _; exists c, perms; done|]);
    intros (x&?&Hx&_&Hx2&?&?); injection Hx as <-; congruence.
Qed.

(** The path of [joinVoiceChannel] that builds a connection. *)
Lemma join_new_path g ch guild ready w :
  Core.validateChannel ch guild = Return () →
  Core.reusableConnection g ch w = None →
  let w1 := Core.cleanupGuildResources g w in
  ∃ cid pid w6,
    Core.joinVoiceChannel g ch guild ready w =
      (if ready
       then (Return (cid, pid),
             Core.setupPlayerListeners g pid
               (Core.setupConnectionListeners g cid
                  (update_connection cid (conn_set_status Ready) w6)))
       else (Throw AbortError, Core.cleanupGuildResources g w6)) ∧
    connections w6 = <[g := cid]> (connections w1) ∧
    players w6 = <[g := pid]> (players w1) ∧
    procHeap w6 = procHeap w1 ∧ ffmpegProcesses w6 = ffmpegProcesses w1 ∧
    volumes w6 = volumes w1 ∧ currentStreams w6 = currentStreams w1 ∧
    (∃ c, connHeap w6 !! cid = Some c ∧ joinConfig_channelId c = ch ∧
          is_destroyed (cstatus c) = false) ∧
    (∀ i x, connHeap w1 !! i = Some x → is_destroyed (cstatus x) = true →
            i ≠ cid ∧ connHeap w6 !! i = Some x) ∧
    (length (connHeap w6) = length (connHeap w1) ∨
     (cid = length (connHeap w1) ∧ length (connHeap w6) = S (length (connHeap w1)))) ∧
    pid = length (playerHeap w1) ∧
    playerHeap w6 = playerHeap w1 ++ [{| pstate := IdleState; plisteners := [] |}].
Proof.
  intros Hv Hr w1. unfold Core.joinVoiceChannel. rewrite Hv, Hr. fold w1.
  apply validateChannel_ok in Hv as (c0 & perms & Hc0 & Ht & _).
  rewrite Hc0, Ht. cbn [Z.eqb Pos.eqb].
  destruct (voice_join_spec ch g w1) as ((c & Hc & Hch & Hd) & Hold & Hlen).
  pose proof (same_voice_join ch g w1) as (Sf & Sp & Sc & Sh & Sv & Ss).
  assert (Sph : playerHeap (snd (voice_joinVoiceChannel ch g w1)) = playerHeap w1).
  { unfold voice_joinVoiceChannel, getVoiceConnection.
    destruct (voiceConnections w1 !! g) as [i|]; [|done].
    destruct (connHeap w1 !! i) as [ci|]; [|done].
    destruct (is_destroyed (cstatus ci)); [done|]. apply update_connection_maps. }
  destruct (voice_joinVoiceChannel ch g w1) as [cid w2]. cbn [fst snd] in *.
  unfold createAudioPlayer.
  set (pid := length (playerHeap w2)).
  set (w4 := set_playerHeap _ w2).
  set (w6 := set_players _ (set_connections _ (subscribe cid pid w4))).
  exists cid, pid, w6. split; [by destruct ready|].
  pose proof (same_subscribe cid pid w4) as (Tf & Tp & Tc & Th & Tv & Ts).
  unfold w6. cbn. rewrite Tf, Tp, Tc, Th, Tv, Ts. cbn.
  rewrite Sf, Sp, Sc, Sh, Sv, Ss.
  repeat split; try done.
  - exists (conn_set_subscription pid c). split; [|done].
    unfold subscribe. by apply update_connection_at.
  - eapply Hold; eauto.
  - destruct (Hold i x H H0) as [Hne Hx].
    unfold subscribe. by rewrite update_connection_other.
  - unfold subscribe. rewrite update_connection_length. exact Hlen.
  - unfold pid. by rewrite Sph.
  - unfold subscribe. destruct (update_connection_maps cid (conn_set_subscription pid) w4)
      as (_&_&_&->&_). cbn. by rewrite Sph.
Qed.
End Join.

(** ** Joining: the path that reuses *)

Section JoinOutcome.
Implicit Types (w : World) (g : guildId).

Lemma cleans_conn_length w w' : cleans w w' → length (connHeap w') = length (connHeap w).
Proof. by intros [_ _ _ _ _ _ _ _ _ [? _] _ _]. Qed.

Lemma createAudioPlayer_then_listen g cid w :
  let pid := length (playerHeap w) in
  let w' := Core.setupPlayerListeners g pid
              (set_players (<[g := pid]>) (subscribe cid pid (snd (createAudioPlayer w)))) in
  connections w' = connections w ∧ players w' = <[g := pid]> (players w) ∧
  is_Some (playerHeap w' !! pid) ∧
  connHeap w' = connHeap (update_connection cid (conn_set_subscription pid) w) ∧
  ffmpegProcesses w' = ffmpegProcesses w ∧ procHeap w' = procHeap w ∧
  volumes w' = volumes w ∧ currentStreams w' = currentStreams w.
Proof.
  intros pid w'. unfold createAudioPlayer in w'. cbn [snd] in w'.
  set (w2 := set_playerHeap (λ h, h ++ [{| pstate := IdleState; plisteners := [] |}]) w) in *.
  destruct (same_setupPlayerListeners g pid
              (set_players (<[g := pid]>) (subscribe cid pid w2))) as (A1&A2&A3&A4&A5&A6).
  destruct (same_subscribe cid pid w2) as (B1&B2&B3&B4&B5&B6).
  fold w' in A1, A2, A3, A4, A5, A6.
  assert (Hl : playerHeap (subscribe cid pid w2) !! pid =
               Some {| pstate := IdleState; plisteners := [] |}).
  { unfold subscribe.
    destruct (update_connection_maps cid (conn_set_subscription pid) w2) as (_&_&_&->&_).
    cbn. rewrite lookup_app_r by (unfold pid; lia).
    unfold pid. by rewrite Nat.sub_diag. }
  split_and!.
  - rewrite A3. cbn. by rewrite B3.
  - rewrite A2. cbn. by rewrite B2.
  - unfold w', Core.setupPlayerListeners. cbn. rewrite Hl. cbn.
    apply lookup_lt_is_Some. rewrite length_insert. by eapply lookup_lt_Some.
  - unfold w', Core.setupPlayerListeners. cbn. rewrite Hl. cbn.
    unfold subscribe, update_connection, w2. cbn. by destruct (connHeap w !! cid).
  - rewrite A1. cbn. by rewrite B1.
  - rewrite A4. cbn. by rewrite B4.
  - rewrite A5. cbn. by rewrite B5.
  - rewrite A6. cbn. by rewrite B6.
Qed.

(** The path of [joinVoiceChannel] that reuses a connection returns. *)
Lemma join_reuse_path g ch guild ready w cid :
  Core.validateChannel ch guild = Return () →
  Core.reusableConnection g ch w = Some cid →
  ∃ pid, fst (Core.joinVoiceChannel g ch guild ready w) = Return (cid, pid) ∧
    let w' := snd (Core.joinVoiceChannel g ch guild ready w) in
    connections w' !! g = Some cid ∧ players w' !! g = Some pid ∧
    is_Some (playerHeap w' !! pid) ∧
    length (connHeap w') = length (connHeap w) ∧
    (∀ i, i ≠ cid → connHeap w' !! i = connHeap w !! i) ∧
    (∀ c, connHeap w !! cid = Some c →
       ∃ c', connHeap w' !! cid = Some c' ∧ cstatus c' = cstatus c ∧
             joinConfig_channelId c' = joinConfig_channelId c ∧
             clisteners c' = clisteners c) ∧
    ffmpegProcesses w' = ffmpegProcesses w ∧ procHeap w' = procHeap w ∧
    volumes w' = volumes w ∧ currentStreams w' = currentStreams w ∧
    (connections w !! g = Some cid → is_Some (getPlayer g w) → w' = w).
Proof.
  intros Hv Hr. unfold Core.joinVoiceChannel. rewrite Hv, Hr.
  set (w1 := match connections w !! g with Some _ => w | None => _ end).
  assert (H1 : connections w1 !! g = Some cid ∧ players w1 = players w ∧
               playerHeap w1 = playerHeap w ∧ connHeap w1 = connHeap w ∧
               ffmpegProcesses w1 = ffmpegProcesses w ∧ procHeap w1 = procHeap w ∧
               volumes w1 = volumes w ∧ currentStreams w1 = currentStreams w ∧
               (connections w !! g = Some cid → w1 = w)).
  { unfold Core.reusableConnection, getExistingConnection in Hr. unfold w1.
    destruct (connections w !! g) as [i|] eqn:Hc.
    - destruct (connHeap w !! i); [|done]. destruct (_ && _); by simplify_eq.
    - cbn. by rewrite lookup_insert_eq. }
  destruct H1 as (Hc1g & Hp1 & Hph1 & Hch1 & Hf1 & Hpr1 & Hv1 & Hst1 & Hid1).
  clearbody w1.
  destruct (getPlayer g w1) as [[pid p]|] eqn:Hg1.
  - exists pid. cbn [fst snd]. apply getPlayer_lookup in Hg1 as [Hpl Hheap].
    rewrite Hch1. split_and!; eauto.
  - pose proof (createAudioPlayer_then_listen g cid w1) as Hnew.
    destruct (createAudioPlayer w1) as [pid w2] eqn:Hcp.
    assert (pid = length (playerHeap w1)) as -> by (by injection Hcp).
    cbn [fst snd] in *. cbn zeta in Hnew.
    destruct Hnew as (N1&N2&N3&N4&N5&N6&N7&N8).
    eexists. split; [reflexivity|]. cbn zeta. rewrite N4.
    split_and!.
    + by rewrite N1.
    + by rewrite N2, lookup_insert_eq.
    + done.
    + by rewrite update_connection_length, Hch1.
    + intros i Hi. by rewrite update_connection_other, Hch1.
    + intros c Hc. exists (conn_set_subscription (length (playerHeap w1)) c).
      split; [|done]. apply update_connection_at. congruence.
    + congruence.
    + congruence.
    + congruence.
    + congruence.
    + intros Hcw [[i q] Hgp]. rewrite (Hid1 Hcw) in Hg1. congruence.
Qed.
End JoinOutcome.

(** ** A join that fails *)

Section JoinFailure.
Implicit Types (w : World) (g : guildId).

(** A failed attempt to connect: everything of the guild, old and new,
    is torn down. *)
Lemma join_timeout_released g ch guild w :
  Core.validateChannel ch guild = Return () →
  Core.reusableConnection g ch w = None →
  let w' := snd (Core.joinVoiceChannel g ch guild false w) in
  fst (Core.joinVoiceChannel g ch guild false w) = Throw AbortError ∧
  released g w w' ∧
  connectionListeners w' !! g = None ∧ playerListeners w' !! g = None ∧
  volumes w' = volumes w ∧
  (∀ cid c, connHeap w' !! cid = Some c → length (connHeap w) ≤ cid →
            cstatus c = Destroyed).
Proof.
  intros Hv Hr.
  destruct (join_new_path g ch guild false w Hv Hr)
    as (cid & pid & w6 & -> & Hc6 & Hp6 & Hh6 & Hf6 & Hv6 & Hs6 & (c6 & Hc6' & _ & _)
        & Hold & Hlen & _).
  cbn [fst snd]. cbn zeta.
  set (w1 := Core.cleanupGuildResources g w) in *.
  set (w' := Core.cleanupGuildResources g w6).
  destruct (core_cleanup_released g w) as (_ & _ & _ & _ & Hp1 & Hd1). fold w1 in Hp1, Hd1.
  destruct (core_cleanup_released g w6) as (R1 & R2 & R3 & R4 & R5 & R6).
  fold w' in R1, R2, R3, R4, R5, R6.
  destruct (core_cleanup_listeners g w6) as [L1 L2]. fold w' in L1, L2.
  pose proof (cleans_core_cleanup g w6) as Hcl. fold w' in Hcl.
  pose proof (cleans_core_cleanup g w) as Hcl1. fold w1 in Hcl1.
  assert (Hex6 : getExistingConnection g w6 = Some cid).
  { unfold getExistingConnection. by rewrite Hc6, lookup_insert_eq. }
  split; [done|]. split; [|split_and!; try done].
  - split_and!; try done.
    + intros i p Hi Hp. destruct (Hp1 i p Hi Hp) as (p1 & Hp1' & Hl1).
      rewrite <- Hh6 in Hp1'. exact (cleans_not_live _ _ _ _ Hcl Hp1' Hl1).
    + intros i c Hi Hc. destruct (Hd1 i c Hi Hc) as (c1 & Hc1 & Hs1).
      destruct (Hold i c1 Hc1) as [_ Hc1']; [by rewrite Hs1|].
      exact (cleans_destroyed _ _ _ _ Hcl Hc1' Hs1).
  - rewrite (cl_volumes _ _ Hcl), Hv6. apply (cl_volumes _ _ Hcl1).
  - intros i c Hi Hge.
    pose proof (lookup_lt_Some _ _ _ Hi) as Hlt.
    rewrite (cleans_conn_length _ _ Hcl) in Hlt.
    rewrite <- (cleans_conn_length _ _ Hcl1) in Hge.
    destruct Hlen as [Hlen|[Hcid Hlen]]; [lia|].
    assert (i = cid) as -> by lia.
    destruct (R6 cid c6 Hex6 Hc6') as (c' & Hc' & Hs'). congruence.
Qed.
End JoinFailure.

(** C2. When [joinVoiceChannel] of the unified manager throws, the error
    is that of the cause: an invalid channel, missing Connect or Speak
    permission, or (everything valid, no connection to reuse) the wait for
    Ready timing out.  Whatever the cause, the guild is rolled back: it has
    no entry in any map, [hasConnection] is false, the listeners are
    detached, the transcoder and the connection it had are down, and a
    connection made by the call is destroyed. *)
Theorem join_failure_rolls_back g ch guild ready w e w' :
  Core.joinVoiceChannel g ch guild ready w = (Throw e, w') →
  (channels_cache guild !! ch = None → e = InvalidVoiceChannel) ∧
  (∀ c, channels_cache guild !! ch = Some c → channelType c ≠ 2%Z →
        e = InvalidVoiceChannel) ∧
  (∀ c perms, channels_cache guild !! ch = Some c → channelType c = 2%Z →
        permissionsFor_me c = Some perms →
        hasConnect perms = false ∨ hasSpeak perms = false → e = PermissionDenied) ∧
  (Core.validateChannel ch guild = Return () →
     e = AbortError ∧ ready = false ∧ Core.reusableConnection g ch w = None) ∧
  released g w w' ∧
  hasConnection g w' = false ∧
  connectionListeners w' !! g = None ∧ playerListeners w' !! g = None ∧
  (∀ cid c, connHeap w' !! cid = Some c → length (connHeap w) ≤ cid →
            cstatus c = Destroyed).
Proof.
  intros Hjoin.
  destruct (Core.validateChannel ch guild) as [[]|e0] eqn:Hv.
  - (* the channel is valid: the attempt to connect failed *)
    destruct (Core.reusableConnection g ch w) as [cid|] eqn:Hr.
    { destruct (join_reuse_path g ch guild ready w cid Hv Hr) as (pid & Hret & _).
      rewrite Hjoin in Hret. done. }
    destruct ready.
    { destruct (join_new_path g ch guild true w Hv Hr) as (cid & pid & w6 & E & _).
      rewrite Hjoin in E. done. }
    destruct (join_timeout_released g ch guild w Hv Hr) as (He & Hrel & L1 & L2 & _ & Hnew).
    rewrite Hjoin in He, Hrel, L1, L2, Hnew. cbn [fst snd] in *.
    injection He as ->.
    apply validateChannel_ok in Hv as (c0 & perms0 & Hc0 & Ht0 & Hp0 & Hco & Hsp).
    split_and!; try done.
    + intros Hnone. congruence.
    + intros c Hc Ht. congruence.
    + intros c perms Hc Ht Hp [H|H]; congruence.
    + by eapply released_hasConnection.
  - (* the validation threw *)
    assert (E : Core.joinVoiceChannel g ch guild ready w
                = (Throw e0, Core.cleanupGuildResources g w)).
    { unfold Core.joinVoiceChannel. by rewrite Hv. }
    rewrite E in Hjoin. injection Hjoin as -> <-.
    pose proof (core_cleanup_released g w) as Hrel.
    destruct (core_cleanup_listeners g w) as [L1 L2].
    split_and!; try done.
    + intros Hnone. unfold Core.validateChannel in Hv. rewrite Hnone in Hv. congruence.
    + intros c Hc Ht. unfold Core.validateChannel in Hv. rewrite Hc in Hv.
      destruct (Z.eqb_spec (channelType c) 2); [done|]. cbn in Hv. congruence.
    + intros c perms Hc Ht Hp Hmiss. unfold Core.validateChannel in Hv.
      rewrite Hc, Ht, Hp in Hv. cbn in Hv.
      destruct Hmiss as [H|H]; rewrite H in Hv; cbn in Hv;
        rewrite ?orb_true_r in Hv; congruence.
    + by eapply released_hasConnection.
    + intros cid c Hc Hge. apply lookup_lt_Some in Hc.
      rewrite (cleans_conn_length _ _ (cleans_core_cleanup g w)) in Hc. lia.
Qed.

Lemma join_failure_rolls_back_witness :
  hasConnection "g" (snd (Core.joinVoiceChannel "g" "c1" guildA_muted true playingWorld)) = false.
Proof.
  refine (proj1 (proj2 (proj2 (proj2 (proj2 (proj2
    (join_failure_rolls_back "g" "c1" guildA_muted true playingWorld PermissionDenied
       (snd (Core.joinVoiceChannel "g" "c1" guildA_muted true playingWorld)) _))))))).
  vm_compute. reflexivity.
Defined.

(** ** A join that succeeds *)

Section JoinSuccess.
Implicit Types (w : World) (g : guildId).

Lemma reusableConnection_spec g ch w cid :
  Core.reusableConnection g ch w = Some cid ↔
  getExistingConnection g w = Some cid ∧
  ∃ c, connHeap w !! cid = Some c ∧ joinConfig_channelId c = ch ∧
       cstatus c ≠ Destroyed ∧ cstatus c ≠ Disconnected.
Proof.
  unfold Core.reusableConnection.
  destruct (getExistingConnection g w) as [i|]; [|split; [done|by intros [? _]]].
  destruct (connHeap w !! i) as [c|] eqn:Hc.
  2:{ split; [done|]. intros [[= ->] (c & Hc' & _)]. congruence. }
  destruct (bool_decide_reflect (joinConfig_channelId c = ch)) as [Hch|Hch]; cbn.
  2:{ split; [done|]. intros [[= ->] (c' & Hc' & ? & _)]. congruence. }
  destruct (cstatus c) eqn:Hs; cbn; split;
    try done; try (intros [= <-]; split; [done|]; exists c; rewrite Hs; done);
    intros [[= ->] (c' & Hc' & _ & Hd & Hdis)]; simplify_eq; congruence.
Qed.

Lemma connHeap_setupPlayerListeners g pid w :
  connHeap (Core.setupPlayerListeners g pid w) = connHeap w.
Proof. unfold Core.setupPlayerListeners. cbn. by destruct (playerHeap w !! pid). Qed.

Lemma playerHeap_setupPlayerListeners g pid w p :
  playerHeap w !! pid = Some p →
  playerHeap (Core.setupPlayerListeners g pid w) !! pid =
    Some (player_set_listeners (plisteners p ++ [g]) p).
Proof.
  intros Hp. unfold Core.setupPlayerListeners. cbn. rewrite Hp. cbn.
  rewrite list_lookup_insert_eq; [done|by eapply lookup_lt_Some].
Qed.

(** What a join that builds a connection and sees it Ready leaves. *)
Lemma join_new_ready g ch guild w :
  Core.validateChannel ch guild = Return () →
  Core.reusableConnection g ch w = None →
  let w1 := Core.cleanupGuildResources g w in
  let w' := snd (Core.joinVoiceChannel g ch guild true w) in
  ∃ cid pid c,
    fst (Core.joinVoiceChannel g ch guild true w) = Return (cid, pid) ∧
    connections w' !! g = Some cid ∧ players w' !! g = Some pid ∧
    connHeap w' !! cid = Some c ∧ cstatus c = Ready ∧ joinConfig_channelId c = ch ∧
    playerHeap w' !! pid = Some {| pstate := IdleState; plisteners := [g] |} ∧
    (∀ i x, connHeap w1 !! i = Some x → is_destroyed (cstatus x) = true →
            i ≠ cid ∧ connHeap w' !! i = Some x) ∧
    volumes w' = volumes w ∧ procHeap w' = procHeap w1 ∧
    ffmpegProcesses w' = ffmpegProcesses w1 ∧ currentStreams w' = currentStreams w1.
Proof.
  intros Hv Hr w1.
  destruct (join_new_path g ch guild true w Hv Hr)
    as (cid & pid & w6 & -> & Hc6 & Hp6 & Hh6 & Hf6 & Hv6 & Hs6 & (c6 & Hc6' & Hch6 & _)
        & Hold & Hlen & Hpid & Hph6).
  fold w1 in Hc6, Hp6, Hh6, Hf6, Hv6, Hs6, Hold, Hlen, Hpid, Hph6.
  cbn [fst snd]. cbn zeta.
  set (w7 := update_connection cid (conn_set_status Ready) w6).
  set (w8 := Core.setupConnectionListeners g cid w7).
  set (w9 := Core.setupPlayerListeners g pid w8).
  destruct (same_update_connection cid (conn_set_status Ready) w6) as (A1&A2&A3&A4&A5&A6).
  destruct (same_setupConnectionListeners g cid w7) as (B1&B2&B3&B4&B5&B6).
  destruct (same_setupPlayerListeners g pid w8) as (D1&D2&D3&D4&D5&D6).
  fold w7 in A1, A2, A3, A4, A5, A6. fold w8 in B1, B2, B3, B4, B5, B6.
  fold w9 in D1, D2, D3, D4, D5, D6.
  assert (H7 : connHeap w7 !! cid = Some (conn_set_status Ready c6))
    by (by apply update_connection_at).
  assert (H8 : connHeap w8 = connHeap (update_connection cid
                 (λ c, conn_set_listeners (clisteners c ++ [g]) c) w7))
    by done.
  assert (H9 : connHeap w9 = connHeap w8) by apply connHeap_setupPlayerListeners.
  assert (P8 : playerHeap w8 = playerHeap w6).
  { unfold w8, Core.setupConnectionListeners. cbn.
    destruct (update_connection_maps cid
                (λ c, conn_set_listeners (clisteners c ++ [g]) c) w7) as (_&_&_&->&_).
    apply update_connection_maps. }
  exists cid, pid, (conn_set_listeners (clisteners (conn_set_status Ready c6) ++ [g])
                      (conn_set_status Ready c6)).
  split; [reflexivity|]. split_and!.
  - by rewrite D3, B3, A3, Hc6, lookup_insert_eq.
  - by rewrite D2, B2, A2, Hp6, lookup_insert_eq.
  - rewrite H9, H8. exact (update_connection_at cid _ w7 _ H7).
  - done.
  - done.
  - assert (Hp8 : playerHeap w8 !! pid =
                    Some {| pstate := IdleState; plisteners := [] |}).
    { rewrite P8, Hph6, Hpid, lookup_app_r by lia. by rewrite Nat.sub_diag. }
    unfold w9. by rewrite (playerHeap_setupPlayerListeners _ _ _ _ Hp8).
  - intros i x Hi Hx. destruct (Hold i x Hi Hx) as [Hne H6]. split; [done|].
    rewrite H9, H8, update_connection_other by done.
    unfold w7. by rewrite update_connection_other.
  - rewrite D5, B5, A5, Hv6. apply volumes_core_cleanup.
  - by rewrite D4, B4, A4.
  - by rewrite D1, B1, A1.
  - by rewrite D6, B6, A6.
Qed.

(** With a valid channel and a connection that gets Ready, a join
    succeeds from any state and leaves the guild with a session. *)
Lemma join_ready_succeeds g ch guild w :
  Core.validateChannel ch guild = Return () →
  let w' := snd (Core.joinVoiceChannel g ch guild true w) in
  ∃ cid pid c,
    fst (Core.joinVoiceChannel g ch guild true w) = Return (cid, pid) ∧
    connections w' !! g = Some cid ∧ players w' !! g = Some pid ∧
    is_Some (getPlayer g w') ∧ hasConnection g w' = true ∧
    connHeap w' !! cid = Some c ∧ joinConfig_channelId c = ch ∧
    cstatus c ≠ Destroyed ∧ cstatus c ≠ Disconnected.
Proof.
  intros Hv w'. unfold w'.
  assert (Hhas : ∀ w0 cid, connections w0 !! g = Some cid → hasConnection g w0 = true).
  { intros w0 cid H0. unfold hasConnection. rewrite H0. apply bool_decide_eq_true. eauto. }
  destruct (Core.reusableConnection g ch w) as [cid|] eqn:Hr.
  - destruct (join_reuse_path g ch guild true w cid Hv Hr)
      as (pid & E & Hc & Hp & [p Hph] & _ & _ & Hat & _).
    apply reusableConnection_spec in Hr as (_ & c & Hcw & Hch & Hd & Hdis).
    destruct (Hat c Hcw) as (c' & Hc' & Hs' & Hch' & _).
    exists cid, pid, c'. split_and!; try done; try congruence.
    + unfold getPlayer. rewrite Hp, Hph. eauto.
    + by eapply Hhas.
  - destruct (join_new_ready g ch guild w Hv Hr)
      as (cid & pid & c & E & Hc & Hp & Hcc & Hs & Hch & Hph & _).
    exists cid, pid, c. split_and!; try done.
    + unfold getPlayer. rewrite Hp, Hph. eauto.
    + by eapply Hhas.
    + by rewrite Hs.
    + by rewrite Hs.
Qed.

End JoinSuccess.

(** ** Reuse of a connection; leaving *)

(** C3, as the code has it.  In the unified manager, once the channel has
    passed validation: a connection of the guild on the channel asked for,
    neither Destroyed nor Disconnected, is returned as it is (no connection
    is made, its status, channel and listeners are kept, and with a player
    already there the state does not change at all); any other connection
    of the guild is destroyed, and when the new one gets Ready it is a
    different connection, Ready on the channel asked for. *)
Theorem join_reuses_healthy_connection g ch guild ready w cid c :
  Core.validateChannel ch guild = Return () →
  getExistingConnection g w = Some cid → connHeap w !! cid = Some c →
  let r := Core.joinVoiceChannel g ch guild ready w in
  (joinConfig_channelId c = ch → cstatus c ≠ Destroyed → cstatus c ≠ Disconnected →
     ∃ pid c',
       fst r = Return (cid, pid) ∧ connections (snd r) !! g = Some cid ∧
       length (connHeap (snd r)) = length (connHeap w) ∧
       connHeap (snd r) !! cid = Some c' ∧ cstatus c' = cstatus c ∧
       joinConfig_channelId c' = ch ∧ clisteners c' = clisteners c ∧
       (connections w !! g = Some cid → is_Some (getPlayer g w) → snd r = w)) ∧
  (joinConfig_channelId c ≠ ch ∨ cstatus c = Destroyed ∨ cstatus c = Disconnected →
     (∃ c', connHeap (snd r) !! cid = Some c' ∧ cstatus c' = Destroyed) ∧
     (ready = true →
        ∃ cid' pid c',
          fst r = Return (cid', pid) ∧ cid' ≠ cid ∧
          connections (snd r) !! g = Some cid' ∧
          connHeap (snd r) !! cid' = Some c' ∧ cstatus c' = Ready ∧
          joinConfig_channelId c' = ch)).
Proof.
  intros Hv Hex Hc r. split.
  - intros Hch Hd Hdis.
    assert (Hr : Core.reusableConnection g ch w = Some cid).
    { apply reusableConnection_spec. split; [done|]. by exists c. }
    destruct (join_reuse_path g ch guild ready w cid Hv Hr)
      as (pid & E & Hcw & _ & _ & Hlen & _ & Hat & _ & _ & _ & _ & Hid).
    destruct (Hat c Hc) as (c' & Hc' & Hs' & Hch' & Hl').
    exists pid, c'. split_and!; try done. congruence.
  - intros Hbad.
    assert (Hr : Core.reusableConnection g ch w = None).
    { destruct (Core.reusableConnection g ch w) as [i|] eqn:Hr; [|done].
      apply reusableConnection_spec in Hr as (Hex' & c0 & Hc0 & Hch & Hd & Hdis).
      simplify_eq. by destruct Hbad as [?|[?|?]]. }
    destruct (core_cleanup_released g w) as (_ & _ & _ & _ & _ & Hdest).
    destruct (Hdest cid c Hex Hc) as (c1 & Hc1 & Hs1).
    assert (Hd1 : is_destroyed (cstatus c1) = true) by (by rewrite Hs1).
    destruct ready.
    + destruct (join_new_ready g ch guild w Hv Hr)
        as (cid' & pid & c' & E & Hcw & _ & Hcc & Hs & Hch & _ & Hold & _).
      destruct (Hold cid c1 Hc1 Hd1) as [Hne Hkeep].
      split; [by exists c1|]. intros _. exists cid', pid, c'. split_and!; done.
    + split; [|done].
      destruct (join_timeout_released g ch guild w Hv Hr) as (_ & Hrel & _).
      destruct Hrel as (_ & _ & _ & _ & _ & Hd'). by apply (Hd' cid c).
Qed.

Lemma joinedWorld_connection :
  getExistingConnection "g" joinedWorld = Some 0 ∧
  connHeap joinedWorld !! 0 =
    Some {| joinConfig_guildId := "g"; joinConfig_channelId := "c1"; cstatus := Ready;
            subscription := Some 0; clisteners := ["g"] |}.
Proof. by vm_compute. Qed.

Lemma join_reuses_healthy_connection_witness :
  snd (Core.joinVoiceChannel "g" "c1" guildA true joinedWorld) = joinedWorld.
Proof.
  destruct (join_reuses_healthy_connection "g" "c1" guildA true joinedWorld 0
              {| joinConfig_guildId := "g"; joinConfig_channelId := "c1"; cstatus := Ready;
                 subscription := Some 0; clisteners := ["g"] |})
    as [Hreuse _].
  - vm_compute. reflexivity.
  - vm_compute. reflexivity.
  - vm_compute. reflexivity.
  - destruct Hreuse as (pid & c' & _ & _ & _ & _ & _ & _ & _ & Hid).
    + reflexivity.
    + discriminate.
    + discriminate.
    + apply Hid; vm_compute; eauto.
Defined.

(** C3, where the claim fails.  The older manager tears down a healthy
    connection on the very channel asked for and builds another; and the
    unified manager, asked for that channel after the permission to speak
    there was lost, throws and destroys the healthy connection. *)
Lemma join_rebuilds_healthy_connection :
  (Core.reusableConnection "g" "c1" legacyJoinedWorld = Some 0 ∧
   fst (Legacy.joinVoiceChannel "g" "c1" true legacyJoinedWorld) = Return (1, 1) ∧
   (cstatus <$> connHeap (snd (Legacy.joinVoiceChannel "g" "c1" true legacyJoinedWorld)) !! 0)
     = Some Destroyed) ∧
  (Core.reusableConnection "g" "c1" joinedWorld = Some 0 ∧
   fst (Core.joinVoiceChannel "g" "c1" guildA_muted true joinedWorld) = Throw PermissionDenied ∧
   (cstatus <$> connHeap (snd (Core.joinVoiceChannel "g" "c1" guildA_muted true joinedWorld)) !! 0)
     = Some Destroyed).
Proof. by vm_compute. Qed.

(** ** The listeners of the player *)

Section Listeners.
Implicit Types (w : World) (g : guildId).

Lemma getPlayer_same_heap g w w' :
  players w' = players w → playerHeap w' = playerHeap w → getPlayer g w' = getPlayer g w.
Proof. unfold getPlayer. by intros -> ->. Qed.

(** The resource a play call hands to the player carries the guild's
    stored volume. *)
Lemma play_with_volume g url d w pid p :
  getPlayer g w = Some (pid, p) →
  ∃ q r, getPlayer g (snd (play_with g url d w)) = Some (pid, q) ∧
         pstate q = BufferingState r ∧ rvolume r = Some (getVolume g w) ∧
         status (pstate q) = Buffering.
Proof.
  intros Hg.
  destruct (play_with_spec g url d w pid p Hg)
    as (w' & -> & _ & _ & _ & _ & _ & _ & _ & _ & _ & _ & _ & Hg').
  cbn [snd]. rewrite Hg'. eexists _, _. split; [done|]. done.
Qed.

(** The timer [idleListener] arms for a radio stream, when it fires. *)
Lemma restart_timer_fires g w url si t ms now :
  currentStreams w !! g = Some (RadioStream url si t) →
  is_Some (getPlayer g w) →
  let w' := Core.fireTimer (length (timers w)) now (setTimeout (RestartRadio g) ms w) in
  currentStreams w' !! g = Some (RadioStream url (Some (default ∅ si)) now) ∧
  ffmpegProcesses w' !! g = Some (length (procHeap w)) ∧
  procHeap w' !! length (procHeap w) =
    Some {| spawnUrl := url; killed := false; exited := false |} ∧
  timers w' = timers (stopCurrentPlayback g w).
Proof.
  intros Hs [[pid p] Hg]. unfold Core.fireTimer, setTimeout. cbn [timers set_timers].
  rewrite lookup_app_r by lia. rewrite Nat.sub_diag. cbn [lookup list_lookup callback].
  set (w1 := set_timers _ _).
  assert (Hw1 : w1 = w).
  { unfold w1, set_timers. cbn.
    assert (Hdel : delete (length (timers w))
              (timers w ++ [{| delay := ms; callback := RestartRadio g |}]) = timers w).
    { by rewrite delete_middle, app_nil_r. }
    rewrite Hdel. apply world_eta. }
  rewrite Hw1. unfold Core.restartRadio. rewrite Hs, playRadio_play_with.
  destruct (play_with_spec g url (RadioStream url (Some (default ∅ si)) now) w pid p Hg)
    as (w' & E & _ & _ & _ & _ & _ & _ & _ & Hst & _ & _ & Ht & _).
  destruct (play_with_processes g url (RadioStream url (Some (default ∅ si)) now) w pid p Hg)
    as (_ & Hf & Hp & _).
  rewrite E in *. cbn [snd] in *. rewrite Hst, lookup_insert_eq. done.
Qed.
End Listeners.

(** ** Volume: the claims *)

Section VolumeClaims.
Local Open Scope float_scope.
Import AUDIO_CONFIG.
Implicit Types (w : World) (g : guildId).

Lemma setVolume_getVolume g v w : getVolume g (snd (setVolume g v w)) = clampVolume v.
Proof.
  unfold getVolume. destruct (setVolume_volumes g v w) as [_ ->].
  by rewrite lookup_insert_eq.
Qed.

Lemma volumes_legacy_join g ch ready w :
  volumes (snd (Legacy.joinVoiceChannel g ch ready w)) = volumes w.
Proof.
  unfold Legacy.joinVoiceChannel.
  pose proof (volumes_legacy_cleanup g w) as H1.
  set (w1 := Legacy.cleanupGuildResources g w) in *. clearbody w1.
  pose proof (same_volumes _ _ (same_voice_join ch g w1)) as S2.
  destruct (voice_joinVoiceChannel ch g w1) as [cid w2]. cbn [snd] in *.
  pose proof (same_volumes _ _ (same_createAudioPlayer w2)) as S4.
  destruct (createAudioPlayer w2) as [pid w4]. cbn [snd] in *.
  pose proof (same_volumes _ _ (same_subscribe cid pid w4)) as S5.
  destruct ready; cbn [snd].
  - unfold Legacy.setupPlayerListeners, Legacy.setupConnectionListeners.
    set (w7 := update_connection cid _ (update_connection cid _ _)).
    assert (H7 : volumes w7 = volumes w).
    { unfold w7. rewrite !(same_volumes _ _ (same_update_connection _ _ _)). cbn. congruence. }
    by destruct (playerHeap w7 !! pid).
  - rewrite volumes_legacy_cleanup. cbn. congruence.
Qed.

Lemma volumes_legacy_shutdown w : volumes (Legacy.shutdown w) = volumes w.
Proof.
  unfold Legacy.shutdown. cbn.
  apply volumes_foldl. intros. apply volumes_legacy_cleanup.
Qed.
End VolumeClaims.

(** C7, as the code has it.  Every teardown of one guild's session keeps
    the table of volumes: [cleanupGuildResources], [leaveVoiceChannel], a
    connection lost or destroyed, a join (failed or not), in both
    managers, and the older manager's [shutdown]; a stream started
    afterwards gets the stored volume on its resource.  The unified
    manager's [shutdown] is the exception: it empties the table. *)
Theorem teardown_keeps_volume g w :
  volumes (Core.cleanupGuildResources g w) = volumes w ∧
  volumes (Legacy.cleanupGuildResources g w) = volumes w ∧
  volumes (snd (Core.leaveVoiceChannel g w)) = volumes w ∧
  volumes (snd (Legacy.leaveVoiceChannel g w)) = volumes w ∧
  (∀ cid recovered, volumes (Core.connection_disconnected cid recovered w) = volumes w) ∧
  (∀ cid, volumes (Core.connection_destroyed cid w) = volumes w) ∧
  (∀ ch guild ready, volumes (snd (Core.joinVoiceChannel g ch guild ready w)) = volumes w) ∧
  (∀ ch ready, volumes (snd (Legacy.joinVoiceChannel g ch ready w)) = volumes w) ∧
  volumes (Legacy.shutdown w) = volumes w ∧
  volumes (Core.shutdown w) = ∅ ∧
  (∀ ch guild req now, Core.validateChannel ch guild = Return () →
     let w1 := snd (Core.leaveVoiceChannel g w) in
     let w2 := snd (Core.joinVoiceChannel g ch guild true w1) in
     let w3 := snd (play_stream g req now w2) in
     ∃ pid q r, getPlayer g w3 = Some (pid, q) ∧ pstate q = BufferingState r ∧
                rvolume r = Some (getVolume g w)) ∧
  (∀ ch url now,
     let w1 := snd (Legacy.leaveVoiceChannel g w) in
     let w2 := snd (Legacy.joinVoiceChannel g ch true w1) in
     let w3 := snd (Legacy.playRadio g url now w2) in
     volumes w3 = volumes w ∧
     ∀ pid p, getPlayer g w2 = Some (pid, p) →
       ∃ q r, getPlayer g w3 = Some (pid, q) ∧ pstate q = BufferingState r ∧
              rvolume r = Some (getVolume g w)).
Proof.
  split_and!.
  - apply volumes_core_cleanup.
  - apply volumes_legacy_cleanup.
  - apply volumes_core_cleanup.
  - apply volumes_legacy_cleanup.
  - intros. apply volumes_connection_disconnected.
  - intros. apply volumes_connection_destroyed.
  - intros. apply volumes_join.
  - intros. apply volumes_legacy_join.
  - apply volumes_legacy_shutdown.
  - reflexivity.
  - intros ch guild req now Hv. cbn zeta.
    set (w1 := snd (Core.leaveVoiceChannel g w)).
    destruct (join_ready_succeeds g ch guild w1 Hv) as (cid & pid & c & _ & _ & _ & [[i p] Hg] & _).
    set (w2 := snd (Core.joinVoiceChannel g ch guild true w1)) in *.
    rewrite play_stream_play_with.
    destruct (play_with_volume g (request_url req) (request_descriptor req now) w2 i p Hg)
      as (q & r & H1 & H2 & H3 & _).
    exists i, q, r. split_and!; [done|done|]. rewrite H3. f_equal.
    unfold getVolume, w2. rewrite volumes_join. unfold w1. cbn [snd Core.leaveVoiceChannel].
    by rewrite volumes_core_cleanup.
  - intros ch url now. cbn zeta.
    set (w1 := snd (Legacy.leaveVoiceChannel g w)).
    set (w2 := snd (Legacy.joinVoiceChannel g ch true w1)).
    assert (Hvol : volumes w2 = volumes w).
    { unfold w2. rewrite volumes_legacy_join. apply volumes_legacy_cleanup. }
    rewrite legacy_playRadio_play_with. split.
    + by rewrite volumes_play_with.
    + intros pid p Hg.
      destruct (play_with_volume g url (RadioStream url None now) w2 pid p Hg)
        as (q & r & H1 & H2 & H3 & _).
      exists q, r. split_and!; [done|done|]. rewrite H3. unfold getVolume. by rewrite Hvol.
Qed.

(** C7, where the claim fails: the unified manager's [shutdown] drops the
    volume the guild chose, and the default is what a later stream gets. *)
Lemma shutdown_discards_volume :
  volumes (snd (setVolume "g" 1.5%float joinedWorld)) !! "g" = Some 1.5%float ∧
  volumes (Core.shutdown (snd (setVolume "g" 1.5%float joinedWorld))) !! "g" = None ∧
  getVolume "g" (Core.shutdown (snd (setVolume "g" 1.5%float joinedWorld))) = 1%float.
Proof. by vm_compute. Qed.

(** X1.  The listener of the player's error event: for a radio stream it
    arms one timer of [RETRY_DELAY] (5000 ms) and changes nothing else,
    and the timer, when it fires with the player still there, plays the
    same URL again; for any other guild (a Quran stream, or none) it drops
    the descriptor and the transcoder's entry and signals the process,
    arming nothing but force-kills. *)
Theorem error_listener_policy g w :
  (∀ url si t, currentStreams w !! g = Some (RadioStream url si t) →
     let w' := errorListener g w in
     timers w' = timers w ++ [{| delay := 5000; callback := RestartRadio g |}] ∧
     currentStreams w' = currentStreams w ∧ ffmpegProcesses w' = ffmpegProcesses w ∧
     procHeap w' = procHeap w ∧ playerHeap w' = playerHeap w ∧
     (∀ now, is_Some (getPlayer g w) →
        let w'' := Core.fireTimer (length (timers w)) now w' in
        currentStreams w'' !! g = Some (RadioStream url (Some (default ∅ si)) now) ∧
        ffmpegProcesses w'' !! g = Some (length (procHeap w)) ∧
        procHeap w'' !! length (procHeap w) =
          Some {| spawnUrl := url; killed := false; exited := false |})) ∧
  ((∀ url si t, currentStreams w !! g ≠ Some (RadioStream url si t)) →
     let w' := errorListener g w in
     currentStreams w' !! g = None ∧ ffmpegProcesses w' !! g = None ∧
     (∀ pid p, ffmpegProcesses w !! g = Some pid → procHeap w !! pid = Some p →
               ∃ p', procHeap w' !! pid = Some p' ∧ live p' = false) ∧
     (∃ extra, timers w' = timers w ++ extra ∧ Forall is_force_kill extra) ∧
     volumes w' = volumes w ∧ players w' = players w ∧ connections w' = connections w).
Proof.
  split.
  - intros url si t Hs. cbn zeta. unfold errorListener. rewrite Hs.
    split_and!; try reflexivity.
    intros now Hg.
    destruct (restart_timer_fires g w url si t AUDIO_CONFIG.RETRY_DELAY now Hs Hg)
      as (H1 & H2 & H3 & _).
    split_and!; assumption.
  - intros Hs. cbn zeta.
    set (w0 := set_currentStreams (delete g) w).
    assert (E : errorListener g w = cleanupFFmpeg g w0).
    { unfold errorListener. destruct (currentStreams w !! g) as [[url si t|]|] eqn:E; try done.
      by destruct (Hs url si t). }
    rewrite !E.
    destruct (cleanupFFmpeg_frame g w0) as (Hc & Hp & Hst & Hv & _).
    destruct (cleanupFFmpeg_released g w0) as [Hf Hpr].
    destruct (cleans_cleanupFFmpeg g w0) as [_ _ _ _ _ _ _ _ _ _ _ Ht].
    split_and!.
    + rewrite Hst. unfold w0. cbn. apply lookup_delete_eq.
    + exact Hf.
    + exact Hpr.
    + exact Ht.
    + exact Hv.
    + exact Hp.
    + exact Hc.
Qed.

(** X2.  A play call for a guild without a player, in either manager,
    throws "no player found" for that guild; no process is spawned, no
    descriptor is written and no volume or session entry changes: all it
    has done is [cleanupFFmpeg]. *)
Theorem play_without_player g url si s r m now w :
  getPlayer g w = None →
  Core.playRadio g url si now w = (Throw (NoPlayerFound g), cleanupFFmpeg g w) ∧
  Core.playQuran g url s r m now w = (Throw (NoPlayerFound g), cleanupFFmpeg g w) ∧
  Legacy.playRadio g url now w = (Throw (NoPlayerFound g), cleanupFFmpeg g w) ∧
  Legacy.playQuran g url s r now w = (Throw (NoPlayerFound g), cleanupFFmpeg g w) ∧
  length (procHeap (cleanupFFmpeg g w)) = length (procHeap w) ∧
  ffmpegProcesses (cleanupFFmpeg g w) !! g = None ∧
  currentStreams (cleanupFFmpeg g w) = currentStreams w ∧
  volumes (cleanupFFmpeg g w) = volumes w ∧
  players (cleanupFFmpeg g w) = players w ∧
  connections (cleanupFFmpeg g w) = connections w.
Proof.
  intros Hg.
  rewrite playRadio_play_with, playQuran_play_with, legacy_playRadio_play_with,
    legacy_playQuran_play_with, !play_with_no_player by done.
  destruct (cleanupFFmpeg_frame g w) as (Hc & Hp & Hst & Hv & _ & _ & _ & _ & _ & Hl).
  destruct (cleanupFFmpeg_released g w) as [Hf _].
  split_and!; done.
Qed.

Lemma play_without_player_witness :
  Core.playRadio "g" "u" ∅ 0 emptyWorld = (Throw (NoPlayerFound "g"), cleanupFFmpeg "g" emptyWorld).
Proof.
  refine (proj1 (play_without_player "g" "u" ∅ "s" "r" ∅ 0 emptyWorld _)).
  reflexivity.
Defined.

(** X3.  [restartRadio] of the unified manager never throws.  Without a
    radio descriptor it does nothing.  With one and a player it plays the
    recorded URL with the recorded station again, as a new process, the
    old one being signalled.  With one but no player the descriptor stays
    and only the transcoder's entry goes. *)
Theorem restartRadio_outcomes g now w :
  ((∀ url si t, currentStreams w !! g ≠ Some (RadioStream url si t)) →
     Core.restartRadio g now w = w) ∧
  (∀ url si t pid p,
     currentStreams w !! g = Some (RadioStream url si t) →
     getPlayer g w = Some (pid, p) →
     let w' := Core.restartRadio g now w in
     currentStreams w' !! g = Some (RadioStream url (Some (default ∅ si)) now) ∧
     ffmpegProcesses w' !! g = Some (length (procHeap w)) ∧
     procHeap w' !! length (procHeap w) =
       Some {| spawnUrl := url; killed := false; exited := false |} ∧
     (∀ old p0, ffmpegProcesses w !! g = Some old → procHeap w !! old = Some p0 →
        ∃ p', procHeap w' !! old = Some p' ∧ live p' = false) ∧
     ∃ q r, getPlayer g w' = Some (pid, q) ∧ pstate q = BufferingState r ∧
            rvolume r = Some (getVolume g w)) ∧
  (∀ url si t,
     currentStreams w !! g = Some (RadioStream url si t) → getPlayer g w = None →
     let w' := Core.restartRadio g now w in
     w' = cleanupFFmpeg g w ∧
     currentStreams w' !! g = Some (RadioStream url si t) ∧
     ffmpegProcesses w' !! g = None).
Proof.
  split_and!.
  - intros Hs. unfold Core.restartRadio.
    destruct (currentStreams w !! g) as [[url si t|]|] eqn:E; try done.
    by destruct (Hs url si t).
  - intros url si t pid p Hs Hg. cbn zeta. unfold Core.restartRadio.
    rewrite Hs, playRadio_play_with.
    set (d := RadioStream url (Some (default ∅ si)) now).
    destruct (play_with_spec g url d w pid p Hg)
      as (w' & E & _ & _ & _ & _ & _ & _ & _ & Hst & _).
    destruct (play_with_processes g url d w pid p Hg) as (_ & Hf & Hp & _ & _ & Hold).
    destruct (play_with_volume g url d w pid p Hg) as (q & r & H1 & H2 & H3 & _).
    split_and!.
    + rewrite E in *. cbn [snd]. by rewrite Hst, lookup_insert_eq.
    + exact Hf.
    + exact Hp.
    + exact Hold.
    + by exists q, r.
  - intros url si t Hs Hg. cbn zeta. unfold Core.restartRadio.
    rewrite Hs, playRadio_play_with, play_with_no_player by done. cbn [snd].
    destruct (cleanupFFmpeg_frame g w) as (_ & _ & Hst & _).
    destruct (cleanupFFmpeg_released g w) as [Hf _].
    split_and!; [done| |done]. by rewrite Hst.
Qed.

Section ForceKill.
Implicit Types (w : World) (g : guildId).

Lemma ages_refl w : ages w w.
Proof. split; [eauto|auto]. Qed.

Lemma ages_trans w1 w2 w3 : ages w1 w2 → ages w2 w3 → ages w1 w3.
Proof.
  intros [A1 A2] [B1 B2]. split.
  - intros pid p Hp. destruct (A1 pid p Hp) as (p2 & Hp2 & Hl2).
    destruct (B1 pid p2 Hp2) as (p3 & Hp3 & Hl3). eauto.
  - intros t Ht. destruct (B2 t Ht) as [Ht2|Hok]; [|by right].
    destruct (A2 t Ht2) as [Ht1|Hok]; [by left|right].
    intros pid Hcb. destruct (Hok pid Hcb) as (p2 & Hp2 & Hl2).
    destruct (B1 pid p2 Hp2) as (p3 & Hp3 & Hl3). eauto.
Qed.

Lemma ages_frame w w' : procHeap w' = procHeap w → timers w' = timers w → ages w w'.
Proof. intros Hp Ht. split; rewrite ?Hp, ?Ht; [eauto|auto]. Qed.

Lemma force_kill_ok_ages w w' : ages w w' → force_kill_ok w → force_kill_ok w'.
Proof.
  intros [A1 A2] H t pid Ht Hcb. destruct (A2 t Ht) as [Ht0|Hok]; [|by apply Hok].
  destruct (H t pid Ht0 Hcb) as (p & Hp & Hl).
  destruct (A1 pid p Hp) as (p' & Hp' & Hl'). eauto.
Qed.

Lemma ages_foldl {A} (f : World → A → World) l w :
  (∀ w a, ages w (f w a)) → ages w (foldl f w l).
Proof.
  intros Hf. revert w. induction l as [|a l IH]; intros w; cbn; [apply ages_refl|].
  eapply ages_trans; [apply Hf|apply IH].
Qed.

Lemma ages_update_connection cid f w : ages w (update_connection cid f w).
Proof. apply ages_frame; unfold update_connection; by destruct (connHeap w !! cid). Qed.

Lemma ages_update_player pid f w : ages w (update_player pid f w).
Proof. apply ages_frame; unfold update_player; by destruct (playerHeap w !! pid). Qed.

Lemma ages_set_connections f w : ages w (set_connections f w).
Proof. by apply ages_frame. Qed.

Lemma ages_set_players f w : ages w (set_players f w).
Proof. by apply ages_frame. Qed.

Lemma ages_set_currentStreams f w : ages w (set_currentStreams f w).
Proof. by apply ages_frame. Qed.

Lemma ages_set_volumes f w : ages w (set_volumes f w).
Proof. by apply ages_frame. Qed.

Lemma ages_set_ffmpegProcesses f w : ages w (set_ffmpegProcesses f w).
Proof. by apply ages_frame. Qed.

Lemma ages_set_connectionListeners f w : ages w (set_connectionListeners f w).
Proof. by apply ages_frame. Qed.

Lemma ages_set_playerListeners f w : ages w (set_playerListeners f w).
Proof. by apply ages_frame. Qed.

Lemma ages_set_voiceConnections f w : ages w (set_voiceConnections f w).
Proof. by apply ages_frame. Qed.

Lemma ages_set_connHeap f w : ages w (set_connHeap f w).
Proof. by apply ages_frame. Qed.

Lemma ages_set_playerHeap f w : ages w (set_playerHeap f w).
Proof. by apply ages_frame. Qed.

Ltac ages_peel :=
  repeat first
    [ apply ages_refl
    | eapply ages_trans;
      [|first [ apply ages_set_connections | apply ages_set_players
              | apply ages_set_currentStreams | apply ages_set_volumes
              | apply ages_set_ffmpegProcesses | apply ages_set_connectionListeners
              | apply ages_set_playerListeners | apply ages_set_voiceConnections
              | apply ages_set_connHeap | apply ages_set_playerHeap
              | apply ages_update_connection | apply ages_update_player ]] ].

Lemma ages_kill pid w : ages w (kill pid w).
Proof.
  unfold kill. destruct (procHeap w !! pid) as [p|] eqn:Hp; [|apply ages_refl].
  split; [|auto]. cbn. intros i x Hx. destruct (decide (i = pid)) as [->|Hne].
  - rewrite list_lookup_insert_eq by (by eapply lookup_lt_Some).
    eexists. split; [done|]. intros _. apply kill_process_not_live.
  - rewrite list_lookup_insert_ne by done. eauto.
Qed.

Lemma ages_timer cb ms w :
  (∀ pid, cb = ForceKill pid → ∃ p, procHeap w !! pid = Some p ∧ live p = false) →
  ages w (setTimeout cb ms w).
Proof.
  intros Hcb. split; [eauto|]. cbn. intros t [Ht|Ht]%elem_of_app; [by left|right].
  apply list_elem_of_singleton in Ht as ->. exact Hcb.
Qed.

Lemma ages_cleanupFFmpeg g w : ages w (cleanupFFmpeg g w).
Proof.
  unfold cleanupFFmpeg.
  set (w1 := match ffmpegProcesses w !! g with Some _ => _ | None => _ end).
  assert (H1 : ages w w1).
  { unfold w1. destruct (ffmpegProcesses w !! g) as [pid|]; [|apply ages_refl].
    destruct (procHeap w !! pid) as [p|] eqn:Hp; [|apply ages_refl].
    destruct (negb (killed p)); [|apply ages_refl].
    eapply ages_trans; [apply ages_kill|]. apply ages_timer.
    intros pid' [= <-]. unfold kill. rewrite Hp. cbn.
    rewrite list_lookup_insert_eq by (by eapply lookup_lt_Some).
    eexists. split; [done|]. apply kill_process_not_live. }
  eapply ages_trans; [exact H1|]. apply ages_set_ffmpegProcesses.
Qed.

Lemma ages_cleanupEventListeners g w : ages w (Core.cleanupEventListeners g w).
Proof.
  unfold Core.cleanupEventListeners.
  set (w1 := match connectionListeners w !! g with Some _ => _ | None => _ end).
  assert (H1 : ages w w1).
  { unfold w1. destruct (connectionListeners w !! g); ages_peel. }
  eapply ages_trans; [exact H1|].
  destruct (playerListeners w1 !! g) as [pid|]; [|apply ages_refl].
  destruct (playerHeap w1 !! pid); ages_peel.
Qed.

Lemma ages_mark_destroyed cid w : ages w (mark_destroyed cid w).
Proof.
  unfold mark_destroyed. destruct (connHeap w !! cid) as [c|]; [|apply ages_refl].
  eapply ages_trans; [|apply ages_update_connection].
  unfold untrackVoiceConnection.
  destruct (voiceConnections w !! _); [|apply ages_refl]. case_decide; ages_peel.
Qed.

Lemma ages_cleanup_rec detach depth g w :
  (∀ g w, ages w (detach g w)) →
  ages w (cleanupGuildResources_rec detach depth g w).
Proof.
  intros Hd. revert g w. induction depth as [|d IH]; intros g w; cbn; [apply ages_refl|].
  unfold clearGuildData.
  eapply ages_trans; [|apply ages_set_currentStreams].
  eapply ages_trans; [|apply ages_set_players].
  eapply ages_trans; [|apply ages_set_connections].
  eapply ages_trans; [apply (ages_cleanupFFmpeg g)|].
  eapply ages_trans; [apply (Hd g)|].
  set (w1 := detach g (cleanupFFmpeg g w)).
  destruct (getExistingConnection g w1) as [cid|]; [|apply ages_refl].
  destruct (connHeap w1 !! cid) as [c|]; [|apply ages_refl].
  destruct (is_destroyed (cstatus c)); [apply ages_refl|].
  eapply ages_trans; [apply ages_mark_destroyed|].
  apply ages_foldl. intros w' g'. apply IH.
Qed.

Lemma ages_core_cleanup g w : ages w (Core.cleanupGuildResources g w).
Proof. apply ages_cleanup_rec, ages_cleanupEventListeners. Qed.

Lemma ages_stopCurrentPlayback g w : ages w (stopCurrentPlayback g w).
Proof.
  unfold stopCurrentPlayback.
  eapply ages_trans; [|apply ages_cleanupFFmpeg].
  eapply ages_trans; [|apply ages_set_currentStreams].
  destruct (getPlayer g w) as [[pid p]|]; [apply ages_update_player|apply ages_refl].
Qed.

Lemma ages_play_with g url d w : ages w (snd (play_with g url d w)).
Proof.
  unfold play_with. destruct (getPlayer g w) as [[pid p]|]; [|apply ages_cleanupFFmpeg].
  unfold spawn. cbn [snd].
  eapply ages_trans; [apply (ages_stopCurrentPlayback g)|].
  set (w1 := stopCurrentPlayback g w).
  eapply ages_trans; [|apply ages_set_currentStreams].
  eapply ages_trans; [|apply ages_update_player].
  eapply ages_trans; [|apply ages_set_ffmpegProcesses].
  split; cbn; [|auto].
  intros i x Hx. exists x. split; [|done].
  rewrite lookup_app_l; [done|by eapply lookup_lt_Some].
Qed.

Lemma ages_listener g w : ages w (idleListener g w) ∧ ages w (errorListener g w).
Proof.
  assert (H : ages w (cleanupFFmpeg g (set_currentStreams (delete g) w))).
  { eapply ages_trans; [|apply ages_cleanupFFmpeg]. apply ages_set_currentStreams. }
  unfold idleListener, errorListener.
  destruct (currentStreams w !! g) as [[]|]; split;
    try exact H; try apply ages_refl; by apply ages_timer.
Qed.

Lemma ages_join g ch guild ready w : ages w (snd (Core.joinVoiceChannel g ch guild ready w)).
Proof.
  unfold Core.joinVoiceChannel.
  destruct (Core.validateChannel ch guild) as [[]|e]; cbn [snd]; [|apply ages_core_cleanup].
  assert (Hnew : ∀ cid w0, ages w0
    (Core.setupPlayerListeners g (length (playerHeap w0))
       (set_players (<[g := length (playerHeap w0)]>)
          (subscribe cid (length (playerHeap w0)) (snd (createAudioPlayer w0)))))).
  { intros cid w0. unfold createAudioPlayer, Core.setupPlayerListeners, subscribe.
    cbn [snd]. eapply ages_trans; [|apply ages_set_playerListeners].
    match goal with |- context [match ?x with Some _ => _ | None => _ end] =>
      destruct x end; ages_peel. }
  destruct (Core.reusableConnection g ch w) as [cid|].
  - set (w1 := match connections w !! g with Some _ => w | None => _ end).
    assert (H1 : ages w w1).
    { unfold w1. destruct (connections w !! g); ages_peel. }
    destruct (getPlayer g w1) as [[pid p]|]; [exact H1|].
    eapply ages_trans; [exact H1|]. apply (Hnew cid w1).
  - eapply ages_trans; [apply (ages_core_cleanup g)|].
    set (w1 := Core.cleanupGuildResources g w). clearbody w1.
    assert (H2 : ages w1 (snd (voice_joinVoiceChannel ch g w1))).
    { unfold voice_joinVoiceChannel, getVoiceConnection.
      destruct (voiceConnections w1 !! g) as [i|]; [|cbn [snd]; ages_peel].
      destruct (connHeap w1 !! i) as [ci|]; [|cbn [snd]; ages_peel].
      destruct (is_destroyed (cstatus ci)); cbn [snd]; ages_peel. }
    destruct (voice_joinVoiceChannel ch g w1) as [cid w2]. cbn [snd] in H2.
    eapply ages_trans; [exact H2|].
    set (w3 := match channels_cache guild !! ch with Some _ => _ | None => _ end).
    assert (H3 : ages w2 w3).
    { unfold w3. destruct (channels_cache guild !! ch) as [c|]; [|apply ages_refl].
      destruct (channelType c =? 13)%Z; [|apply ages_refl]. by apply ages_timer. }
    eapply ages_trans; [exact H3|].
    unfold createAudioPlayer.
    set (pid := length (playerHeap w3)).
    set (w6 := set_players _ (set_connections _ (subscribe cid pid _))).
    assert (H6 : ages w3 w6).
    { unfold w6, subscribe. cbn [snd]. ages_peel. }
    eapply ages_trans; [exact H6|].
    destruct ready; cbn [snd]; [|apply ages_core_cleanup].
    unfold Core.setupPlayerListeners, Core.setupConnectionListeners.
    eapply ages_trans; [|apply ages_set_playerListeners].
    match goal with |- context [match ?x with Some _ => _ | None => _ end] =>
      destruct x end; ages_peel.
Qed.

Lemma ages_forceKill pid w : ages w (forceKill pid w).
Proof.
  unfold forceKill. destruct (procHeap w !! pid) as [p|]; [|apply ages_refl].
  destruct (negb (killed p)); [apply ages_kill|apply ages_refl].
Qed.

Lemma ages_drop_timer n w : ages w (set_timers (delete n) w).
Proof.
  split; [eauto|]. cbn. intros t Ht. left.
  by eapply list_elem_of_delete_inv.
Qed.

Lemma ages_run a w : ages w (run a w).
Proof.
  destruct a; cbn [run].
  - apply ages_join.
  - apply ages_core_cleanup.
  - rewrite playRadio_play_with. apply ages_play_with.
  - rewrite playQuran_play_with. apply ages_play_with.
  - unfold pauseAudio. destruct (negb _); [apply ages_refl|].
    destruct (getPlayer g w) as [[pid p]|]; [|apply ages_refl].
    destruct (status (pstate p)); cbn [snd]; try apply ages_refl. apply ages_update_player.
  - unfold resumeAudio. destruct (negb _); [apply ages_refl|].
    destruct (getPlayer g w) as [[pid p]|]; [|apply ages_refl].
    destruct (status (pstate p)); cbn [snd]; try apply ages_refl. apply ages_update_player.
  - unfold stopAudio. destruct (getPlayer g w) as [[pid p]|]; [|apply ages_refl].
    destruct (status (pstate p)); cbn [snd]; try apply ages_refl;
      apply ages_stopCurrentPlayback.
  - unfold setVolume. cbn [snd].
    set (w1 := set_volumes _ w). assert (H1 : ages w w1) by apply ages_set_volumes.
    destruct (isPlayerReady _); [|exact H1].
    destruct (getPlayer g w1) as [[pid p]|]; [|exact H1].
    eapply ages_trans; [exact H1|apply ages_update_player].
  - unfold increaseVolume, setVolume. cbn [snd].
    set (w1 := set_volumes _ w). assert (H1 : ages w w1) by apply ages_set_volumes.
    destruct (isPlayerReady _); [|exact H1].
    destruct (getPlayer g w1) as [[pid p]|]; [|exact H1].
    eapply ages_trans; [exact H1|apply ages_update_player].
  - unfold decreaseVolume, setVolume. cbn [snd].
    set (w1 := set_volumes _ w). assert (H1 : ages w w1) by apply ages_set_volumes.
    destruct (isPlayerReady _); [|exact H1].
    destruct (getPlayer g w1) as [[pid p]|]; [|exact H1].
    eapply ages_trans; [exact H1|apply ages_update_player].
  - unfold Core.shutdown.
    set (w1 := foldl _ w _).
    assert (H1 : ages w w1) by (apply ages_foldl; intros; apply ages_core_cleanup).
    clearbody w1. eapply ages_trans; [exact H1|]. ages_peel.
  - apply ages_update_player.
  - unfold Core.player_idle. destruct (playerHeap w !! pid) as [p|]; [|apply ages_refl].
    destruct (pstate p); try apply ages_refl;
      (eapply ages_trans; [apply ages_update_player|];
       apply ages_foldl; intros; apply ages_listener).
  - unfold Core.player_error. destruct (playerHeap w !! pid) as [p|]; [|apply ages_refl].
    apply ages_foldl; intros; apply ages_listener.
  - unfold Core.connection_disconnected.
    destruct (connHeap w !! cid) as [c|]; [|apply ages_refl].
    destruct (is_destroyed (cstatus c)); [apply ages_refl|].
    assert (H2 : ages w (foldl (λ w' g, Core.disconnectedListener recovered g w')
                  (update_connection cid (conn_set_status Disconnected) w) (clisteners c))).
    { eapply ages_trans; [apply ages_update_connection|].
      apply ages_foldl. intros w' g. unfold Core.disconnectedListener.
      destruct recovered; [apply ages_refl|apply ages_core_cleanup]. }
    destruct recovered; [|exact H2].
    eapply ages_trans; [exact H2|apply ages_update_connection].
  - unfold Core.connection_destroyed.
    destruct (connHeap w !! cid) as [c|]; [|apply ages_refl].
    destruct (is_destroyed (cstatus c)); [apply ages_refl|].
    eapply ages_trans; [apply ages_mark_destroyed|].
    apply ages_foldl. intros. apply ages_core_cleanup.
  - unfold process_exit. destruct (procHeap w !! pid) as [p|] eqn:Hp; [|apply ages_refl].
    split; [|auto]. cbn. intros i x Hx. destruct (decide (i = pid)) as [->|Hne].
    + rewrite list_lookup_insert_eq by (by eapply lookup_lt_Some).
      eexists. split; [done|]. intros _. unfold live. cbn. apply andb_false_r.
    + rewrite list_lookup_insert_ne by done. eauto.
  - unfold Core.fireTimer. destruct (timers w !! n) as [t|]; [|apply ages_refl].
    eapply ages_trans; [apply (ages_drop_timer n)|].
    destruct (callback t); [|apply ages_forceKill|apply ages_refl].
    unfold Core.restartRadio.
    destruct (currentStreams _ !! g) as [[]|]; try apply ages_refl.
    rewrite playRadio_play_with. apply ages_play_with.
Qed.

Lemma reachable_force_kill_ok w : reachable w → force_kill_ok w.
Proof.
  apply reachable_ind_run.
  - intros t pid Ht. by apply elem_of_nil in Ht.
  - intros a w0 H0. eapply force_kill_ok_ages; [apply ages_run|done].
Qed.

Lemma forceKill_not_live pid w p :
  procHeap w !! pid = Some p → live p = false → forceKill pid w = w.
Proof.
  intros Hp Hl. unfold forceKill, kill. rewrite Hp.
  destruct (killed p) eqn:Hk; cbn; [done|].
  unfold live in Hl. rewrite Hk in Hl. cbn in Hl. apply negb_false_iff in Hl.
  unfold kill_process. rewrite Hl. unfold set_procHeap.
  rewrite list_insert_id by done. apply world_eta.
Qed.
End ForceKill.

(** X4.  The escalation to SIGKILL never happens.  In every state the
    manager can reach, each pending force-kill timer is for a process that
    is no longer live, and when the timer fires nothing changes but the
    list of timers: the second signal is not sent. *)
Theorem force_kill_never_signals w n t pid now :
  reachable w → timers w !! n = Some t → callback t = ForceKill pid →
  (∃ p, procHeap w !! pid = Some p ∧ live p = false) ∧
  Core.fireTimer n now w = set_timers (delete n) w.
Proof.
  intros Hr Hn Hcb.
  destruct (reachable_force_kill_ok w Hr t pid) as (p & Hp & Hl);
    [by eapply list_elem_of_lookup_2|done|].
  split; [eauto|].
  unfold Core.fireTimer. rewrite Hn, Hcb.
  by apply (forceKill_not_live pid _ p).
Qed.

Lemma force_kill_never_signals_witness :
  Core.fireTimer 0 5
    (runs [CallJoin "g" "c1" guildA true; CallPlayRadio "g" "u" ∅ 0; CallStop "g";
           PlayerPlaying 0; CallStop "g"] emptyWorld)
  = set_timers (delete 0)
      (runs [CallJoin "g" "c1" guildA true; CallPlayRadio "g" "u" ∅ 0; CallStop "g";
             PlayerPlaying 0; CallStop "g"] emptyWorld).
Proof.
  refine (proj2 (force_kill_never_signals _ 0
            {| delay := 2000; callback := ForceKill 0 |} 0 5 _ _ _)).
  - by eexists.
  - vm_compute. reflexivity.
  - reflexivity.
Defined.

Section JoinTimers.
Implicit Types (w : World) (g : guildId).

Lemma ofk_refl w : only_force_kills w w.
Proof. exists []. by rewrite app_nil_r. Qed.

Lemma ofk_trans w1 w2 w3 :
  only_force_kills w1 w2 → only_force_kills w2 w3 → only_force_kills w1 w3.
Proof.
  intros (e1 & E1 & F1) (e2 & E2 & F2). exists (e1 ++ e2).
  rewrite E2, E1, app_assoc. split; [done|by apply Forall_app].
Qed.

Lemma ofk_frame w w' : timers w' = timers w → only_force_kills w w'.
Proof. intros E. exists []. by rewrite app_nil_r. Qed.

Lemma timers_update_connection cid f w : timers (update_connection cid f w) = timers w.
Proof. apply update_connection_maps. Qed.

Lemma ofk_update_connection cid f w : only_force_kills w (update_connection cid f w).
Proof. apply ofk_frame, update_connection_maps. Qed.

Lemma ofk_core_cleanup g w : only_force_kills w (Core.cleanupGuildResources g w).
Proof. apply (cl_timers _ _ (cleans_core_cleanup g w)). Qed.

Lemma ofk_new_player g cid w :
  only_force_kills w
    (Core.setupPlayerListeners g (length (playerHeap w))
       (set_players (<[g := length (playerHeap w)]>)
          (subscribe cid (length (playerHeap w)) (snd (createAudioPlayer w))))).
Proof.
  apply ofk_frame. unfold createAudioPlayer, subscribe, Core.setupPlayerListeners.
  cbn [snd].
  match goal with |- context [match ?x with Some _ => _ | None => _ end] =>
    destruct x end; cbn; by rewrite timers_update_connection.
Qed.

Lemma join_only_force_kills g ch guild ready w :
  only_force_kills w (snd (Core.joinVoiceChannel g ch guild ready w)).
Proof.
  unfold Core.joinVoiceChannel.
  destruct (Core.validateChannel ch guild) as [[]|e] eqn:Hv; cbn [snd];
    [|apply ofk_core_cleanup].
  apply validateChannel_ok in Hv as (c0 & perms & Hc0 & Ht & _).
  destruct (Core.reusableConnection g ch w) as [cid|].
  - set (w1 := match connections w !! g with Some _ => w | None => _ end).
    assert (H1 : only_force_kills w w1).
    { unfold w1. destruct (connections w !! g); [apply ofk_refl|by apply ofk_frame]. }
    clearbody w1.
    destruct (getPlayer g w1) as [[pid p]|]; [exact H1|].
    eapply ofk_trans; [exact H1|]. apply (ofk_new_player g cid w1).
  - eapply ofk_trans; [apply (ofk_core_cleanup g)|].
    set (w1 := Core.cleanupGuildResources g w). clearbody w1.
    assert (H2 : only_force_kills w1 (snd (voice_joinVoiceChannel ch g w1))).
    { apply ofk_frame. unfold voice_joinVoiceChannel, getVoiceConnection.
      destruct (voiceConnections w1 !! g) as [i|]; [|done].
      destruct (connHeap w1 !! i) as [ci|]; [|done].
      destruct (is_destroyed (cstatus ci)); [done|]. apply timers_update_connection. }
    destruct (voice_joinVoiceChannel ch g w1) as [cid w2]. cbn [snd] in H2.
    eapply ofk_trans; [exact H2|]. clear H2.
    rewrite Hc0, Ht. cbn [Z.eqb Pos.eqb].
    unfold createAudioPlayer.
    set (pid := length (playerHeap w2)).
    set (w6 := set_players _ (set_connections _ (subscribe cid pid _))).
    assert (H6 : only_force_kills w2 w6).
    { apply ofk_frame. unfold w6, subscribe. cbn. by rewrite timers_update_connection. }
    clearbody w6. eapply ofk_trans; [exact H6|].
    destruct ready; cbn [snd]; [|apply ofk_core_cleanup].
    apply ofk_frame. unfold Core.setupPlayerListeners, Core.setupConnectionListeners.
    match goal with |- context [match ?x with Some _ => _ | None => _ end] =>
      destruct x end; cbn; by rewrite !timers_update_connection.
Qed.
End JoinTimers.

(** X5.  A join arms no timer but the force-kills of the teardown it may
    do; in particular the timer that would unsuppress the bot in a stage
    channel is never armed, because a stage channel (type 13) does not
    pass the validation at the head of the call. *)
Theorem join_never_unsuppresses g ch guild ready w :
  only_force_kills w (snd (Core.joinVoiceChannel g ch guild ready w)) ∧
  (∀ t g', t ∈ timers (snd (Core.joinVoiceChannel g ch guild ready w)) →
           callback t = SetSuppressed g' → t ∈ timers w) ∧
  (∀ c, channels_cache guild !! ch = Some c → channelType c = 13%Z →
        fst (Core.joinVoiceChannel g ch guild ready w) = Throw InvalidVoiceChannel).
Proof.
  pose proof (join_only_force_kills g ch guild ready w) as Hofk.
  split_and!.
  - exact Hofk.
  - intros t g' Ht Hcb. destruct Hofk as (extra & E & F). rewrite E in Ht.
    apply elem_of_app in Ht as [Ht|Ht]; [done|].
    rewrite Forall_forall in F. destruct (F t Ht) as [pid ->]. done.
  - intros c Hc Ht. unfold Core.joinVoiceChannel, Core.validateChannel.
    by rewrite Hc, Ht.
Qed.

Section ShutdownDestroys.
Implicit Types (w : World) (g : guildId).

Lemma stands_cleans_keep g cid w w' :
  cleans w w' → connections w' = connections w →
  stands_or_destroyed g cid w → stands_or_destroyed g cid w'.
Proof.
  intros Hcl Hc (c & Hh & Hd).
  destruct Hcl as [_ _ _ _ _ _ _ _ _ [Hlen Hrel] _ _].
  destruct (connHeap w' !! cid) as [c'|] eqn:Hc'.
  2:{ apply lookup_ge_None in Hc'. apply lookup_lt_Some in Hh. lia. }
  exists c'. split; [done|]. rewrite Hc.
  destruct Hd as [Hd|Hd]; [by left|right].
  destruct (Hrel _ _ _ Hh Hc') as (_ & _ & [Hs|Hs]); congruence.
Qed.

Lemma destroyed_cleans cid w w' :
  cleans w w' → (∃ c, connHeap w !! cid = Some c ∧ cstatus c = Destroyed) →
  ∃ c, connHeap w' !! cid = Some c ∧ cstatus c = Destroyed.
Proof. intros Hcl (c & Hc & Hs). by eapply cleans_destroyed. Qed.

Lemma stands_cleanup_rec detach d k g cid w :
  keeps_connections detach →
  stands_or_destroyed g cid w →
  stands_or_destroyed g cid (cleanupGuildResources_rec detach d k w).
Proof.
  intros Hk. revert k w. induction d as [|d IH]; intros k w HQ; [done|].
  cbn [cleanupGuildResources_rec].
  set (w1 := detach k (cleanupFFmpeg k w)).
  set (w2 := match getExistingConnection k w1 with Some _ => _ | None => _ end).
  assert (Hcl : ∀ w0 l, cleans w0
    (foldl (λ w' g', cleanupGuildResources_rec detach d g' w') w0 l)).
  { intros w0 l. apply cleans_foldl. intros. apply cleans_cleanup_rec. intros; apply Hk. }
  assert (Q1 : stands_or_destroyed g cid w1).
  { destruct (Hk k (cleanupFFmpeg k w)) as (Hcl1 & Hc1 & _).
    eapply stands_cleans_keep; [exact Hcl1|exact Hc1|].
    eapply stands_cleans_keep; [apply cleans_cleanupFFmpeg|apply cleanupFFmpeg_connections|done]. }
  assert (Q2 : stands_or_destroyed g cid w2 ∧ cleans w1 w2 ∧
               (connections w1 !! k = Some cid →
                ∃ c, connHeap w2 !! cid = Some c ∧ cstatus c = Destroyed)).
  { unfold w2, getExistingConnection.
    destruct (connections w1 !! k) as [ck|] eqn:Hck.
    - destruct (connHeap w1 !! ck) as [c|] eqn:Hc.
      2:{ split_and!; [done|done|]. intros [= ->]. destruct Q1 as (c & Hc' & _). congruence. }
      destruct (is_destroyed (cstatus c)) eqn:Hd.
      { split_and!; [done|done|]. intros [= ->]. exists c. split; [done|].
        by destruct (cstatus c). }
      split_and!.
      + apply (foldl_preserves (stands_or_destroyed g cid)); [intros; by apply IH|].
        eapply stands_cleans_keep; [apply cleans_mark_destroyed| |done].
        apply same_mark_destroyed.
      + etrans; [apply cleans_mark_destroyed|apply Hcl].
      + intros [= ->]. eapply destroyed_cleans; [apply Hcl|].
        exact (mark_destroyed_status _ _ _ Hc).
    - assert (Hrest : stands_or_destroyed g cid
                match getVoiceConnection k w1 with
                | Some cid0 =>
                  match connHeap w1 !! cid0 with
                  | Some c =>
                    if is_destroyed (cstatus c) then w1
                    else foldl (λ w' g', cleanupGuildResources_rec detach d g' w')
                               (mark_destroyed cid0 w1) (clisteners c)
                  | None => w1
                  end
                | None => w1
                end ∧
              cleans w1
                match getVoiceConnection k w1 with
                | Some cid0 =>
                  match connHeap w1 !! cid0 with
                  | Some c =>
                    if is_destroyed (cstatus c) then w1
                    else foldl (λ w' g', cleanupGuildResources_rec detach d g' w')
                               (mark_destroyed cid0 w1) (clisteners c)
                  | None => w1
                  end
                | None => w1
                end).
      { destruct (getVoiceConnection k w1) as [cv|]; [|done].
        destruct (connHeap w1 !! cv) as [c|]; [|done].
        destruct (is_destroyed (cstatus c)); [done|]. split.
        - apply (foldl_preserves (stands_or_destroyed g cid)); [intros; by apply IH|].
          eapply stands_cleans_keep; [apply cleans_mark_destroyed| |done].
          apply same_mark_destroyed.
        - etrans; [apply cleans_mark_destroyed|apply Hcl]. }
      destruct Hrest as [H1 H2]. split_and!; [done|done|]. intros [=]. }
  destruct Q2 as ((c & Hc & Hd) & Hcl12 & Hdest).
  exists c. split; [done|]. unfold clearGuildData. cbn.
  destruct Hd as [Hd|Hd]; [|by right].
  destruct (decide (g = k)) as [->|Hne].
  - right. pose proof (cl_connections _ _ Hcl12) as Hsub.
    destruct (Hdest (lookup_weaken _ _ _ _ Hd Hsub)) as (c' & Hc' & Hs'). congruence.
  - left. by rewrite lookup_delete_ne.
Qed.

Lemma stands_core_cleanup k g cid w :
  stands_or_destroyed g cid w → stands_or_destroyed g cid (Core.cleanupGuildResources k w).
Proof. apply stands_cleanup_rec, core_keeps_connections. Qed.

Lemma fold_cleanup_destroys g cid l w :
  stands_or_destroyed g cid w → g ∈ l →
  ∃ c, connHeap (foldl (λ w' k, Core.cleanupGuildResources k w') w l) !! cid = Some c ∧
       cstatus c = Destroyed.
Proof.
  revert w. induction l as [|k l IH]; intros w HQ Hin; [by apply elem_of_nil in Hin|].
  cbn. destruct (decide (g = k)) as [->|Hne].
  - eapply destroyed_cleans.
    { apply cleans_foldl. intros. apply cleans_core_cleanup. }
    destruct (stands_core_cleanup k k cid w HQ) as (c & Hc & [Hd|Hd]); [|eauto].
    destruct (core_cleanup_released k w) as (Hnone & _). congruence.
  - apply IH; [by apply stands_core_cleanup|].
    apply elem_of_cons in Hin as [?|?]; [done|done].
Qed.
End ShutdownDestroys.

(** X6.  [shutdown] of the unified manager, from any state the manager
    can reach: every map is left empty, no transcoder process is live any
    more, and every connection that was registered is destroyed. *)
Theorem shutdown_leaves_nothing w :
  reachable w →
  let w' := Core.shutdown w in
  (connections w' = ∅ ∧ players w' = ∅ ∧ currentStreams w' = ∅ ∧
   ffmpegProcesses w' = ∅ ∧ volumes w' = ∅ ∧
   connectionListeners w' = ∅ ∧ playerListeners w' = ∅) ∧
  (∀ pid p, procHeap w' !! pid = Some p → live p = false) ∧
  (∀ g cid c, connections w !! g = Some cid → connHeap w !! cid = Some c →
     ∃ c', connHeap w' !! cid = Some c' ∧ cstatus c' = Destroyed).
Proof.
  intros Hr. cbn zeta. split_and!; try reflexivity.
  - intros pid p Hp. by apply (shutdown_no_live w pid p (reachable_proc_inv w Hr)).
  - intros g cid c Hg Hc. unfold Core.shutdown. cbn.
    apply (fold_cleanup_destroys g).
    + exists c. auto.
    + apply list_elem_of_fmap. exists (g, cid). split; [done|].
      by apply elem_of_map_to_list.
Qed.

Lemma shutdown_leaves_nothing_witness :
  ∃ c', connHeap (Core.shutdown radioWorld) !! 0 = Some c' ∧ cstatus c' = Destroyed.
Proof.
  refine (proj2 (proj2 (shutdown_leaves_nothing radioWorld _)) "g" 0
            {| joinConfig_guildId := "g"; joinConfig_channelId := "c1"; cstatus := Ready;
               subscription := Some 0; clisteners := ["g"] |} _ _).
  - by exists [CallJoin "g" "c1" guildA true;
               CallPlayRadio "g" "https://stream.radiojar.com/8s5u5tpdtwzuv" ∅ 0].
  - vm_compute. reflexivity.
  - vm_compute. reflexivity.
Defined.

Section StreamInvariant.
Implicit Types (w : World) (g : guildId).

Lemma stream_inv_same w w' : same_session w w' → stream_inv w → stream_inv w'.
Proof. intros (Hf & Hp & _ & _ & _ & Hs) [I1 I2]. split; rewrite ?Hf, ?Hp, ?Hs; done. Qed.

Lemma stream_inv_torn G w w' : torn G G w w' → stream_inv w → stream_inv w'.
Proof.
  intros [F P _ S _ _] [I1 I2]. split; intros g.
  - rewrite F, S. case_decide; [by intros [? ?]|apply I1].
  - rewrite S, P. case_decide; [by intros [? ?]|apply I2].
Qed.

Lemma stream_inv_core_cleanup g w : stream_inv w → stream_inv (Core.cleanupGuildResources g w).
Proof. intros H. destruct (torn_core_cleanup g w) as (G & HG & _). by eapply stream_inv_torn. Qed.

Lemma stream_inv_drop g w :
  stream_inv w → stream_inv (cleanupFFmpeg g (set_currentStreams (delete g) w)).
Proof.
  intros [I1 I2].
  destruct (cleanupFFmpeg_frame g (set_currentStreams (delete g) w)) as (_ & Hp & Hs & _).
  pose proof (cleanupFFmpeg_ffmpeg g (set_currentStreams (delete g) w)) as Hf.
  split; intros k; rewrite ?Hf, ?Hs, ?Hp; cbn.
  - destruct (decide (k = g)) as [->|Hne].
    + rewrite lookup_delete_eq. by intros [? ?].
    + rewrite !lookup_delete_ne by done. apply I1.
  - destruct (decide (k = g)) as [->|Hne].
    + rewrite lookup_delete_eq. by intros [? ?].
    + rewrite lookup_delete_ne by done. apply I2.
Qed.

Lemma stream_inv_cleanupFFmpeg g w : stream_inv w → stream_inv (cleanupFFmpeg g w).
Proof.
  intros [I1 I2]. destruct (cleanupFFmpeg_frame g w) as (_ & Hp & Hs & _).
  pose proof (cleanupFFmpeg_ffmpeg g w) as Hf.
  split; intros k; rewrite ?Hf, ?Hs, ?Hp; [|apply I2].
  destruct (decide (k = g)) as [->|Hne].
  - rewrite lookup_delete_eq. by intros [? ?].
  - rewrite lookup_delete_ne by done. apply I1.
Qed.

Lemma stream_inv_stopCurrentPlayback g w : stream_inv w → stream_inv (stopCurrentPlayback g w).
Proof.
  intros H. unfold stopCurrentPlayback. apply stream_inv_drop.
  destruct (getPlayer g w) as [[pid p]|]; [|done].
  eapply stream_inv_same; [apply same_update_player|done].
Qed.

Lemma stream_inv_play_with g url d w : stream_inv w → stream_inv (snd (play_with g url d w)).
Proof.
  intros H. destruct (getPlayer g w) as [[pid p]|] eqn:Hg.
  2:{ rewrite play_with_no_player by done. by apply stream_inv_cleanupFFmpeg. }
  destruct (play_with_spec g url d w pid p Hg)
    as (w' & -> & _ & Hp & _ & _ & _ & _ & _ & Hs & Hf & _).
  cbn [snd]. destruct H as [I1 I2]. split; intros k; rewrite ?Hf, ?Hs, ?Hp.
  - rewrite !lookup_insert. case_decide; [eauto|apply I1].
  - rewrite lookup_insert. case_decide; [|apply I2].
    subst. intros _. apply getPlayer_lookup in Hg as [Hg _]. eauto.
Qed.

Lemma stream_inv_add_player g pid w : stream_inv w → stream_inv (set_players (<[g := pid]>) w).
Proof.
  intros [I1 I2]. split; [done|]. cbn. intros k Hk. rewrite lookup_insert.
  case_decide; [done|auto].
Qed.

Lemma stream_inv_listener g w :
  stream_inv w → stream_inv (idleListener g w) ∧ stream_inv (errorListener g w).
Proof.
  intros H. pose proof (stream_inv_drop g w H) as Hd.
  unfold idleListener, errorListener.
  destruct (currentStreams w !! g) as [[]|]; split; done.
Qed.

Lemma stream_inv_join g ch guild ready w :
  stream_inv w → stream_inv (snd (Core.joinVoiceChannel g ch guild ready w)).
Proof.
  intros H. unfold Core.joinVoiceChannel.
  destruct (Core.validateChannel ch guild) as [[]|e]; cbn [snd];
    [|by apply stream_inv_core_cleanup].
  destruct (Core.reusableConnection g ch w) as [cid|].
  - set (w1 := match connections w !! g with Some _ => w | None => _ end).
    assert (H1 : stream_inv w1) by (unfold w1; by destruct (connections w !! g)).
    clearbody w1.
    destruct (getPlayer g w1) as [[pid p]|]; [done|].
    pose proof (same_createAudioPlayer w1) as S2.
    destruct (createAudioPlayer w1) as [pid w2]. cbn [snd] in *.
    eapply stream_inv_same; [apply same_setupPlayerListeners|].
    apply stream_inv_add_player.
    eapply stream_inv_same; [apply same_subscribe|]. by eapply stream_inv_same.
  - pose proof (stream_inv_core_cleanup g w H) as H1.
    set (w1 := Core.cleanupGuildResources g w) in *. clearbody w1.
    pose proof (same_voice_join ch g w1) as S2.
    destruct (voice_joinVoiceChannel ch g w1) as [cid w2]. cbn [snd] in *.
    set (w3 := match channels_cache guild !! ch with Some _ => _ | None => _ end).
    assert (S3 : same_session w2 w3).
    { unfold w3. destruct (channels_cache guild !! ch) as [c|]; [|done].
      by destruct (channelType c =? 13)%Z. }
    clearbody w3.
    pose proof (same_createAudioPlayer w3) as S4.
    destruct (createAudioPlayer w3) as [pid w4]. cbn [snd] in *.
    assert (H6 : stream_inv (set_players (<[g := pid]>)
                   (set_connections (<[g := cid]>) (subscribe cid pid w4)))).
    { apply stream_inv_add_player.
      assert (H5 : stream_inv (subscribe cid pid w4)).
      { eapply stream_inv_same; [apply same_subscribe|].
        eapply stream_inv_same; [exact S4|].
        eapply stream_inv_same; [exact S3|]. by eapply stream_inv_same. }
      exact H5. }
    destruct ready; cbn [snd]; [|by apply stream_inv_core_cleanup].
    eapply stream_inv_same; [apply same_setupPlayerListeners|].
    eapply stream_inv_same; [apply same_setupConnectionListeners|].
    eapply stream_inv_same; [apply same_update_connection|]. done.
Qed.

Lemma stream_inv_run a w : stream_inv w → stream_inv (run a w).
Proof.
  intros H. destruct a; cbn [run].
  - by apply stream_inv_join.
  - by apply stream_inv_core_cleanup.
  - rewrite playRadio_play_with. by apply stream_inv_play_with.
  - rewrite playQuran_play_with. by apply stream_inv_play_with.
  - unfold pauseAudio. destruct (negb _); [done|].
    destruct (getPlayer g w) as [[pid p]|]; [|done].
    destruct (status (pstate p)); cbn [snd]; try done.
    eapply stream_inv_same; [apply same_update_player|done].
  - unfold resumeAudio. destruct (negb _); [done|].
    destruct (getPlayer g w) as [[pid p]|]; [|done].
    destruct (status (pstate p)); cbn [snd]; try done.
    eapply stream_inv_same; [apply same_update_player|done].
  - unfold stopAudio. destruct (getPlayer g w) as [[pid p]|]; [|done].
    destruct (status (pstate p)); cbn [snd]; try done;
      by apply stream_inv_stopCurrentPlayback.
  - unfold setVolume. cbn [snd].
    set (w1 := set_volumes _ w). assert (H1 : stream_inv w1) by done.
    destruct (isPlayerReady _); [|done].
    destruct (getPlayer g w1) as [[pid p]|]; [|done].
    eapply stream_inv_same; [apply same_update_player|done].
  - unfold increaseVolume, setVolume. cbn [snd].
    set (w1 := set_volumes _ w). assert (H1 : stream_inv w1) by done.
    destruct (isPlayerReady _); [|done].
    destruct (getPlayer g w1) as [[pid p]|]; [|done].
    eapply stream_inv_same; [apply same_update_player|done].
  - unfold decreaseVolume, setVolume. cbn [snd].
    set (w1 := set_volumes _ w). assert (H1 : stream_inv w1) by done.
    destruct (isPlayerReady _); [|done].
    destruct (getPlayer g w1) as [[pid p]|]; [|done].
    eapply stream_inv_same; [apply same_update_player|done].
  - split; cbn; intros g [? Hg]; by rewrite lookup_empty in Hg.
  - eapply stream_inv_same; [apply same_engine_playing|done].
  - unfold Core.player_idle. destruct (playerHeap w !! pid) as [p|]; [|done].
    destruct (pstate p); try done;
      (apply foldl_preserves; [intros; by apply stream_inv_listener|];
       eapply stream_inv_same; [apply same_update_player|done]).
  - unfold Core.player_error. destruct (playerHeap w !! pid) as [p|]; [|done].
    apply foldl_preserves; [intros; by apply stream_inv_listener|done].
  - unfold Core.connection_disconnected.
    destruct (connHeap w !! cid) as [c|]; [|done].
    destruct (is_destroyed (cstatus c)); [done|].
    assert (H2 : stream_inv (foldl (λ w' g, Core.disconnectedListener recovered g w')
                  (update_connection cid (conn_set_status Disconnected) w) (clisteners c))).
    { apply foldl_preserves.
      - intros w' g Hw'. unfold Core.disconnectedListener.
        destruct recovered; [done|by apply stream_inv_core_cleanup].
      - eapply stream_inv_same; [apply same_update_connection|done]. }
    destruct recovered; [|done].
    eapply stream_inv_same; [apply same_update_connection|done].
  - unfold Core.connection_destroyed.
    destruct (connHeap w !! cid) as [c|]; [|done].
    destruct (is_destroyed (cstatus c)); [done|].
    apply foldl_preserves.
    + intros w' g Hw'. by apply stream_inv_core_cleanup.
    + eapply stream_inv_same; [apply same_mark_destroyed|done].
  - unfold process_exit. by destruct (procHeap w !! pid).
  - unfold Core.fireTimer. destruct (timers w !! n) as [t|]; [|done].
    assert (H1 : stream_inv (set_timers (delete n) w)) by done.
    destruct (callback t); [| |done].
    + unfold Core.restartRadio.
      destruct (currentStreams _ !! g) as [[]|]; try done.
      rewrite playRadio_play_with. by apply stream_inv_play_with.
    + unfold forceKill, kill. destruct (procHeap _ !! pid) as [p|]; [|done].
      by destruct (negb (killed p)).
Qed.

Lemma reachable_stream_inv w : reachable w → stream_inv w.
Proof.
  apply reachable_ind_run; [|intros; by apply stream_inv_run].
  split; cbn; intros g [? Hg]; by rewrite lookup_empty in Hg.
Qed.
End StreamInvariant.

(** X7.  The maps of the unified manager stay consistent along every
    run: a guild with a registered transcoder has a stream descriptor, a
    guild with a descriptor has a player, a guild with a player has a
    connection, and a registered transcoder is a process that exists.  So
    a guild for which [hasConnection] is false has nothing registered. *)
Theorem session_maps_consistent w g :
  reachable w →
  (is_Some (ffmpegProcesses w !! g) → is_Some (currentStreams w !! g)) ∧
  (is_Some (currentStreams w !! g) → is_Some (players w !! g)) ∧
  (is_Some (players w !! g) → hasConnection g w = true) ∧
  (∀ pid, ffmpegProcesses w !! g = Some pid → is_Some (procHeap w !! pid)) ∧
  (hasConnection g w = false →
     players w !! g = None ∧ currentStreams w !! g = None ∧ ffmpegProcesses w !! g = None).
Proof.
  intros Hr. destruct (reachable_stream_inv w Hr) as [S1 S2].
  destruct (reachable_proc_inv w Hr) as [I1 _ _ _ I5].
  assert (Hpc : is_Some (players w !! g) → hasConnection g w = true).
  { intros Hp. unfold hasConnection. apply bool_decide_eq_true. by apply I5. }
  split_and!; auto.
  - intros pid Hpid. apply lookup_lt_is_Some. by eapply I1.
  - intros Hno.
    assert (Hp : players w !! g = None).
    { destruct (players w !! g) eqn:E; [|done]. rewrite Hpc in Hno; [done|eauto]. }
    assert (Hs : currentStreams w !! g = None).
    { destruct (currentStreams w !! g) eqn:E; [|done].
      destruct (S2 g) as [? Hx]; [eauto|]. congruence. }
    split_and!; [done|done|].
    destruct (ffmpegProcesses w !! g) eqn:E; [|done].
    destruct (S1 g) as [? Hx]; [eauto|]. congruence.
Qed.

Lemma session_maps_consistent_witness :
  is_Some (players radioWorld !! "g") ∧ hasConnection "g" radioWorld = true.
Proof.
  assert (Hp : is_Some (players radioWorld !! "g")).
  { exists 0. vm_compute. reflexivity. }
  split; [exact Hp|].
  refine (proj1 (proj2 (proj2 (session_maps_consistent radioWorld "g" _))) Hp).
  by exists [CallJoin "g" "c1" guildA true;
             CallPlayRadio "g" "https://stream.radiojar.com/8s5u5tpdtwzuv" ∅ 0].
Defined.

Section ClampTwice.
Local Open Scope float_scope.

Lemma clampVolume_twice v : clampVolume (clampVolume v) = clampVolume v.
Proof.
  destruct (is_nan v) eqn:Hv.
  { rewrite (clampVolume_nan v Hv). by vm_compute. }
  destruct (clampVolume_cases v Hv) as [[_ ->]|[[_ ->]|(H0 & H2 & [E|[_ ->]])]];
    try by vm_compute.
  rewrite E.
  assert (Hn : is_nan (clampVolume v) = false) by (by rewrite E).
  destruct (clampVolume_cases v Hv) as [[H _]|[[H _]|(_ & _ & [_|[-> _]])]].
  - destruct (float_trichotomy v 0 Hv eq_refl) as [? ? ? ?|? ? ? ?|? ? ? ? ?]; congruence.
  - destruct (float_trichotomy v 2 Hv eq_refl) as [? ? ? ?|? ? ? ?|? ? ? ? ?]; congruence.
  - done.
  - by vm_compute.
Qed.
End ClampTwice.

(** X8.  Clamping is idempotent, NaN included: storing through
    [setVolume] the value that [getVolume] answers changes no entry of the
    table of volumes, whatever was stored first. *)
Theorem setVolume_of_stored_volume g v w :
  let w1 := snd (setVolume g v w) in
  clampVolume (clampVolume v) = clampVolume v ∧
  getVolume g w1 = clampVolume v ∧
  volumes (snd (setVolume g (getVolume g w1) w1)) = volumes w1.
Proof.
  cbn zeta. pose proof (clampVolume_twice v) as Htw.
  split_and!; [done|apply setVolume_getVolume|].
  destruct (setVolume_volumes g (getVolume g (snd (setVolume g v w))) (snd (setVolume g v w)))
    as [_ ->].
  rewrite setVolume_getVolume, Htw.
  destruct (setVolume_volumes g v w) as [_ ->].
  by rewrite insert_insert_eq.
Qed.

(** X9.  When [joinVoiceChannel] of the unified manager returns and when
    it throws: it returns exactly when the channel passes validation and
    either there is a connection to reuse or the new connection gets
    Ready; and then the guild has a connection on the channel asked for,
    neither destroyed nor disconnected, and a player. *)
Theorem join_returns_iff g ch guild ready w :
  let r := Core.joinVoiceChannel g ch guild ready w in
  ((∃ cid pid, fst r = Return (cid, pid)) ↔
   Core.validateChannel ch guild = Return () ∧
   (ready = true ∨ is_Some (Core.reusableConnection g ch w))) ∧
  (∀ cid pid, fst r = Return (cid, pid) →
     connections (snd r) !! g = Some cid ∧ players (snd r) !! g = Some pid ∧
     hasConnection g (snd r) = true ∧ is_Some (playerHeap (snd r) !! pid) ∧
     ∃ c, connHeap (snd r) !! cid = Some c ∧ joinConfig_channelId c = ch ∧
          cstatus c ≠ Destroyed ∧ cstatus c ≠ Disconnected).
Proof.
  cbn zeta.
  assert (Hhas : ∀ w0 cid, connections w0 !! g = Some cid → hasConnection g w0 = true).
  { intros w0 cid H0. unfold hasConnection. rewrite H0. apply bool_decide_eq_true. eauto. }
  destruct (Core.validateChannel ch guild) as [[]|e] eqn:Hv.
  2:{ assert (E : Core.joinVoiceChannel g ch guild ready w
                  = (Throw e, Core.cleanupGuildResources g w)).
      { unfold Core.joinVoiceChannel. by rewrite Hv. }
      rewrite E. cbn [fst snd]. split.
      - split; [by intros (?&?&?)|by intros [? _]].
      - intros cid pid [=]. }
  destruct (Core.reusableConnection g ch w) as [cid0|] eqn:Hr.
  - destruct (join_reuse_path g ch guild ready w cid0 Hv Hr)
      as (pid0 & E & Hc & Hp & Hph & _ & _ & Hat & _).
    pose proof Hr as Hr'.
    apply reusableConnection_spec in Hr' as (_ & c & Hcw & Hch & Hd & Hdis).
    destruct (Hat c Hcw) as (c' & Hc' & Hs' & Hch' & _).
    split.
    + split; [intros _; split; [done|right; eauto]|intros _; eauto].
    + intros cid pid Hret. rewrite E in Hret. injection Hret as <- <-.
      split_and!; [done|done|by eapply Hhas|done|].
      exists c'. split_and!; congruence.
  - destruct ready.
    + destruct (join_new_ready g ch guild w Hv Hr)
        as (cid0 & pid0 & c & E & Hc & Hp & Hcc & Hs & Hch & Hph & _).
      split.
      * split; [intros _; split; [done|by left]|intros _; eauto].
      * intros cid pid Hret. rewrite E in Hret. injection Hret as <- <-.
        split_and!; [done|done|by eapply Hhas|by rewrite Hph|].
        exists c. rewrite Hs. split_and!; done.
    + destruct (join_new_path g ch guild false w Hv Hr) as (cid0 & pid0 & w6 & E & _).
      rewrite E. cbn [fst snd]. split.
      * split; [by intros (?&?&?)|]. intros [_ [?|[? ?]]]; done.
      * intros cid pid [=].
Qed.

(** X10.  A connection lost.  If it recovers (Signalling or Connecting
    within five seconds) the manager tears nothing down: every map, the
    processes and the volumes are as before.  If it does not, every guild
    whose listener sits on the connection loses its connection, player,
    descriptor and transcoder entry, and the volumes are kept. *)
Theorem connection_lost cid c w :
  connHeap w !! cid = Some c → cstatus c ≠ Destroyed →
  same_session w (Core.connection_disconnected cid true w) ∧
  (∀ g, g ∈ clisteners c →
     let w' := Core.connection_disconnected cid false w in
     connections w' !! g = None ∧ players w' !! g = None ∧
     currentStreams w' !! g = None ∧ ffmpegProcesses w' !! g = None) ∧
  volumes (Core.connection_disconnected cid false w) = volumes w.
Proof.
  intros Hc Hd.
  assert (Hnd : is_destroyed (cstatus c) = false) by (by destruct (cstatus c)).
  split_and!.
  - unfold Core.connection_disconnected. rewrite Hc, Hnd.
    etrans; [|apply same_update_connection].
    assert (E : ∀ l w0, foldl (λ w' g, Core.disconnectedListener true g w') w0 l = w0).
    { induction l as [|x l IH]; intros w0; [done|]. cbn. apply IH. }
    rewrite E. apply same_update_connection.
  - intros g Hg. cbn zeta. unfold Core.connection_disconnected. rewrite Hc, Hnd.
    destruct (torn_foldl_all (λ w' g, Core.disconnectedListener false g w') (clisteners c)
                (update_connection cid (conn_set_status Disconnected) w)) as (G & HG & Hall).
    { intros w' a. apply torn_core_cleanup. }
    destruct HG as [F P C S _ _].
    rewrite F, P, C, S. rewrite !decide_True by by apply Hall. done.
  - apply volumes_connection_disconnected.
Qed.

Lemma connection_lost_witness :
  hasConnection "g" (Core.connection_disconnected 0 false radioWorld) = false.
Proof.
  destruct (connection_lost 0
              {| joinConfig_guildId := "g"; joinConfig_channelId := "c1"; cstatus := Ready;
                 subscription := Some 0; clisteners := ["g"] |} radioWorld)
    as (_ & H & _).
  - vm_compute. reflexivity.
  - discriminate.
  - destruct (H "g") as (Hc & _).
    + apply list_elem_of_singleton. reflexivity.
    + unfold hasConnection. rewrite Hc. reflexivity.
Defined.

(** X11.  Only [setVolume], [increaseVolume], [decreaseVolume] and
    [shutdown] touch the table of volumes: no other call, event or timer
    of a run changes any guild's stored volume. *)
Theorem only_volume_calls_change_volumes a w :
  (∀ g v, a ≠ CallSetVolume g v) → (∀ g, a ≠ CallIncreaseVolume g) →
  (∀ g, a ≠ CallDecreaseVolume g) → a ≠ CallShutdown →
  volumes (run a w) = volumes w ∧ ∀ g, getVolume g (run a w) = getVolume g w.
Proof.
  intros H1 H2 H3 H4. pose proof (volumes_run a w) as Hv.
  assert (E : volumes (run a w) = volumes w).
  { destruct a; try exact Hv.
    - by destruct (H1 g v).
    - by destruct (H2 g).
    - by destruct (H3 g).
    - done. }
  split; [done|]. intros g. unfold getVolume. by rewrite E.
Qed.

Lemma only_volume_calls_change_volumes_witness :
  volumes (run (CallLeave "g") (snd (setVolume "g" 1.5%float joinedWorld)))
  = volumes (snd (setVolume "g" 1.5%float joinedWorld)).
Proof.
  refine (proj1 (only_volume_calls_change_volumes (CallLeave "g") _ _ _ _ _));
    intros; discriminate.
Defined.

(** X12.  [setVolume] reaches the resource being played: when the player
    is not Idle and its resource has a volume transformer, the resource's
    volume becomes the clamped value and the player's status is kept; an
    Idle player, or none, is left alone. *)
Theorem setVolume_reaches_resource g v w :
  (∀ pid p r x,
     getPlayer g w = Some (pid, p) → resource (pstate p) = Some r → rvolume r = Some x →
     ∃ q r', getPlayer g (snd (setVolume g v w)) = Some (pid, q) ∧
             status (pstate q) = status (pstate p) ∧
             resource (pstate q) = Some r' ∧ rvolume r' = Some (clampVolume v) ∧
             playStream r' = playStream r) ∧
  (isPlayerReady (getPlayer g w) = false →
     snd (setVolume g v w) = set_volumes (<[g := clampVolume v]>) w).
Proof.
  split.
  - intros pid p r x Hg Hr Hx. unfold setVolume. cbn [snd].
    set (w1 := set_volumes _ w).
    assert (Hg1 : getPlayer g w1 = Some (pid, p)) by done.
    assert (Hready : isPlayerReady (getPlayer g w1) = true).
    { rewrite Hg1. cbn. destruct (pstate p); cbn in *; by simplify_eq. }
    rewrite Hready, Hg1.
    rewrite (getPlayer_update g w1 pid p _ Hg1). eexists _, _. split; [done|]. cbn.
    destruct (pstate p); cbn in *; simplify_eq;
      unfold resource_setVolume; rewrite Hx; done.
  - intros Hn. unfold setVolume. cbn [snd].
    change (getPlayer g (set_volumes (<[g := clampVolume v]>) w)) with (getPlayer g w).
    by rewrite Hn.
Qed.

Section StatusReport.
Implicit Types (w : World) (g : guildId).

Lemma getPlayerStatus_no_player g w : players w !! g = None → getPlayerStatus g w = None.
Proof. intros H. unfold getPlayerStatus, getPlayer. by rewrite H. Qed.

Lemma hasConnection_lookup g w cid : connections w !! g = Some cid → hasConnection g w = true.
Proof. intros H. unfold hasConnection. rewrite H. apply bool_decide_eq_true. eauto. Qed.

Lemma restoreStream_with_player g now w pid p :
  getPlayer g w = Some (pid, p) →
  let w' := restoreStream g now w in
  currentStreams w' !! g =
    Some (RadioStream RADIO_STATIONS_egypt_url (Some RADIO_STATIONS_egypt) now) ∧
  ffmpegProcesses w' !! g = Some (length (procHeap w)) ∧
  procHeap w' !! length (procHeap w) =
    Some {| spawnUrl := RADIO_STATIONS_egypt_url; killed := false; exited := false |} ∧
  connections w' = connections w ∧ players w' = players w ∧ volumes w' = volumes w ∧
  (∃ q r, getPlayer g w' = Some (pid, q) ∧ pstate q = BufferingState r ∧
          rvolume r = Some (getVolume g w)).
Proof.
  intros Hg. cbn zeta. unfold restoreStream. rewrite playRadio_play_with.
  set (d := RadioStream _ _ _).
  destruct (play_with_spec g RADIO_STATIONS_egypt_url d w pid p Hg)
    as (w' & E & Hc & Hp & Hv & _ & _ & _ & _ & Hst & _).
  destruct (play_with_processes g RADIO_STATIONS_egypt_url d w pid p Hg)
    as (_ & Hf & Hpr & _).
  destruct (play_with_volume g RADIO_STATIONS_egypt_url d w pid p Hg)
    as (q & r & H1 & H2 & H3 & _).
  rewrite E in *. cbn [snd] in *.
  split_and!; try done.
  - by rewrite Hst, lookup_insert_eq.
  - by exists q, r.
Qed.
End StatusReport.

(** X13.  The status report.  After [leaveVoiceChannel] it shows no
    connection, no player, no stream, no statuses and an uptime of 0, and
    still the guild's volume.  After a play call that succeeded it shows
    the descriptor of the call, a buffering player, the stored volume and
    as uptime the time elapsed since the call. *)
Theorem status_report g now w :
  getConnectionStatus g now (snd (Core.leaveVoiceChannel g w)) =
    {| cs_hasConnection := false; cs_hasPlayer := false; cs_currentStream := None;
       cs_volume := getVolume g w; cs_playerStatus := None;
       cs_connectionStatus := None; cs_uptime := 0 |} ∧
  (∀ req t0, is_Some (getPlayer g w) →
     let s := getConnectionStatus g now (snd (play_stream g req t0 w)) in
     cs_currentStream s = Some (request_descriptor req t0) ∧
     cs_uptime s = (now - t0)%Z ∧ cs_playerStatus s = Some Buffering ∧
     cs_volume s = getVolume g w ∧ cs_hasPlayer s = true ∧
     cs_hasConnection s = hasConnection g w).
Proof.
  split.
  - unfold Core.leaveVoiceChannel. cbn [snd].
    destruct (core_cleanup_released g w) as (Hc & Hp & Hs & _).
    unfold getConnectionStatus. rewrite Hc, Hp, Hs.
    rewrite (getPlayerStatus_no_player _ _ Hp).
    unfold getVolume. rewrite volumes_core_cleanup. f_equal.
  - intros req t0 [[pid p] Hg]. cbn zeta. rewrite play_stream_play_with.
    set (d := request_descriptor req t0).
    destruct (play_with_spec g (request_url req) d w pid p Hg)
      as (w' & E & Hc & Hp & Hv & _ & _ & _ & _ & Hst & _ & _ & _ & Hg').
    rewrite E. cbn [snd]. unfold getConnectionStatus, getPlayerStatus, getVolume, hasConnection.
    rewrite Hst, lookup_insert_eq, Hg', Hv, Hp, Hc. cbn.
    apply getPlayer_lookup in Hg as [Hpl _]. rewrite Hpl.
    split_and!; try done.
    + unfold d. by destruct req.
Qed.

(** X14.  [restoreStream] never throws and does not remember what was
    playing: with a player it starts the Egyptian station, whatever the
    guild's descriptor was, at the guild's stored volume; without a player
    it writes no descriptor and spawns nothing. *)
Theorem restoreStream_outcomes g now w :
  (∀ pid p, getPlayer g w = Some (pid, p) →
     let w' := restoreStream g now w in
     currentStreams w' !! g =
       Some (RadioStream RADIO_STATIONS_egypt_url (Some RADIO_STATIONS_egypt) now) ∧
     ffmpegProcesses w' !! g = Some (length (procHeap w)) ∧
     procHeap w' !! length (procHeap w) =
       Some {| spawnUrl := "https://stream.radiojar.com/8s5u5tpdtwzuv";
               killed := false; exited := false |} ∧
     ∃ q r, getPlayer g w' = Some (pid, q) ∧ pstate q = BufferingState r ∧
            rvolume r = Some (getVolume g w)) ∧
  (getPlayer g w = None →
     restoreStream g now w = cleanupFFmpeg g w ∧
     currentStreams (restoreStream g now w) = currentStreams w ∧
     length (procHeap (restoreStream g now w)) = length (procHeap w)).
Proof.
  split.
  - intros pid p Hg.
    destruct (restoreStream_with_player g now w pid p Hg) as (H1 & H2 & H3 & _ & _ & _ & H4).
    cbn zeta. split_and!; done.
  - intros Hg. unfold restoreStream.
    rewrite playRadio_play_with, play_with_no_player by done. cbn [snd].
    destruct (cleanupFFmpeg_frame g w) as (_ & _ & Hst & _ & _ & _ & _ & _ & _ & Hl).
    done.
Qed.

Section VoiceUpdates.
Implicit Types (w : World) (g : guildId).

Lemma join_then_restore g ch guild now w :
  Core.validateChannel ch guild = Return () →
  ∃ cid pid w1,
    Core.joinVoiceChannel g ch guild true w = (Return (cid, pid), w1) ∧
    hasConnection g (restoreStream g now w1) = true ∧
    currentStreams (restoreStream g now w1) !! g =
      Some (RadioStream RADIO_STATIONS_egypt_url (Some RADIO_STATIONS_egypt) now) ∧
    volumes (restoreStream g now w1) = volumes w.
Proof.
  intros Hv.
  destruct (join_ready_succeeds g ch guild w Hv)
    as (cid & pid & c & E & Hc & _ & [[i p] Hg] & Hh & _).
  pose proof (volumes_join g ch guild true w) as Hvol.
  destruct (Core.joinVoiceChannel g ch guild true w) as [r w1]. cbn [fst snd] in *.
  subst r. exists cid, pid, w1. split; [done|].
  destruct (restoreStream_with_player g now w1 i p Hg) as (H1 & _ & _ & H2 & _ & H3 & _).
  split_and!; [|done|congruence].
  unfold hasConnection in *. by rewrite H2.
Qed.
End VoiceUpdates.

(** X15.  [handleUserVoiceUpdate].  Without settings or without the
    configured channel it does nothing.  It never leaves in 24/7 mode, and
    never while a human is in the channel.  When the channel is empty, the
    mode is off and a connection is registered, it leaves: the guild is
    released.  When someone is in the channel and no connection is
    registered, it joins and starts the Egyptian station. *)
Theorem user_voice_update g settings guild humans ready now w :
  let r := handleUserVoiceUpdate g settings guild humans ready now w in
  (settings = None → r = (Return (), w)) ∧
  (∀ s, settings = Some s → channels_cache guild !! voiceChannelId s = None →
        r = (Return (), w)) ∧
  (∀ s, settings = Some s → is_Some (getVoiceConnection g w) →
        voice24_7 s = true ∨ humans ≠ 0 → r = (Return (), w)) ∧
  (∀ s, settings = Some s → getVoiceConnection g w = None → humans = 0 →
        r = (Return (), w)) ∧
  (∀ s, settings = Some s → is_Some (channels_cache guild !! voiceChannelId s) →
        is_Some (getVoiceConnection g w) → voice24_7 s = false → humans = 0 →
        r = (Return (), Core.cleanupGuildResources g w) ∧
        released g w (snd r) ∧ hasConnection g (snd r) = false) ∧
  (∀ s, settings = Some s → Core.validateChannel (voiceChannelId s) guild = Return () →
        getVoiceConnection g w = None → humans ≠ 0 → ready = true →
        fst r = Return () ∧ hasConnection g (snd r) = true ∧
        currentStreams (snd r) !! g =
          Some (RadioStream RADIO_STATIONS_egypt_url (Some RADIO_STATIONS_egypt) now)).
Proof.
  cbn zeta. unfold handleUserVoiceUpdate. split_and!.
  - by intros ->.
  - intros s -> Hch. by rewrite Hch.
  - intros s -> Hconn Hstay.
    destruct (channels_cache guild !! voiceChannelId s); [|done]. cbn zeta.
    rewrite (bool_decide_eq_true_2 _ Hconn), andb_false_r.
    destruct Hstay as [H24|Hh].
    + by rewrite H24.
    + destruct (voice24_7 s); [done|]. cbn.
      by destruct humans.
  - intros s -> Hconn ->.
    destruct (channels_cache guild !! voiceChannelId s); [|done]. cbn zeta.
    rewrite Hconn. rewrite bool_decide_eq_false_2 by (by intros [? ?]).
    by destruct (voice24_7 s).
  - intros s -> [c Hch] Hconn H24 ->. rewrite Hch, H24. cbn zeta.
    rewrite (bool_decide_eq_true_2 _ Hconn). cbn [Nat.ltb Nat.leb Nat.eqb andb negb fst snd].
    split_and!; [done|apply core_cleanup_released|].
    eapply released_hasConnection, core_cleanup_released.
  - intros s -> Hv Hconn Hh ->.
    pose proof Hv as Hv'. apply validateChannel_ok in Hv' as (c & perms & Hc & _).
    rewrite Hc. cbn zeta. rewrite Hconn. rewrite bool_decide_eq_false_2 by (by intros [? ?]).
    assert (Hpos : (0 <? humans)%nat = true) by (apply Nat.ltb_lt; lia).
    rewrite Hpos. cbn [andb negb].
    destruct (join_then_restore g (voiceChannelId s) guild now w Hv)
      as (cid & pid & w1 & E & Hh1 & Hs1 & _).
    rewrite E. rewrite andb_false_r.
    by destruct (voice24_7 s); cbn.
Qed.

(** X16.  [handleBotKicked].  Whether it schedules a rejoin does not
    depend on who is in the channel: it does so exactly when the guild
    is in 24/7 mode, the configured channel exists and the manager holds
    no connection for the guild.  The rejoin, when its time comes, does
    nothing if a connection that is not destroyed is registered by then;
    otherwise, with a valid channel and a connection that gets Ready, it
    gives the guild a session playing the Egyptian station. *)
Theorem bot_kicked_rejoin g settings guild humans ready now w :
  handleBotKicked g settings guild humans w = handleBotKicked g settings guild 0 w ∧
  (handleBotKicked g settings guild humans w = true ↔
   ∃ s, settings = Some s ∧ voice24_7 s = true ∧
        is_Some (channels_cache guild !! voiceChannelId s) ∧ hasConnection g w = false) ∧
  (∀ s cid c, getVoiceConnection g w = Some cid → connHeap w !! cid = Some c →
              cstatus c ≠ Destroyed → rejoinAfterKick g s guild ready now w = w) ∧
  (∀ s, getVoiceConnection g w = None →
        Core.validateChannel (voiceChannelId s) guild = Return () →
        let w' := rejoinAfterKick g s guild true now w in
        hasConnection g w' = true ∧
        currentStreams w' !! g =
          Some (RadioStream RADIO_STATIONS_egypt_url (Some RADIO_STATIONS_egypt) now) ∧
        volumes w' = volumes w).
Proof.
  split_and!.
  - unfold handleBotKicked. destruct settings as [s|]; [|done].
    destruct (voice24_7 s); [|done]. cbn.
    by destruct (channels_cache guild !! voiceChannelId s).
  - unfold handleBotKicked. destruct settings as [s|].
    2:{ split; [done|]. by intros (s & ? & _). }
    destruct (voice24_7 s) eqn:H24; cbn.
    2:{ split; [done|]. intros (s' & [= <-] & ? & _). congruence. }
    destruct (channels_cache guild !! voiceChannelId s) as [c|] eqn:Hc.
    2:{ split; [done|]. intros (s' & [= <-] & _ & [? ?] & _). congruence. }
    destruct (hasConnection g w) eqn:Hh.
    + split; [done|]. intros (s' & _ & _ & _ & ?). congruence.
    + split; [|done]. intros _. exists s. rewrite Hc. eauto.
  - intros s cid c Hconn Hc Hd. unfold rejoinAfterKick. rewrite Hconn, Hc.
    by destruct (cstatus c).
  - intros s Hconn Hv. cbn zeta. unfold rejoinAfterKick. rewrite Hconn.
    destruct (join_then_restore g (voiceChannelId s) guild now w Hv)
      as (cid & pid & w1 & E & Hh1 & Hs1 & Hv1).
    rewrite E. done.
Qed.

(** X17.  [handleVoiceStateUpdate] never throws, and a bot's change of
    voice state never makes the manager join, leave or play: the state is
    what it was.  A rejoin is scheduled only for a bot that was in a
    channel and is in none now. *)
Theorem bots_do_not_drive_sessions g oldState newState settings guild humans ready now w :
  let r := handleVoiceStateUpdate g oldState newState settings guild humans ready now w in
  (member_user_bot newState = true → snd r = w) ∧
  (vs_channelId oldState = None → vs_channelId newState = None → r = (false, w)) ∧
  (fst r = true →
     member_user_bot oldState = true ∧ is_Some (vs_channelId oldState) ∧
     vs_channelId newState = None ∧ snd r = w ∧
     handleBotKicked g settings guild humans w = true) ∧
  (member_user_bot oldState = false → member_user_bot newState = false →
   is_Some (vs_channelId newState) →
     r = (false, snd (handleUserVoiceUpdate g settings guild humans ready now w))).
Proof.
  cbn zeta. unfold handleVoiceStateUpdate.
  destruct (member_user_bot oldState), (member_user_bot newState),
    (vs_channelId oldState) as [co|], (vs_channelId newState) as [cn|]; cbn;
    split_and!; try done; try (intros; split_and!; eauto; done);
    try (by intros _ [? ?]); try (by intros _ _ [? ?]).
Qed.

Section Handlers.
Implicit Types (w : World) (g : guildId).

Lemma stopAudio_spec g w :
  match getPlayer g w with
  | Some (pid, p) =>
    match status (pstate p) with
    | Playing | Paused => stopAudio g w = (true, stopCurrentPlayback g w)
    | _ => stopAudio g w = (false, w)
    end
  | None => stopAudio g w = (false, w)
  end.
Proof.
  unfold stopAudio. destruct (getPlayer g w) as [[pid p]|]; [|done].
  by destruct (status (pstate p)).
Qed.

Lemma handlePauseAction_spec g w :
  let r := handlePauseAction (getPlayerStatus g w) g w in
  message (fst r) ≠ MsgPauseFailed ∧
  (shouldUpdate (fst r) = true ↔ getPlayerStatus g w = Some Playing) ∧
  (shouldUpdate (fst r) = true → getPlayerStatus g (snd r) = Some Paused) ∧
  (shouldUpdate (fst r) = false → snd r = w).
Proof.
  cbn zeta. unfold handlePauseAction, getPlayerStatus.
  pose proof (pauseAudio_spec g w) as Hp.
  destruct (getPlayer g w) as [[pid p]|] eqn:Hg; [|by split_and!].
  pose proof (getPlayer_update g w pid p) as Hup.
  destruct (pstate p) as [|r|r|r|r] eqn:Hs; cbn; try by split_and!.
  rewrite Hp. cbn. split_and!; try done.
  intros _. by rewrite (Hup _ Hg).
Qed.

Lemma handleResumeAction_spec g w :
  let r := handleResumeAction (getPlayerStatus g w) g w in
  message (fst r) ≠ MsgResumeFailed ∧
  (shouldUpdate (fst r) = true ↔ getPlayerStatus g w = Some Paused) ∧
  (shouldUpdate (fst r) = true → getPlayerStatus g (snd r) = Some Playing) ∧
  (shouldUpdate (fst r) = false → snd r = w).
Proof.
  cbn zeta. unfold handleResumeAction, getPlayerStatus.
  pose proof (resumeAudio_spec g w) as Hp.
  destruct (getPlayer g w) as [[pid p]|] eqn:Hg; [|by split_and!].
  pose proof (getPlayer_update g w pid p) as Hup.
  destruct (pstate p) as [|r|r|r|r] eqn:Hs; cbn; try by split_and!.
  rewrite Hp. cbn. split_and!; try done.
  intros _. by rewrite (Hup _ Hg).
Qed.

Lemma handleStopAction_spec g w :
  let r := handleStopAction (getPlayerStatus g w) g w in
  message (fst r) ≠ MsgStopFailed ∧
  (shouldUpdate (fst r) = true ↔
     getPlayerStatus g w = Some Playing ∨ getPlayerStatus g w = Some Paused) ∧
  (shouldUpdate (fst r) = true →
     currentStreams (snd r) !! g = None ∧ ffmpegProcesses (snd r) !! g = None) ∧
  (shouldUpdate (fst r) = false → snd r = w).
Proof.
  cbn zeta. unfold handleStopAction, getPlayerStatus.
  pose proof (stopAudio_spec g w) as Hp.
  destruct (stopCurrentPlayback_released g w) as (R1 & R2 & _).
  destruct (getPlayer g w) as [[pid p]|] eqn:Hg.
  2:{ split_and!; try done. split; [done|by intros [|]]. }
  destruct (pstate p) as [|r|r|r|r] eqn:Hs; cbn in *;
    rewrite ?Hp; cbn; split_and!; try done; eauto;
    split; try done; try (by intros [|]); auto.
Qed.
End Handlers.

(** X18.  The interaction handler checks the player's status before it
    calls the manager, and the check agrees with the manager's own: when
    the status handed in is the current one, none of pause, stop and
    resume can report the manager's failure.  Each reports an update
    exactly from the statuses it is for, and one that reports none has
    changed nothing. *)
Theorem guarded_actions_never_fail g w :
  let st := getPlayerStatus g w in
  (message (fst (handlePauseAction st g w)) ≠ MsgPauseFailed ∧
   message (fst (handleStopAction st g w)) ≠ MsgStopFailed ∧
   message (fst (handleResumeAction st g w)) ≠ MsgResumeFailed) ∧
  ((shouldUpdate (fst (handlePauseAction st g w)) = true ↔ st = Some Playing) ∧
   (shouldUpdate (fst (handleStopAction st g w)) = true ↔
      st = Some Playing ∨ st = Some Paused) ∧
   (shouldUpdate (fst (handleResumeAction st g w)) = true ↔ st = Some Paused)) ∧
  ((shouldUpdate (fst (handlePauseAction st g w)) = true →
      getPlayerStatus g (snd (handlePauseAction st g w)) = Some Paused) ∧
   (shouldUpdate (fst (handleStopAction st g w)) = true →
      currentStreams (snd (handleStopAction st g w)) !! g = None) ∧
   (shouldUpdate (fst (handleResumeAction st g w)) = true →
      getPlayerStatus g (snd (handleResumeAction st g w)) = Some Playing)) ∧
  ((shouldUpdate (fst (handlePauseAction st g w)) = false →
      snd (handlePauseAction st g w) = w) ∧
   (shouldUpdate (fst (handleStopAction st g w)) = false →
      snd (handleStopAction st g w) = w) ∧
   (shouldUpdate (fst (handleResumeAction st g w)) = false →
      snd (handleResumeAction st g w) = w)).
Proof.
  cbn zeta.
  destruct (handlePauseAction_spec g w) as (P1 & P2 & P3 & P4).
  destruct (handleStopAction_spec g w) as (S1 & S2 & S3 & S4).
  destruct (handleResumeAction_spec g w) as (R1 & R2 & R3 & R4).
  split_and!; try done. intros H. by apply S3.
Qed.

(** X19.  [executeAudioAction] acts only on the recitation the button
    belongs to: unless the guild has a player and a Quran descriptor with
    that surah and that reciter, it reports "no such audio" and changes
    nothing, whatever the action.  And in every case an action that
    reports no update has changed nothing. *)
Theorem executeAudioAction_guard action g surah reciter w :
  let r := executeAudioAction action g surah reciter w in
  ((getPlayerStatus g w = None ∨
    (∀ url m t, getCurrentStream g w ≠ Some (QuranStream url surah reciter m t))) →
   r = ({| shouldUpdate := false; message := MsgNoSuchAudio; color := None |}, w)) ∧
  (shouldUpdate (fst r) = false → snd r = w) ∧
  (message (fst r) ≠ MsgPauseFailed ∧ message (fst r) ≠ MsgStopFailed ∧
   message (fst r) ≠ MsgResumeFailed ∧ message (fst r) ≠ MsgVolumeFailed).
Proof.
  cbn zeta. unfold executeAudioAction.
  set (valid := match getPlayerStatus g w with Some _ => _ | None => _ end).
  destruct (handlePauseAction_spec g w) as (P1 & _ & _ & P4).
  destruct (handleStopAction_spec g w) as (S1 & _ & _ & S4).
  destruct (handleResumeAction_spec g w) as (R1 & _ & _ & R4).
  assert (Hup : shouldUpdate (fst (handleVolumeUpAction g w)) = true ∧
                message (fst (handleVolumeUpAction g w)) ≠ MsgVolumeFailed).
  { unfold handleVolumeUpAction. cbn zeta.
    destruct (setVolume_volumes g (Math_min 2 (getCurrentVolume g w + 0.1)) w) as [Hs _].
    destruct (setVolume g _ w) as [b w']. cbn in *. subst b. done. }
  assert (Hdn : shouldUpdate (fst (handleVolumeDownAction g w)) = true ∧
                message (fst (handleVolumeDownAction g w)) ≠ MsgVolumeFailed).
  { unfold handleVolumeDownAction. cbn zeta.
    destruct (setVolume_volumes g (Math_max 0 (getCurrentVolume g w - 0.1)) w) as [Hs _].
    destruct (setVolume g _ w) as [b w']. cbn in *. subst b. done. }
  split; [|split].
  - intros Hbad. assert (Hv : valid = false).
    { unfold valid. destruct Hbad as [->|Hbad]; [done|].
      destruct (getPlayerStatus g w); [|done].
      destruct (getCurrentStream g w) as [[|url s r m t]|] eqn:Hs; try done.
      destruct (bool_decide_reflect (s = surah)) as [->|]; [|done].
      destruct (bool_decide_reflect (r = reciter)) as [->|]; [|done].
      by destruct (Hbad url m t). }
    by rewrite Hv.
  - destruct valid; cbn [negb]; [|done].
    destruct action;
      first [ exact P4 | exact S4 | exact R4
            | intros H; rewrite (proj1 Hup) in H; done
            | intros H; rewrite (proj1 Hdn) in H; done
            | done ].
  - destruct valid; cbn [negb]; [|repeat split; discriminate].
    assert (Hsyn : ∀ (b : bool) (x y z : ActionMessage), y ≠ z → x ≠ z →
              (if b then x else y) ≠ z) by (by intros []).
    destruct action; cbn [fst snd].
    + split_and!; [exact P1|..]; unfold handlePauseAction;
        destruct (getPlayerStatus g w) as [[]|]; try discriminate;
        destruct (pauseAudio g w) as [[] ?]; discriminate.
    + split_and!; [|exact S1|..]; unfold handleStopAction;
        destruct (getPlayerStatus g w) as [[]|]; try discriminate;
        destruct (stopAudio g w) as [[] ?]; discriminate.
    + split_and!; [| |exact R1|]; unfold handleResumeAction;
        destruct (getPlayerStatus g w) as [[]|]; try discriminate;
        destruct (resumeAudio g w) as [[] ?]; discriminate.
    + split_and!; [| | |exact (proj2 Hup)]; unfold handleVolumeUpAction; cbn zeta;
        destruct (setVolume g _ w) as [[] ?]; discriminate.
    + split_and!; [| | |exact (proj2 Hdn)]; unfold handleVolumeDownAction; cbn zeta;
        destruct (setVolume g _ w) as [[] ?]; discriminate.
    + repeat split; discriminate.
    + repeat split; discriminate.
Qed.

Section MinMax.
Local Open Scope float_scope.
Import AUDIO_CONFIG.

Lemma not_zero_two s : Prim2SF 2 ≠ S754_zero s.
Proof. by vm_compute. Qed.

Lemma Math_min_two_l y :
  is_nan y = false →
  ((y <? 2) = true ∧ Math_min 2 y = y ∧ Math_min y 2 = y) ∨
  ((y <? 2) = false ∧ Math_min 2 y = 2 ∧ Math_min y 2 = 2).
Proof.
  intros Hy. unfold Math_min. rewrite Hy. cbn [orb is_nan].
  change (is_nan 2) with false. cbn [orb].
  destruct (float_trichotomy y 2 Hy eq_refl) as [H1 H2 _ _|H1 H2 _ _|H1 H2 _ _ H5].
  - left. by rewrite H1, H2.
  - right. by rewrite H1, H2.
  - right. rewrite H1, H2. split; [done|]. split; [done|].
    destruct H5 as [->|(s & s' & _ & H)]; [done|]. by destruct (not_zero_two s').
Qed.

Lemma Math_min_two_comm y : Math_min 2 y = Math_min y 2.
Proof.
  destruct (is_nan y) eqn:Hy.
  - unfold Math_min. by rewrite Hy, orb_true_r.
  - destruct (Math_min_two_l y Hy) as [(_ & -> & ->)|(_ & -> & ->)]; done.
Qed.

Lemma Math_min_two_idem y : Math_min 2 (Math_min 2 y) = Math_min 2 y.
Proof.
  destruct (is_nan y) eqn:Hy.
  - assert (E : Math_min 2 y = nan) by (unfold Math_min; by rewrite Hy, orb_true_r).
    rewrite E. by vm_compute.
  - destruct (Math_min_two_l y Hy) as [(_ & E & _)|(_ & E & _)].
    + by rewrite !E.
    + rewrite !E. by vm_compute.
Qed.

Lemma clampVolume_min_two y : clampVolume (Math_min 2 y) = clampVolume y.
Proof. unfold clampVolume, MAX_VOLUME. by rewrite Math_min_two_idem. Qed.

Lemma lt_zero_not_gt_two z : (z <? 0) = true → (2 <? z) = true → False.
Proof.
  rewrite !ltb_spec. change (Prim2SF 0) with (S754_zero false).
  change (Prim2SF 2) with sf_two. unfold sf_two.
  destruct (Prim2SF z) as [s|s| |s m e]; try done; destruct s; done.
Qed.

Lemma clampVolume_max_zero z : clampVolume (Math_max 0 z) = clampVolume z.
Proof.
  destruct (is_nan z) eqn:Hz.
  { assert (E : Math_max 0 z = nan) by (unfold Math_max; by rewrite Hz, orb_true_r).
    rewrite E, (clampVolume_nan z Hz). by vm_compute. }
  assert (Hmax : Math_max 0 z =
            if z <? 0 then 0 else if 0 <? z then z else 0).
  { unfold Math_max. rewrite Hz. change (is_nan 0) with false. cbn [orb].
    destruct (z <? 0); [done|]. by destruct (0 <? z). }
  rewrite Hmax.
  destruct (float_trichotomy z 0 Hz eq_refl) as [H1 H2 H3 H4|H1 H2 H3 H4|H1 H2 H3 H4 H5];
    rewrite H1, ?H2.
  - destruct (clampVolume_cases z Hz) as [[_ ->]|[[H _]|(H & _)]].
    + by vm_compute.
    + by destruct (lt_zero_not_gt_two z).
    + congruence.
  - done.
  - destruct H5 as [->|(s & s' & H & _)]; [done|].
    apply float_of_spec in H. subst z. by destruct s.
Qed.
End MinMax.

(** X20.  The volume buttons of the interaction handler compute the new
    volume themselves, min(2, current + 0.1) and max(0, current - 0.1),
    and hand it to [setVolume]; what gets stored is what [increaseVolume]
    and [decreaseVolume] store, in every state.  Both always report an
    update.  When the stored volumes are clamped values the number shown
    in the message is the number stored. *)
Theorem volume_buttons_agree g w :
  volumes (snd (handleVolumeUpAction g w)) = volumes (snd (increaseVolume g w)) ∧
  volumes (snd (handleVolumeDownAction g w)) = volumes (snd (decreaseVolume g w)) ∧
  shouldUpdate (fst (handleVolumeUpAction g w)) = true ∧
  shouldUpdate (fst (handleVolumeDownAction g w)) = true ∧
  (volumes_ok w →
     ∃ up down,
       message (fst (handleVolumeUpAction g w)) = MsgVolumeUp up ∧
       volumes (snd (handleVolumeUpAction g w)) !! g = Some up ∧
       message (fst (handleVolumeDownAction g w)) = MsgVolumeDown down ∧
       volumes (snd (handleVolumeDownAction g w)) !! g = Some down).
Proof.
  unfold handleVolumeUpAction, handleVolumeDownAction, increaseVolume, decreaseVolume,
    getCurrentVolume.
  cbn zeta.
  set (c := getVolume g w).
  destruct (setVolume_volumes g (Math_min 2 (c + 0.1)) w) as [U1 U2].
  destruct (setVolume_volumes g (Math_max 0 (c - 0.1)) w) as [D1 D2].
  destruct (setVolume_volumes g (c + AUDIO_CONFIG.VOLUME_STEP) w) as [_ I2].
  destruct (setVolume_volumes g (c - AUDIO_CONFIG.VOLUME_STEP) w) as [_ J2].
  destruct (setVolume g (Math_min 2 (c + 0.1)) w) as [bu wu].
  destruct (setVolume g (Math_max 0 (c - 0.1)) w) as [bd wd].
  cbn [fst snd] in *. subst bu bd. cbn [fst snd shouldUpdate message].
  rewrite U2, D2, I2, J2.
  rewrite clampVolume_min_two, clampVolume_max_zero.
  split_and!; try done.
  intros Hok. pose proof (getVolume_ok g w Hok) as Hc. fold c in Hc.
  exists (Math_min 2 (c + 0.1))%float, (Math_max 0 (c - 0.1))%float.
  rewrite !lookup_insert_eq.
  split_and!; try done.
  - pose proof (increase_formula c Hc) as Hi.
    unfold AUDIO_CONFIG.VOLUME_STEP, AUDIO_CONFIG.MAX_VOLUME in Hi.
    rewrite Hi. f_equal. symmetry. apply Math_min_two_comm.
  - pose proof (decrease_formula c Hc) as Hi.
    unfold AUDIO_CONFIG.VOLUME_STEP, AUDIO_CONFIG.MIN_VOLUME in Hi.
    rewrite Hi. f_equal. unfold Math_max.
    generalize (c - 0.1)%float. intros z.
    destruct (is_nan z) eqn:Hz; [done|]. change (is_nan 0) with false. cbn [orb].
    destruct (float_trichotomy z 0 Hz eq_refl) as [H1 H2 _ _|H1 H2 _ _|H1 H2 _ _ H5];
      rewrite H1, H2; try done.
    destruct H5 as [->|(s & s' & H & _)]; [done|].
    apply float_of_spec in H. subst z. by destruct s.
Qed.

Section Uptime.
Local Open Scope Z_scope.

Lemma padStart_two_digits n :
  0 <= n < 60 →
  padStart 2 "0" (pretty n) = two_digits n ∧ String.length (two_digits n) = 2%nat.
Proof.
  intros Hn.
  assert (∃ k : nat, n = Z.of_nat k ∧ (k < 60)%nat) as (k & -> & Hk).
  { exists (Z.to_nat n). lia. }
  clear Hn.
  do 60 (destruct k as [|k]; [by vm_compute|]). lia.
Qed.
End Uptime.

(** ** The handler's play commands *)

Section HandlerCommands.
Implicit Types (w : World) (g : guildId).

(** A join of the older manager that becomes ready: the session it
    leaves. *)
Lemma legacy_join_ready_session g ch w :
  ∃ cid pid c w',
    Legacy.joinVoiceChannel g ch true w = (Return (cid, pid), w') ∧
    connections w' !! g = Some cid ∧ connHeap w' !! cid = Some c ∧
    joinConfig_channelId c = ch ∧ cstatus c = Ready ∧
    getPlayer g w' = Some (pid, {| pstate := IdleState; plisteners := [g] |}) ∧
    currentStreams w' !! g = None ∧ volumes w' = volumes w.
Proof.
  unfold Legacy.joinVoiceChannel.
  destruct (legacy_cleanup_released g w) as (_ & _ & Hs1 & _).
  pose proof (volumes_legacy_cleanup g w) as Hv1.
  set (w1 := Legacy.cleanupGuildResources g w) in *. clearbody w1.
  destruct (voice_join_spec ch g w1) as ((c2 & Hc2 & Hch & _) & _ & _).
  pose proof (same_voice_join ch g w1) as (_ & _ & _ & _ & Hv2 & Hs2).
  destruct (voice_joinVoiceChannel ch g w1) as [cid w2]. cbn [fst snd] in *.
  unfold createAudioPlayer. cbn zeta.
  set (pid := length (playerHeap w2)).
  set (w3 := set_playerHeap _ w2).
  set (w5 := set_players _ (set_connections _ (subscribe cid pid w3))).
  set (w6 := update_connection cid (conn_set_status Ready) w5).
  set (w7 := Legacy.setupConnectionListeners g cid w6).
  assert (H5 : connHeap w5 !! cid = Some (conn_set_subscription pid c2)).
  { unfold w5, subscribe. cbn.
    exact (update_connection_at cid _ w3 c2 Hc2). }
  assert (H6 : connHeap w6 !! cid = Some (conn_set_status Ready (conn_set_subscription pid c2))).
  { exact (update_connection_at cid _ w5 _ H5). }
  assert (H7 : connHeap w7 !! cid =
    Some (conn_set_listeners
            (clisteners (conn_set_status Ready (conn_set_subscription pid c2)) ++ [g])
            (conn_set_status Ready (conn_set_subscription pid c2)))).
  { exact (update_connection_at cid _ w6 _ H6). }
  assert (P3 : playerHeap w3 !! pid = Some {| pstate := IdleState; plisteners := [] |}).
  { unfold w3, pid. cbn. rewrite lookup_app_r by lia. by rewrite Nat.sub_diag. }
  assert (P7 : playerHeap w7 = playerHeap w3).
  { unfold w7, Legacy.setupConnectionListeners, w6.
    destruct (update_connection_maps cid
                (λ c, conn_set_listeners (clisteners c ++ [g]) c)
                (update_connection cid (conn_set_status Ready) w5)) as (_&_&_&->&_).
    destruct (update_connection_maps cid (conn_set_status Ready) w5) as (_&_&_&->&_).
    unfold w5, subscribe. cbn.
    by destruct (update_connection_maps cid (conn_set_subscription pid) w3) as (_&_&_&->&_). }
  assert (M7 : connections w7 = <[g := cid]> (connections w3) ∧
               players w7 = <[g := pid]> (players w3) ∧
               currentStreams w7 = currentStreams w2 ∧ volumes w7 = volumes w2).
  { pose proof (same_update_connection cid
                  (λ c, conn_set_listeners (clisteners c ++ [g]) c) w6)
      as (_ & A2 & A3 & _ & A5 & A6).
    pose proof (same_update_connection cid (conn_set_status Ready) w5)
      as (_ & B2 & B3 & _ & B5 & B6).
    pose proof (same_subscribe cid pid w3) as (_ & C2 & C3 & _ & C5 & C6).
    unfold w7, Legacy.setupConnectionListeners.
    rewrite A2, A3, A5, A6. unfold w6. rewrite B2, B3, B5, B6.
    unfold w5. cbn. rewrite C2, C3, C5, C6. done. }
  destruct M7 as (M1 & M2 & M3 & M4).
  assert (L7 : pid < length (playerHeap w7)).
  { rewrite P7. by eapply lookup_lt_Some. }
  rewrite <- P7 in P3.
  clearbody w7. clear H5 H6 P7. clearbody w6 w5 w3 pid.
  eexists cid, pid, _, _. split; [reflexivity|].
  unfold Legacy.setupPlayerListeners. rewrite P3.
  unfold getPlayer. cbn. rewrite M1, M2, M3, M4, !lookup_insert_eq.
  rewrite list_lookup_insert_eq by done.
  split_and!.
  - done.
  - exact H7.
  - exact Hch.
  - done.
  - done.
  - by rewrite Hs2.
  - by rewrite Hv2.
Qed.

(** A join of the older manager that times out leaves nothing of the
    guild behind. *)
Lemma legacy_join_timeout_session g ch w :
  ∃ w', Legacy.joinVoiceChannel g ch false w = (Throw AbortError, w') ∧
        hasConnection g w' = false ∧ players w' !! g = None ∧
        currentStreams w' !! g = None ∧ ffmpegProcesses w' !! g = None ∧
        volumes w' = volumes w.
Proof.
  pose proof (volumes_legacy_join g ch false w) as Hv.
  unfold Legacy.joinVoiceChannel in *.
  set (w1 := Legacy.cleanupGuildResources g w) in *. clearbody w1.
  destruct (voice_joinVoiceChannel ch g w1) as [cid w2].
  unfold createAudioPlayer in *. cbn zeta in *. cbn [snd] in Hv.
  eexists. split; [reflexivity|].
  match goal with |- context [Legacy.cleanupGuildResources g ?x] =>
    pose proof (legacy_cleanup_released g x) as R;
    pose proof (released_hasConnection _ _ _ R) as Hh;
    destruct R as (_ & R2 & R3 & R4 & _) end.
  split_and!; [exact Hh|exact R2|exact R3|exact R4|exact Hv].
Qed.

(** X22. [startAudioPlayback]: without a voice channel of the member
    nothing is touched; with no connection of the guild it joins the
    member's channel first, and a join that times out leaves no entry of
    the guild and answers with the error; with a connection it does not
    join, so the bot stays where it is whatever channel the member is in;
    whenever it answers that playback started, the descriptor is the
    Quran stream asked for. *)
Theorem startAudioPlayback_outcomes g mvc url s r ready now w :
  let res := startAudioPlayback g mvc url s r ready now w in
  (mvc = None → res = (ReplyNeedVoiceChannel, w)) ∧
  (∀ ch, mvc = Some ch → hasConnection g w = false → ready = false →
     fst res = ReplyPlaybackError ∧ hasConnection g (snd res) = false ∧
     players (snd res) !! g = None ∧ currentStreams (snd res) !! g = None ∧
     ffmpegProcesses (snd res) !! g = None ∧ volumes (snd res) = volumes w) ∧
  (∀ ch, mvc = Some ch → hasConnection g w = false → ready = true →
     fst res = ReplyPlaybackStarted ∧
     currentStreams (snd res) !! g = Some (QuranStream url s r None now) ∧
     (∃ cid c, connections (snd res) !! g = Some cid ∧
               connHeap (snd res) !! cid = Some c ∧
               joinConfig_channelId c = ch ∧ cstatus c = Ready) ∧
     (∃ pid q rs, getPlayer g (snd res) = Some (pid, q) ∧
                  pstate q = BufferingState rs ∧
                  rvolume rs = Some (getVolume g w))) ∧
  (∀ ch pid p, mvc = Some ch → hasConnection g w = true →
     getPlayer g w = Some (pid, p) →
     fst res = ReplyPlaybackStarted ∧
     currentStreams (snd res) !! g = Some (QuranStream url s r None now) ∧
     connections (snd res) = connections w ∧ connHeap (snd res) = connHeap w) ∧
  (∀ ch, mvc = Some ch → hasConnection g w = true → getPlayer g w = None →
     res = (ReplyPlaybackError, cleanupFFmpeg g w)).
Proof.
  cbn zeta. unfold startAudioPlayback. split_and!.
  - by intros ->.
  - intros ch -> Hh ->. rewrite Hh. cbn [negb].
    destruct (legacy_join_timeout_session g ch w) as (w' & -> & H1 & H2 & H3 & H4 & H5).
    cbn [fst snd]. done.
  - intros ch -> Hh ->. rewrite Hh. cbn [negb].
    destruct (legacy_join_ready_session g ch w)
      as (cid & pid & c & w' & -> & Hc & Hc' & Hch & Hst & Hp & Hs & Hv).
    rewrite legacy_playQuran_play_with.
    destruct (play_with_spec g url (QuranStream url s r None now) w' pid _ Hp)
      as (w2 & -> & E1 & _ & _ & _ & _ & _ & E2 & E3 & _ & _ & _ & E4).
    cbn [fst snd]. rewrite E1, E2, E3, lookup_insert_eq.
    split_and!; [done|done|by exists cid, c|].
    eexists _, _, _. split; [exact E4|]. split; [reflexivity|]. cbn.
    unfold getVolume. by rewrite Hv.
  - intros ch pid p -> Hh Hp. rewrite Hh. cbn [negb].
    rewrite legacy_playQuran_play_with.
    destruct (play_with_spec g url (QuranStream url s r None now) w pid _ Hp)
      as (w2 & -> & E1 & _ & _ & _ & _ & _ & E2 & E3 & _).
    cbn [fst snd]. by rewrite E3, lookup_insert_eq.
  - intros ch -> Hh Hp. rewrite Hh. cbn [negb].
    rewrite legacy_playQuran_play_with, (play_with_no_player _ _ _ _ Hp). done.
Qed.

(** X23. [playQuranRadio]: as for a recitation, with the radio
    descriptor; and a name that is no station is found out only after
    the join, so that it leaves the bot connected with nothing playing,
    and leaves an existing session as it was. *)
Theorem playQuranRadio_outcomes g mvc station ready now w :
  let res := playQuranRadio g mvc station ready now w in
  (mvc = None → res = (ReplyNeedVoiceChannel, w)) ∧
  (∀ ch, mvc = Some ch → hasConnection g w = false → ready = false →
     fst res = ReplyRadioError ∧ hasConnection g (snd res) = false ∧
     players (snd res) !! g = None ∧ currentStreams (snd res) !! g = None ∧
     ffmpegProcesses (snd res) !! g = None ∧ volumes (snd res) = volumes w) ∧
  (∀ ch url, mvc = Some ch → station = Some url → hasConnection g w = false →
     ready = true →
     fst res = ReplyRadioStarted ∧
     currentStreams (snd res) !! g = Some (RadioStream url None now) ∧
     (∃ cid c, connections (snd res) !! g = Some cid ∧
               connHeap (snd res) !! cid = Some c ∧
               joinConfig_channelId c = ch ∧ cstatus c = Ready)) ∧
  (∀ ch url pid p, mvc = Some ch → station = Some url → hasConnection g w = true →
     getPlayer g w = Some (pid, p) →
     fst res = ReplyRadioStarted ∧
     currentStreams (snd res) !! g = Some (RadioStream url None now) ∧
     connections (snd res) = connections w ∧ connHeap (snd res) = connHeap w) ∧
  (∀ ch, mvc = Some ch → station = None → hasConnection g w = false → ready = true →
     fst res = ReplyRadioError ∧ hasConnection g (snd res) = true ∧
     currentStreams (snd res) !! g = None) ∧
  (∀ ch, mvc = Some ch → station = None → hasConnection g w = true →
     res = (ReplyRadioError, w)).
Proof.
  cbn zeta. unfold playQuranRadio. split_and!.
  - by intros ->.
  - intros ch -> Hh ->. rewrite Hh. cbn [negb].
    destruct (legacy_join_timeout_session g ch w) as (w' & -> & H1 & H2 & H3 & H4 & H5).
    cbn [fst snd]. done.
  - intros ch url -> -> Hh ->. rewrite Hh. cbn [negb].
    destruct (legacy_join_ready_session g ch w)
      as (cid & pid & c & w' & -> & Hc & Hc' & Hch & Hst & Hp & Hs & Hv).
    rewrite legacy_playRadio_play_with.
    destruct (play_with_spec g url (RadioStream url None now) w' pid _ Hp)
      as (w2 & -> & E1 & _ & _ & _ & _ & _ & E2 & E3 & _).
    cbn [fst snd]. rewrite E1, E2, E3, lookup_insert_eq.
    split_and!; [done|done|by exists cid, c].
  - intros ch url pid p -> -> Hh Hp. rewrite Hh. cbn [negb].
    rewrite legacy_playRadio_play_with.
    destruct (play_with_spec g url (RadioStream url None now) w pid _ Hp)
      as (w2 & -> & E1 & _ & _ & _ & _ & _ & E2 & E3 & _).
    cbn [fst snd]. by rewrite E3, lookup_insert_eq.
  - intros ch -> -> Hh ->. rewrite Hh. cbn [negb].
    destruct (legacy_join_ready_session g ch w)
      as (cid & pid & c & w' & -> & Hc & Hc' & Hch & Hst & Hp & Hs & Hv).
    cbn [fst snd]. split_and!; [done| |done].
    by apply (hasConnection_lookup g w' cid).
  - intros ch -> -> Hh. by rewrite Hh.
Qed.

End HandlerCommands.

(** ** Stopping the radio from the handler; the detailed report *)

Section StopRadio.
Implicit Types (w : World) (g : guildId).

Lemma stopAudio_at_string g w : stopAudio_at (KeyString g) w = stopAudio g w.
Proof.
  unfold stopAudio_at, stopAudio, players_get.
  by destruct (getPlayer g w) as [[pid p]|].
Qed.

(** X24. [stopRadio] announces the stop and stops nothing: with a radio
    playing, the state after it is the state before it, the stream still
    registered and its transcoder still live; [stopAudio] at the guild's
    id, which is what the other callers hand it, ends both. *)
Theorem stopRadio_stops_nothing g w pid p d f q :
  getPlayer g w = Some (pid, p) → status (pstate p) = Playing →
  currentStreams w !! g = Some d →
  ffmpegProcesses w !! g = Some f → procHeap w !! f = Some q → live q = true →
  stopRadio w = (ReplyRadioStopped, w) ∧
  stopAudio_at (KeyString g) w = stopAudio g w ∧
  fst (stopAudio g w) = true ∧
  currentStreams (snd (stopAudio g w)) !! g = None ∧
  ffmpegProcesses (snd (stopAudio g w)) !! g = None ∧
  ∃ q', procHeap (snd (stopAudio g w)) !! f = Some q' ∧ live q' = false.
Proof.
  intros Hg Hs Hd Hf Hq Hl.
  split; [reflexivity|]. split; [apply stopAudio_at_string|].
  pose proof (stopAudio_spec g w) as E. rewrite Hg, Hs in E. rewrite E. cbn [fst snd].
  destruct (stopCurrentPlayback_released g w) as (R1 & R2 & R3).
  split_and!; [done|exact R1|exact R2|exact (R3 f q Hf Hq)].
Qed.

Lemma stopRadio_stops_nothing_witness :
  let w := engine_playing 0 (snd (Legacy.playRadio "g" "u" 5 legacyJoinedWorld)) in
  stopRadio w = (ReplyRadioStopped, w) ∧
  currentStreams w !! "g" = Some (RadioStream "u" None 5) ∧
  currentStreams (snd (stopAudio "g" w)) !! "g" = None.
Proof.
  cbn zeta.
  set (w := engine_playing 0 (snd (Legacy.playRadio "g" "u" 5 legacyJoinedWorld))).
  assert (Hg : getPlayer "g" w =
    Some (0, {| pstate := PlayingState {| playStream := 0; rvolume := Some 1%float;
                                          silenceRemaining := -1 |};
                plisteners := ["g"] |})) by (vm_compute; reflexivity).
  assert (Hd : currentStreams w !! "g" = Some (RadioStream "u" None 5))
    by (vm_compute; reflexivity).
  assert (Hf : ffmpegProcesses w !! "g" = Some 0) by (vm_compute; reflexivity).
  assert (Hq : procHeap w !! 0 = Some {| spawnUrl := "u"; killed := false; exited := false |})
    by (vm_compute; reflexivity).
  destruct (stopRadio_stops_nothing "g" w _ _ _ _ _ Hg eq_refl Hd Hf Hq eq_refl)
    as (H1 & _ & _ & H4 & _).
  split; [exact H1|]. split; [exact Hd|exact H4].
Defined.

End StopRadio.

Section DetailedInfo.
Implicit Types (w : World) (g : guildId).

Lemma info_update_player g now pid f w q :
  getPlayer g w = Some (pid, q) →
  getDetailedStreamInfo g now (update_player pid f w) =
  match getDetailedStreamInfo g now w with
  | NothingPlaying h => NothingPlaying h
  | StreamPlaying t _ v h c s u uf =>
    StreamPlaying t (statusMap (Some (status (f (pstate q))))) v h c s u uf
  end.
Proof.
  intros Hg. pose proof (getPlayer_update g w pid q f Hg) as Hu.
  unfold getDetailedStreamInfo, getPlayerStatus, getVolume. rewrite Hu, Hg.
  apply getPlayer_lookup in Hg as [_ Hp].
  unfold update_player. rewrite Hp. cbn.
  by destruct (currentStreams w !! g).
Qed.

(** X25. The detailed report along a playback: after [playRadio] it
    shows the radio stream as loading, at the stored volume, with the
    time since the start (none for a start time of 0, which the code
    takes for a missing one); once the player plays it shows playing,
    after a pause paused, all else equal; after the stop it shows that
    nothing is playing. *)
Theorem detailed_info_along_playback g url now now' w pid p :
  getPlayer g w = Some (pid, p) →
  let w1 := snd (Legacy.playRadio g url now w) in
  let w2 := engine_playing pid w1 in
  let w3 := snd (pauseAudio g w2) in
  let w4 := snd (stopAudio g w3) in
  let up := if (now =? 0)%Z then 0%Z else (now' - now)%Z in
  let info st :=
    StreamPlaying RADIO st (getVolume g w) (hasConnection g w)
      (match connections w !! g with
       | Some cid => cstatus <$> connHeap w !! cid
       | None => None
       end)
      (RadioStream url None now) (up / 1000)%Z (formatUptime up) in
  getDetailedStreamInfo g now' w1 = info TextLoading ∧
  getDetailedStreamInfo g now' w2 = info TextPlaying ∧
  getDetailedStreamInfo g now' w3 = info TextPaused ∧
  getDetailedStreamInfo g now' w4 = NothingPlaying (hasConnection g w).
Proof.
  intros Hg. cbn zeta. rewrite legacy_playRadio_play_with.
  destruct (play_with_spec g url (RadioStream url None now) w pid p Hg)
    as (w1 & -> & E1 & _ & E3 & _ & _ & _ & E7 & E8 & _ & _ & _ & G1).
  cbn [snd].
  assert (I1 : getDetailedStreamInfo g now' w1 =
    StreamPlaying RADIO TextLoading (getVolume g w) (hasConnection g w)
      (match connections w !! g with
       | Some cid => cstatus <$> connHeap w !! cid
       | None => None
       end)
      (RadioStream url None now)
      ((if (now =? 0)%Z then 0 else now' - now) / 1000)%Z
      (formatUptime (if (now =? 0)%Z then 0 else now' - now)%Z)).
  { unfold getDetailedStreamInfo, getPlayerStatus, getVolume, hasConnection.
    rewrite G1, E1, E3, E7, E8, lookup_insert_eq. reflexivity. }
  pose proof (info_update_player g now' pid
                (λ st, match st with BufferingState r => PlayingState r | _ => st end)
                w1 _ G1) as I2.
  fold (engine_playing pid w1) in I2. rewrite I1 in I2. cbn in I2.
  pose proof (getPlayer_update g w1 pid _
                (λ st, match st with BufferingState r => PlayingState r | _ => st end) G1)
    as G2.
  fold (engine_playing pid w1) in G2. cbn [pstate plisteners] in G2.
  set (w2 := engine_playing pid w1) in *.
  pose proof (pauseAudio_spec g w2) as P. rewrite G2 in P. cbn in P.
  pose proof (info_update_player g now' pid
                (λ _, PausedState {| playStream := length (procHeap w);
                                     rvolume := Some (getVolume g w);
                                     silenceRemaining := -1 |}) w2 _ G2) as I3.
  rewrite I2 in I3. cbn in I3.
  pose proof (getPlayer_update g w2 pid _
                (λ _, PausedState {| playStream := length (procHeap w);
                                     rvolume := Some (getVolume g w);
                                     silenceRemaining := -1 |}) G2) as G3.
  rewrite P. cbn [snd].
  set (w3 := update_player pid _ w2) in *.
  assert (C3 : connections w3 = connections w).
  { unfold w3, w2, engine_playing.
    destruct (same_update_player pid
                (λ _, PausedState {| playStream := length (procHeap w);
                                     rvolume := Some (getVolume g w);
                                     silenceRemaining := -1 |})
                (update_player pid
                   (λ st, match st with BufferingState r => PlayingState r | _ => st end)
                   w1)) as (_ & _ & -> & _).
    destruct (same_update_player pid
                (λ st, match st with BufferingState r => PlayingState r | _ => st end) w1)
      as (_ & _ & -> & _).
    exact E1. }
  pose proof (stopAudio_spec g w3) as S. rewrite G3 in S. cbn in S.
  split_and!; [exact I1|exact I2|exact I3|].
  rewrite S. cbn [snd].
  destruct (stopCurrentPlayback_released g w3) as (R1 & _).
  destruct (stopCurrentPlayback_frame g w3) as (F1 & _).
  unfold getDetailedStreamInfo. rewrite R1, F1, C3. reflexivity.
Qed.

Lemma detailed_info_along_playback_witness :
  getDetailedStreamInfo "g" 3725999
    (snd (pauseAudio "g"
       (engine_playing 0 (snd (Legacy.playRadio "g" "u" 1000 legacyJoinedWorld))))) =
  StreamPlaying RADIO TextPaused 1%float true (Some Ready) (RadioStream "u" None 1000)
    3724 "1:02:04".
Proof.
  assert (Hg : getPlayer "g" legacyJoinedWorld =
                 Some (0, {| pstate := IdleState; plisteners := ["g"] |}))
    by (vm_compute; reflexivity).
  destruct (detailed_info_along_playback "g" "u" 1000 3725999 legacyJoinedWorld 0 _ Hg)
    as (_ & _ & H3 & _).
  cbn zeta in H3. rewrite H3. vm_compute. reflexivity.
Defined.

End DetailedInfo.

(** ** Steps that leave the control maps alone *)

Section SameControl.
Implicit Types (w : World) (g : guildId).































End SameControl.

(** ** The listeners of the registered player, along a run *)

Section ListenerInvariant.
Implicit Types (w : World) (g : guildId) (X : list guildId).

















End ListenerInvariant.

Section IdlePolicy.
Implicit Types (w : World) (g : guildId).




End IdlePolicy.



(** ** The registry and the listener maps, through a teardown *)

Section RegistryInvariant.
Implicit Types (w : World) (g : guildId).










End RegistryInvariant.

(** ** The unified manager: registry and listener maps along a run *)

Section CoreRegistry.
Implicit Types (w : World) (g : guildId).








End CoreRegistry.

Section CoreRuns.
Implicit Types (w : World) (g : guildId).










End CoreRuns.

(** ** Runs of the older manager *)

Section LegacyRuns.
Implicit Types (w : World) (g : guildId).


Lemma legacy_reachable_ind (P : World → Prop) :
  P emptyWorld → (∀ a w, P w → P (legacy_run a w)) → ∀ w, legacy_reachable w → P w.
Proof.
  intros H0 Hs w [l ->]. unfold legacy_runs. by apply foldl_preserves; [intros; apply Hs|].
Qed.


(** *** The table of volumes *)

Lemma volumes_legacy_disconnected cid r w :
  volumes (Legacy.connection_disconnected cid r w) = volumes w.
Proof.
  unfold Legacy.connection_disconnected.
  destruct (connHeap w !! cid) as [c|]; [|done].
  destruct (is_destroyed (cstatus c)); [done|].
  assert (H2 : volumes (foldl (λ w' g, Legacy.disconnectedListener r g w')
                (update_connection cid (conn_set_status Disconnected) w) (clisteners c))
               = volumes w).
  { rewrite volumes_foldl; [apply same_volumes, same_update_connection|].
    intros w' g. unfold Legacy.disconnectedListener.
    destruct r; [done|apply volumes_legacy_cleanup]. }
  destruct r; [|done]. by rewrite (same_volumes _ _ (same_update_connection _ _ _)).
Qed.

Lemma volumes_legacy_destroyed cid w :
  volumes (Legacy.connection_destroyed cid w) = volumes w.
Proof.
  unfold Legacy.connection_destroyed.
  destruct (connHeap w !! cid) as [c|]; [|done].
  destruct (is_destroyed (cstatus c)); [done|].
  rewrite volumes_foldl; [apply same_volumes, same_mark_destroyed|].
  intros w' g. apply volumes_legacy_cleanup.
Qed.

Lemma volumes_legacy_fireTimer n now w : volumes (Legacy.fireTimer n now w) = volumes w.
Proof.
  unfold Legacy.fireTimer. destruct (timers w !! n) as [t|]; [|done].
  destruct (callback t); [|by rewrite volumes_forceKill|done].
  unfold Legacy.restartRadio. cbn [currentStreams set_timers].
  destruct (currentStreams w !! g) as [[]|]; try done.
  rewrite legacy_playRadio_play_with. by rewrite volumes_play_with.
Qed.

(** What a step of the older manager does to the table of volumes:
    nothing, or it stores one clamped value. *)
Lemma volumes_legacy_run a w :
  match a with
  | OldSetVolume g v => volumes (legacy_run a w) = <[g := clampVolume v]> (volumes w)
  | OldIncreaseVolume g =>
    volumes (legacy_run a w) =
      <[g := clampVolume (getVolume g w + AUDIO_CONFIG.VOLUME_STEP)]> (volumes w)
  | OldDecreaseVolume g =>
    volumes (legacy_run a w) =
      <[g := clampVolume (getVolume g w - AUDIO_CONFIG.VOLUME_STEP)]> (volumes w)
  | _ => volumes (legacy_run a w) = volumes w
  end.
Proof.
  destruct a; cbn [legacy_run].
  - apply volumes_legacy_join.
  - apply volumes_legacy_cleanup.
  - rewrite legacy_playRadio_play_with. apply volumes_play_with.
  - rewrite legacy_playQuran_play_with. apply volumes_play_with.
  - apply volumes_pauseAudio.
  - apply volumes_resumeAudio.
  - apply volumes_stopAudio.
  - apply setVolume_volumes.
  - apply setVolume_volumes.
  - apply setVolume_volumes.
  - apply volumes_legacy_shutdown.
  - apply same_volumes, same_engine_playing.
  - apply (volumes_player_idle pid w).
  - apply (volumes_player_error pid w).
  - apply volumes_legacy_disconnected.
  - apply volumes_legacy_destroyed.
  - apply volumes_process_exit.
  - apply volumes_legacy_fireTimer.
Qed.

Lemma volumes_ok_legacy_run a w : volumes_ok w → volumes_ok (legacy_run a w).
Proof.
  intros H. pose proof (volumes_legacy_run a w) as E.
  destruct a; try (by eapply volumes_ok_same); by eapply volumes_ok_insert.
Qed.

Lemma legacy_reachable_volumes_ok w : legacy_reachable w → volumes_ok w.
Proof.
  apply legacy_reachable_ind; [|intros; by apply volumes_ok_legacy_run].
  intros k x Hk. cbn in Hk. by rewrite lookup_empty in Hk.
Qed.

(** *** The session maps *)


















End LegacyRuns.





(** C10.  In a state either manager can reach, [increaseVolume] stores
    min(current + 0.1, 2) and [decreaseVolume] stores max(current - 0.1, 0),
    where current is the stored volume or 1 when there is none; both
    return true; at 2 an increase leaves 2, at 0 a decrease leaves 0. *)
Theorem volume_steps g w :
  reachable w ∨ legacy_reachable w →
  let current := getVolume g w in
  fst (increaseVolume g w) = true ∧ fst (decreaseVolume g w) = true ∧
  volumes (snd (increaseVolume g w)) !! g =
    Some (Math_min (current + AUDIO_CONFIG.VOLUME_STEP) AUDIO_CONFIG.MAX_VOLUME) ∧
  volumes (snd (decreaseVolume g w)) !! g =
    Some (Math_max (current - AUDIO_CONFIG.VOLUME_STEP) AUDIO_CONFIG.MIN_VOLUME) ∧
  (volumes w !! g = None → current = 1%float) ∧
  (current = 2%float → getVolume g (snd (increaseVolume g w)) = 2%float) ∧
  (current = 0%float → getVolume g (snd (decreaseVolume g w)) = 0%float).
Proof.
  intros Hr. cbn zeta.
  assert (Hvok : volumes_ok w).
  { destruct Hr as [Hr|Hr];
      [by apply reachable_volumes_ok|by apply legacy_reachable_volumes_ok]. }
  pose proof (getVolume_ok g w Hvok) as Hok.
  unfold increaseVolume, decreaseVolume. cbn zeta.
  destruct (setVolume_volumes g (getVolume g w + AUDIO_CONFIG.VOLUME_STEP) w) as [R1 V1].
  destruct (setVolume_volumes g (getVolume g w - AUDIO_CONFIG.VOLUME_STEP) w) as [R2 V2].
  split_and!.
  - exact R1.
  - exact R2.
  - by rewrite V1, lookup_insert_eq, increase_formula.
  - by rewrite V2, lookup_insert_eq, decrease_formula.
  - intros Hnone. unfold getVolume. by rewrite Hnone.
  - intros Hc. rewrite setVolume_getVolume, Hc. by vm_compute.
  - intros Hc. rewrite setVolume_getVolume, Hc. by vm_compute.
Qed.

Lemma volume_steps_witness :
  getVolume "g" (snd (increaseVolume "g" (runs [CallSetVolume "g" 2%float] emptyWorld)))
    = 2%float ∧
  getVolume "g" (snd (decreaseVolume "g"
                        (legacy_runs [OldSetVolume "g" 0%float] emptyWorld)))
    = 0%float.
Proof.
  split.
  - refine (proj1 (proj2 (proj2 (proj2 (proj2 (proj2
      (volume_steps "g" (runs [CallSetVolume "g" 2%float] emptyWorld) _)))))) _).
    + left. by exists [CallSetVolume "g" 2%float].
    + reflexivity.
  - refine (proj2 (proj2 (proj2 (proj2 (proj2 (proj2
      (volume_steps "g" (legacy_runs [OldSetVolume "g" 0%float] emptyWorld) _)))))) _).
    + right. by exists [OldSetVolume "g" 0%float].
    + reflexivity.
Defined.

(** X21.  [formatUptime] on a whole number of milliseconds that is not
    negative and below 2^53 (where the code's arithmetic on doubles is
    exact): the result is h:mm:ss when an hour or more has passed and
    m:ss otherwise, the fields after the first being exactly two digits
    (the padding neither cuts nor overflows); its third branch is the
    second one at zero minutes; and the milliseconds below a second play
    no part. *)
Theorem formatUptime_fields ms :
  (0 <= ms < 9007199254740992)%Z →
  let seconds := (ms / 1000)%Z in
  let minutes := (seconds / 60)%Z in
  let hours := (minutes / 60)%Z in
  formatUptime ms =
    (if (0 <? hours)%Z
     then pretty hours +:+ ":" +:+ two_digits (minutes mod 60) +:+ ":" +:+
          two_digits (seconds mod 60)
     else pretty minutes +:+ ":" +:+ two_digits (seconds mod 60)) ∧
  String.length (two_digits (minutes mod 60)) = 2 ∧
  String.length (two_digits (seconds mod 60)) = 2 ∧
  formatUptime ms = formatUptime (1000 * seconds) ∧
  ((ms < 60000)%Z → formatUptime ms = "0:" +:+ two_digits seconds).
Proof.
  intros [Hms _]. cbn zeta.
  set (seconds := (ms / 1000)%Z). set (minutes := (seconds / 60)%Z).
  set (hours := (minutes / 60)%Z).
  assert (Hs : (0 <= seconds)%Z) by (apply Z.div_pos; lia).
  assert (Hm : (0 <= minutes)%Z) by (apply Z.div_pos; lia).
  assert (Hsm : (0 <= seconds mod 60 < 60)%Z) by (apply Z.mod_pos_bound; lia).
  assert (Hmm : (0 <= minutes mod 60 < 60)%Z) by (apply Z.mod_pos_bound; lia).
  destruct (padStart_two_digits _ Hsm) as [Ps Ls].
  destruct (padStart_two_digits _ Hmm) as [Pm Lm].
  assert (Hfmt : formatUptime ms =
    (if (0 <? hours)%Z
     then pretty hours +:+ ":" +:+ two_digits (minutes mod 60) +:+ ":" +:+
          two_digits (seconds mod 60)
     else pretty minutes +:+ ":" +:+ two_digits (seconds mod 60))).
  { unfold formatUptime. fold seconds. fold minutes. fold hours.
    rewrite !Z.rem_mod_nonneg by lia. rewrite Ps, Pm.
    destruct (0 <? hours)%Z; [done|].
    destruct (Z.ltb_spec 0 minutes) as [Hpos|Hzero]; [done|].
    assert (minutes = 0%Z) as Hm0 by lia. rewrite Hm0.
    assert (Hlt : (seconds < 60)%Z).
    { unfold minutes in Hm0. apply Z.div_small_iff in Hm0; lia. }
    rewrite (Z.mod_small seconds 60) in * by lia. by rewrite Ps. }
  split_and!; [done|done|done| |].
  - rewrite Hfmt. unfold formatUptime.
    assert (E : (1000 * seconds / 1000 = seconds)%Z).
    { rewrite Z.mul_comm. apply Z.div_mul. lia. }
    rewrite E. fold minutes. fold hours.
    rewrite !Z.rem_mod_nonneg by lia. rewrite Ps, Pm.
    destruct (0 <? hours)%Z; [done|].
    destruct (Z.ltb_spec 0 minutes) as [Hpos|Hzero]; [done|].
    assert (minutes = 0%Z) as Hm0 by lia. rewrite Hm0.
    assert (Hlt : (seconds < 60)%Z).
    { unfold minutes in Hm0. apply Z.div_small_iff in Hm0; lia. }
    rewrite (Z.mod_small seconds 60) in * by lia. by rewrite Ps.
  - intros Hlt. rewrite Hfmt.
    assert (Hs60 : (seconds < 60)%Z).
    { unfold seconds. apply Z.div_lt_upper_bound; lia. }
    assert (Hm0 : minutes = 0%Z) by (unfold minutes; apply Z.div_small; lia).
    assert (Hh0 : hours = 0%Z) by (unfold hours; by rewrite Hm0).
    rewrite Hh0, Hm0, (Z.mod_small seconds 60) by lia. done.
Qed.

Lemma formatUptime_fields_witness : formatUptime 3725999 = "1:02:05".
Proof.
  assert (H : (0 <= 3725999 < 9007199254740992)%Z).
  { split; [unfold Z.le; discriminate|reflexivity]. }
  rewrite (proj1 (formatUptime_fields 3725999 H)).
  vm_compute. reflexivity.
Defined.
